(** * Andamio core hashing utilities: a shallow embedding

    The development follows the three hashing modules of @andamio/core
    (slt-hash.ts, task-hash.ts, commitment-hash.ts).  Each TypeScript
    function is rendered as a Rocq function of the same name, grouped in a
    module named after its source file; the JavaScript built-ins the code
    relies on (typed arrays, 32-bit bit operators, TextEncoder, string
    methods, ordinary objects) are collected in [Js], and the BLAKE2b
    function of the blakejs dependency in [Blake]. *)

From Stdlib Require Import String Ascii.
From Stdlib Require Import ZArith List Lia Bool Arith.
From Stdlib Require Import Permutation Sorting.Sorted.
From Equations Require Import Equations.
Import ListNotations.

Local Open Scope Z_scope.

#[local] Set Warnings "-register-all".

(* ===================================================================== *)
(** * JavaScript values and built-ins *)
(* ===================================================================== *)

Module Js.

(** A call either returns a value or throws. *)
Inductive result (A : Type) : Type :=
| Ok (a : A)
| Throw (msg : string).
Arguments Ok {A} a.
Arguments Throw {A} msg.

Definition bind {A B : Type} (r : result A) (k : A -> result B) : result B :=
  match r with
  | Ok a => k a
  | Throw msg => Throw msg
  end.

(** A Uint8Array: its elements, each stored through ToUint8. *)
Definition bytes := list Z.

(** A JavaScript string: its UTF-16 code units. *)
Definition jsstring := list Z.

(** String literals of the development are ASCII. *)
Definition js (s : string) : jsstring :=
  map (fun a => Z.of_N (N_of_ascii a)) (list_ascii_of_string s).

(** ToUint8: what a typed-array store keeps of an integer. *)
Definition toUint8 (z : Z) : Z := z mod 256.

(** [new Uint8Array([x0, x1, ...])]. *)
Definition Uint8Array_of (xs : list Z) : bytes := map toUint8 xs.

(** ToInt32: the operand conversion of the bit operators. *)
Definition toInt32 (z : Z) : Z := (z + 2 ^ 31) mod 2 ^ 32 - 2 ^ 31.

(** [a >> k], the signed right shift (k taken modulo 32). *)
Definition sar (a k : Z) : Z := Z.shiftr (toInt32 a) (k mod 32).

(** [a & b]. *)
Definition band (a b : Z) : Z := toInt32 (Z.land (toInt32 a) (toInt32 b)).

(** Numbers are IEEE-754 doubles.  The numeric fields handled here hold
    integers, so a number is represented by its integer value; an
    arithmetic result is rounded to 53 significant bits, ties to even. *)
Definition roundDouble (z : Z) : Z :=
  let a := Z.abs z in
  if a <? 2 ^ 53 then z
  else
    let e := Z.log2 a - 52 in
    let q := a / 2 ^ e in
    let r := a mod 2 ^ e in
    let half := 2 ^ (e - 1) in
    let q' := if r <? half then q
              else if half <? r then q + 1
              else if Z.even q then q else q + 1 in
    Z.sgn z * (q' * 2 ^ e).

(** [a - b] on numbers. *)
Definition num_sub (a b : Z) : Z := roundDouble (a - b).

(** [a + b] on numbers. *)
Definition num_add (a b : Z) : Z := roundDouble (a + b).

(** [DataView.prototype.setBigUint64(_, big, false)]: ToBigUint64 reduces
    the value modulo 2^64, then stores the eight bytes big-endian. *)
Definition setBigUint64_be (big : Z) : bytes :=
  let w := big mod 2 ^ 64 in
  map (fun k => (w / 2 ^ (8 * Z.of_nat k)) mod 256) (rev (seq 0 8)).

(** [new Uint8Array(n)]: n zero bytes. *)
Definition zeros (n : nat) : bytes := repeat 0 n.

(** [a[i] = x] on a typed array; a store past the end is ignored. *)
Fixpoint store (a : bytes) (i : nat) (x : Z) : bytes :=
  match a, i with
  | [], _ => []
  | _ :: rest, O => toUint8 x :: rest
  | y :: rest, S i' => y :: store rest i' x
  end.

(** [dst.set(src, offset)], for a source that fits (every target below is
    allocated with the size of what is copied into it). *)
Definition set_array (dst src : bytes) (offset : nat) : bytes :=
  firstn offset dst ++ src ++ skipn (offset + length src) dst.

(** [chunks.push(x)]. *)
Definition push {A : Type} (chunks : list A) (x : A) : list A := chunks ++ [x].

(** [for (const x of xs) body], where the body may throw. *)
Fixpoint for_of {A S : Type} (xs : list A) (st : S) (body : S -> A -> result S)
  : result S :=
  match xs with
  | [] => Ok st
  | x :: rest => bind (body st x) (fun st' => for_of rest st' body)
  end.

(** [buffer.subarray(i, j)] for 0 <= i <= j <= length. *)
Definition subarray (buffer : bytes) (i j : nat) : bytes :=
  firstn (j - i) (skipn i buffer).

(** UTF-8 encoding of one code point. *)
Definition utf8_of_code_point (c : Z) : bytes :=
  if c <? 128 then [c]
  else if c <? 2048 then [192 + c / 64; 128 + c mod 64]
  else if c <? 65536 then
    [224 + c / 4096; 128 + (c / 64) mod 64; 128 + c mod 64]
  else
    [240 + c / 262144; 128 + (c / 4096) mod 64;
     128 + (c / 64) mod 64; 128 + c mod 64].

Definition is_high_surrogate (c : Z) : bool := (55296 <=? c) && (c <=? 56319).
Definition is_low_surrogate (c : Z) : bool := (56320 <=? c) && (c <=? 57343).

(** [new TextEncoder().encode(s)]: surrogate pairs are combined, a lone
    surrogate is replaced by U+FFFD. *)
Fixpoint TextEncoder_encode (s : jsstring) : bytes :=
  match s with
  | [] => []
  | c :: rest =>
      if is_high_surrogate c then
        match rest with
        | d :: rest' =>
            if is_low_surrogate d then
              utf8_of_code_point (65536 + (c - 55296) * 1024 + (d - 56320))
                ++ TextEncoder_encode rest'
            else utf8_of_code_point 65533 ++ TextEncoder_encode rest
        | [] => utf8_of_code_point 65533
        end
      else if is_low_surrogate c then
        utf8_of_code_point 65533 ++ TextEncoder_encode rest
      else utf8_of_code_point c ++ TextEncoder_encode rest
  end.

(** [String.prototype.toLowerCase].  The Latin capitals are mapped to
    their small letters; the remaining Unicode case table is not
    reproduced (no code unit outside A-F, a-f lowercases to a-f, so
    comparisons against a hexadecimal digest are unaffected). *)
Definition lower_unit (c : Z) : Z :=
  if (65 <=? c) && (c <=? 90) then c + 32 else c.

Definition toLowerCase (s : jsstring) : jsstring := map lower_unit s.

(** WhiteSpace and LineTerminator code points, as removed by trim. *)
Definition is_white_space (c : Z) : bool :=
  ((9 <=? c) && (c <=? 13)) || (c =? 32) || (c =? 160) || (c =? 5760)
  || ((8192 <=? c) && (c <=? 8202)) || (c =? 8232) || (c =? 8233)
  || (c =? 8239) || (c =? 8287) || (c =? 12288) || (c =? 65279).

Fixpoint trimStart (s : jsstring) : jsstring :=
  match s with
  | [] => []
  | c :: rest => if is_white_space c then trimStart rest else s
  end.

(** [String.prototype.trim]. *)
Definition trim (s : jsstring) : jsstring :=
  rev (trimStart (rev (trimStart s))).

(** Strict equality of two strings. *)
Definition string_eqb (a b : jsstring) : bool :=
  if list_eq_dec Z.eq_dec a b then true else false.

(** The test [/^[0-9a-fA-F]{64}$/.test(s)]. *)
Definition is_hex_unit (c : Z) : bool :=
  ((48 <=? c) && (c <=? 57)) || ((97 <=? c) && (c <=? 102))
  || ((65 <=? c) && (c <=? 70)).

Definition regex_hex64 (s : jsstring) : bool :=
  (length s =? 64)%nat && forallb is_hex_unit s.

(** One byte as two lowercase hexadecimal digits. *)
Definition hex_digit (d : Z) : Z := if d <? 10 then 48 + d else 87 + d.

Definition hex_byte (b : Z) : jsstring := [hex_digit (b / 16); hex_digit (b mod 16)].

End Js.

Import Js.

Notation "x <- e ;; k" := (Js.bind e (fun x => k))
  (at level 61, e at next level, right associativity).

(* ===================================================================== *)
(** * JSON-like values and ordinary objects *)
(* ===================================================================== *)

Module JsValue.

Section Values.

(** Numbers inside a document are never inspected by the code: the type
    of doubles is left abstract. *)
Variable number : Type.

(** A JSON-like value.  An object is the list of its own enumerable
    string-keyed properties in enumeration order. *)
Inductive value : Type :=
| VNull
| VUndefined
| VBool (b : bool)
| VNumber (n : number)
| VString (s : jsstring)
| VArray (items : list value)
| VObject (members : list (jsstring * value)).

Definition is_undefined (v : value) : bool :=
  match v with VUndefined => true | _ => false end.

(** [Object.keys(o)]. *)
Definition Object_keys (o : list (jsstring * value)) : list jsstring :=
  map fst o.

(** The own property [o[key]], if there is one. *)
Fixpoint get_own {V : Type} (o : list (jsstring * V)) (key : jsstring) : option V :=
  match o with
  | [] => None
  | (k, v) :: rest => if string_eqb k key then Some v else get_own rest key
  end.

(** Comparison of two strings by UTF-16 code units, the order of
    [Array.prototype.sort] without a comparator. *)
Fixpoint key_leb (a b : jsstring) : bool :=
  match a, b with
  | [], _ => true
  | _ :: _, [] => false
  | x :: a', y :: b' =>
      if x <? y then true else if y <? x then false else key_leb a' b'
  end.

Fixpoint sort_insert (k : jsstring) (sorted : list jsstring) : list jsstring :=
  match sorted with
  | [] => [k]
  | k' :: rest => if key_leb k k' then k :: sorted else k' :: sort_insert k rest
  end.

(** [keys.sort()]. *)
Definition Array_sort (keys : list jsstring) : list jsstring :=
  fold_right sort_insert [] keys.

(** An array index is the canonical decimal form of an integer in
    0 .. 2^32 - 2; such keys are enumerated first, in numeric order. *)
Definition is_digit (c : Z) : bool := (48 <=? c) && (c <=? 57).

Definition digits_value (k : jsstring) : Z :=
  fold_left (fun acc c => acc * 10 + (c - 48)) k 0.

Definition array_index (k : jsstring) : option Z :=
  match k with
  | [] => None
  | c :: rest =>
      if forallb is_digit k
         && (negb (c =? 48) || (length rest =? 0)%nat)
         && (digits_value k <=? 4294967294)
      then Some (digits_value k) else None
  end.

Definition has_own (o : list (jsstring * value)) (key : jsstring) : bool :=
  match get_own o key with Some _ => true | None => false end.

Fixpoint update_own (o : list (jsstring * value)) (key : jsstring) (v : value)
  : list (jsstring * value) :=
  match o with
  | [] => []
  | (k, x) :: rest =>
      if string_eqb k key then (k, v) :: rest else (k, x) :: update_own rest key v
  end.

(** A new array-index property takes its numeric place among the index
    properties, which precede all the others. *)
Fixpoint insert_index (o : list (jsstring * value)) (key : jsstring) (n : Z)
  (v : value) : list (jsstring * value) :=
  match o with
  | [] => [(key, v)]
  | (k, x) :: rest =>
      match array_index k with
      | Some m => if n <? m then (key, v) :: o
                  else (k, x) :: insert_index rest key n v
      | None => (key, v) :: o
      end
  end.

(** The assignment [o[key] = v] on an object created by [{}].  The key
    __proto__ reaches the accessor of Object.prototype and creates no own
    property; an existing property keeps its place; a new one is placed
    by the enumeration order. *)
Definition obj_set (o : list (jsstring * value)) (key : jsstring) (v : value)
  : list (jsstring * value) :=
  if string_eqb key (js "__proto__") then o
  else if has_own o key then update_own o key v
  else match array_index key with
       | Some n => insert_index o key n v
       | None => o ++ [(key, v)]
       end.

(** Code points of a string (a surrogate pair is one code point), for
    comparing the code-unit order with the code-point order. *)
Fixpoint code_points (s : jsstring) : list Z :=
  match s with
  | [] => []
  | c :: rest =>
      if is_high_surrogate c then
        match rest with
        | d :: rest' =>
            if is_low_surrogate d
            then (65536 + (c - 55296) * 1024 + (d - 56320)) :: code_points rest'
            else c :: code_points rest
        | [] => [c]
        end
      else c :: code_points rest
  end.

Definition code_point_leb (a b : jsstring) : bool :=
  key_leb (code_points a) (code_points b).

(** ** JSON.stringify *)

Variable Number_toJSON : number -> jsstring.

Definition hex4 (c : Z) : jsstring :=
  [hex_digit ((c / 4096) mod 16); hex_digit ((c / 256) mod 16);
   hex_digit ((c / 16) mod 16); hex_digit (c mod 16)].

Definition UnicodeEscape (c : Z) : jsstring := [92; 117] ++ hex4 c.

Definition quote_unit (c : Z) : jsstring :=
  if c =? 8 then [92; 98]
  else if c =? 9 then [92; 116]
  else if c =? 10 then [92; 110]
  else if c =? 12 then [92; 102]
  else if c =? 13 then [92; 114]
  else if c =? 34 then [92; 34]
  else if c =? 92 then [92; 92]
  else if c <? 32 then UnicodeEscape c
  else [c].

Fixpoint quote_units (s : jsstring) : jsstring :=
  match s with
  | [] => []
  | c :: rest =>
      if is_high_surrogate c then
        match rest with
        | d :: rest' =>
            if is_low_surrogate d then c :: d :: quote_units rest'
            else UnicodeEscape c ++ quote_units rest
        | [] => UnicodeEscape c
        end
      else if is_low_surrogate c then UnicodeEscape c ++ quote_units rest
      else quote_unit c ++ quote_units rest
  end.

Definition QuoteJSONString (s : jsstring) : jsstring :=
  [34] ++ quote_units s ++ [34].

Fixpoint join (sep : jsstring) (parts : list jsstring) : jsstring :=
  match parts with
  | [] => []
  | [p] => p
  | p :: rest => p ++ sep ++ join sep rest
  end.

(** SerializeJSONProperty without replacer or indentation; [None] stands
    for the result undefined. *)
Fixpoint SerializeJSONProperty (v : value) : option jsstring :=
  match v with
  | VUndefined => None
  | VNull => Some (js "null")
  | VBool true => Some (js "true")
  | VBool false => Some (js "false")
  | VNumber n => Some (Number_toJSON n)
  | VString s => Some (QuoteJSONString s)
  | VArray items =>
      Some (js "[" ++
            join (js ",")
              (map (fun x => match SerializeJSONProperty x with
                             | Some str => str
                             | None => js "null"
                             end) items)
            ++ js "]")
  | VObject members =>
      Some (js "{" ++
            join (js ",")
              (flat_map (fun kv : jsstring * value =>
                           let (k, x) := kv in
                           match SerializeJSONProperty x with
                           | Some str => [QuoteJSONString k ++ js ":" ++ str]
                           | None => []
                           end) members)
            ++ js "}")
  end.

Definition JSON_stringify (v : value) : option jsstring := SerializeJSONProperty v.

End Values.

Arguments VNull {number}.
Arguments VUndefined {number}.
Arguments VBool {number} b.
Arguments VNumber {number} n.
Arguments VString {number} s.
Arguments VArray {number} items.
Arguments VObject {number} members.
Arguments is_undefined {number} v.
Arguments Object_keys {number} o.
Arguments has_own {number} o key.
Arguments update_own {number} o key v.
Arguments insert_index {number} o key n v.
Arguments obj_set {number} o key v.
Arguments SerializeJSONProperty {number} Number_toJSON v.
Arguments JSON_stringify {number} Number_toJSON v.

End JsValue.

Import JsValue.

(* ===================================================================== *)
(** * blakejs: BLAKE2b *)
(* ===================================================================== *)

(** The hash comes from the blakejs package, which is not part of the
    repository.  It is rendered here as BLAKE2b of RFC 7693 (unkeyed,
    64-bit words), with the buffering of blake2bUpdate and blake2bFinal. *)
Module Blake.

Definition mask64 (x : Z) : Z := x mod 2 ^ 64.

Definition rotr64 (x n : Z) : Z :=
  mask64 (Z.lor (Z.shiftr x n) (Z.shiftl x (64 - n))).

Definition BLAKE2B_IV : list Z :=
  [ 0x6a09e667f3bcc908; 0xbb67ae8584caa73b; 0x3c6ef372fe94f82b;
    0xa54ff53a5f1d36f1; 0x510e527fade682d1; 0x9b05688c2b3e6c1f;
    0x1f83d9abfb41bd6b; 0x5be0cd19137e2179 ].

Definition SIGMA : list (list nat) :=
  ([ [0; 1; 2; 3; 4; 5; 6; 7; 8; 9; 10; 11; 12; 13; 14; 15];
    [14; 10; 4; 8; 9; 15; 13; 6; 1; 12; 0; 2; 11; 7; 5; 3];
    [11; 8; 12; 0; 5; 2; 15; 13; 10; 14; 3; 6; 7; 1; 9; 4];
    [7; 9; 3; 1; 13; 12; 11; 14; 2; 6; 5; 10; 4; 0; 15; 8];
    [9; 0; 5; 7; 2; 4; 10; 15; 14; 1; 11; 12; 6; 8; 3; 13];
    [2; 12; 6; 10; 0; 11; 8; 3; 4; 13; 7; 5; 15; 14; 1; 9];
    [12; 5; 1; 15; 14; 13; 4; 10; 0; 7; 6; 3; 9; 2; 8; 11];
    [13; 11; 7; 14; 12; 1; 3; 9; 5; 0; 15; 4; 8; 6; 2; 10];
    [6; 15; 14; 9; 11; 3; 0; 8; 12; 2; 13; 7; 1; 4; 10; 5];
    [10; 2; 8; 4; 7; 6; 1; 5; 15; 11; 9; 14; 3; 12; 13; 0];
    [0; 1; 2; 3; 4; 5; 6; 7; 8; 9; 10; 11; 12; 13; 14; 15];
    [14; 10; 4; 8; 9; 15; 13; 6; 1; 12; 0; 2; 11; 7; 5; 3] ])%nat.

Definition get (v : list Z) (i : nat) : Z := nth i v 0.

Fixpoint set (v : list Z) (i : nat) (x : Z) : list Z :=
  match v, i with
  | [], _ => []
  | _ :: t, O => x :: t
  | h :: t, S i' => h :: set t i' x
  end.

(** The mixing function G. *)
Definition B2B_G (v : list Z) (a b c d : nat) (x y : Z) : list Z :=
  let v := set v a (mask64 (get v a + get v b + x)) in
  let v := set v d (rotr64 (Z.lxor (get v d) (get v a)) 32) in
  let v := set v c (mask64 (get v c + get v d)) in
  let v := set v b (rotr64 (Z.lxor (get v b) (get v c)) 24) in
  let v := set v a (mask64 (get v a + get v b + y)) in
  let v := set v d (rotr64 (Z.lxor (get v d) (get v a)) 16) in
  let v := set v c (mask64 (get v c + get v d)) in
  set v b (rotr64 (Z.lxor (get v b) (get v c)) 63).

Definition round (m : list Z) (v : list Z) (s : list nat) : list Z :=
  let w (i : nat) := get m (nth i s O) in
  let v := B2B_G v 0 4 8 12 (w 0%nat) (w 1%nat) in
  let v := B2B_G v 1 5 9 13 (w 2%nat) (w 3%nat) in
  let v := B2B_G v 2 6 10 14 (w 4%nat) (w 5%nat) in
  let v := B2B_G v 3 7 11 15 (w 6%nat) (w 7%nat) in
  let v := B2B_G v 0 5 10 15 (w 8%nat) (w 9%nat) in
  let v := B2B_G v 1 6 11 12 (w 10%nat) (w 11%nat) in
  let v := B2B_G v 2 7 8 13 (w 12%nat) (w 13%nat) in
  B2B_G v 3 4 9 14 (w 14%nat) (w 15%nat).

(** Little-endian 64-bit word starting at byte [8 * i] of a block. *)
Definition word_at (block : bytes) (i : nat) : Z :=
  fold_right (fun b acc => b mod 256 + 256 * acc) 0
    (firstn 8 (skipn (8 * i)%nat block)).

(** The hashing context: chain value, input buffer, byte counter. *)
Record ctx : Type := mkCtx { h : list Z; b : bytes; t : Z }.

Definition blake2bCompress (c : ctx) (last : bool) : list Z :=
  let m := map (word_at (b c)) (seq 0 16) in
  let v := h c ++ BLAKE2B_IV in
  let v := set v 12 (Z.lxor (get v 12) (mask64 (t c))) in
  let v := set v 13 (Z.lxor (get v 13) (mask64 (t c / 2 ^ 64))) in
  let v := if last then set v 14 (Z.lxor (get v 14) (2 ^ 64 - 1)) else v in
  let v := fold_left (round m) SIGMA v in
  map (fun i => Z.lxor (Z.lxor (get (h c) i) (get v i)) (get v (i + 8)%nat))
      (seq 0 8).

Definition blake2bInit (outlen : Z) : ctx :=
  mkCtx (set BLAKE2B_IV 0 (Z.lxor (get BLAKE2B_IV 0) (Z.lxor 0x01010000 outlen)))
        [] 0.

Definition blake2bUpdate (c : ctx) (input : bytes) : ctx :=
  fold_left
    (fun c x =>
       let c := if (length (b c) =? 128)%nat
                then let t' := t c + 128 in
                     mkCtx (blake2bCompress (mkCtx (h c) (b c) t') false) [] t'
                else c in
       mkCtx (h c) (b c ++ [x]) (t c))
    input c.

Definition blake2bFinal (outlen : nat) (c : ctx) : bytes :=
  let t' := t c + Z.of_nat (length (b c)) in
  let padded := b c ++ repeat 0 (128 - length (b c))%nat in
  let hfin := blake2bCompress (mkCtx (h c) padded t') true in
  firstn outlen
    (flat_map (fun w => map (fun k => (w / 2 ^ (8 * Z.of_nat k)) mod 256) (seq 0 8))
              hfin).

Definition toHex (out : bytes) : jsstring := flat_map hex_byte out.

(** [blake.blake2bHex(input, undefined, 32)]. *)
Definition blake2bHex32 (input : bytes) : jsstring :=
  toHex (blake2bFinal 32 (blake2bUpdate (blake2bInit 32) input)).

End Blake.

(* ===================================================================== *)
(** * slt-hash.ts *)
(* ===================================================================== *)

Module SltHash.

Definition PLUTUS_CHUNK_SIZE : nat := 64.

Definition concatUint8Arrays (arrays : list bytes) : bytes :=
  let totalLength := fold_left (fun sum arr => (sum + length arr)%nat) arrays O in
  let result := zeros totalLength in
  fst (fold_left
         (fun (st : bytes * nat) arr =>
            let (result, offset) := st in
            (set_array result arr offset, (offset + length arr)%nat))
         arrays (result, O)).

Definition encodeCBORByteString (buffer : bytes) : result bytes :=
  let len := length buffer in
  let lenZ := Z.of_nat len in
  if lenZ <=? 23 then
    let result := zeros (1 + len) in
    let result := store result 0 (0x40 + lenZ) in
    Ok (set_array result buffer 1)
  else if lenZ <=? 255 then
    let result := zeros (2 + len) in
    let result := store result 0 0x58 in
    let result := store result 1 lenZ in
    Ok (set_array result buffer 2)
  else if lenZ <=? 65535 then
    let result := zeros (3 + len) in
    let result := store result 0 0x59 in
    let result := store result 1 (sar lenZ 8) in
    let result := store result 2 (band lenZ 0xff) in
    Ok (set_array result buffer 3)
  else Throw "Byte string too long for CBOR encoding".

(** The loop [for (let i = 0; i < buffer.length; i += PLUTUS_CHUNK_SIZE)]
    of encodePlutusBuiltinByteString, entered at index [i]. *)
Equations? chunk_loop (buffer : bytes) (i : nat) (chunks : list bytes)
  : result (list bytes) by wf (length buffer - i)%nat lt :=
  chunk_loop buffer i chunks with lt_dec i (length buffer) => {
    | left _ =>
        let chunk :=
          subarray buffer i (Nat.min (i + PLUTUS_CHUNK_SIZE) (length buffer)) in
        match encodeCBORByteString chunk with
        | Ok c => chunk_loop buffer (i + PLUTUS_CHUNK_SIZE) (push chunks c)
        | Throw msg => Throw msg
        end
    | right _ => Ok chunks }.
Proof. unfold PLUTUS_CHUNK_SIZE. lia. Qed.

Definition encodePlutusBuiltinByteString (buffer : bytes) : result bytes :=
  if (length buffer <=? PLUTUS_CHUNK_SIZE)%nat then encodeCBORByteString buffer
  else
    let chunks : list bytes := [] in
    let chunks := push chunks (Uint8Array_of [0x5f]) in
    chunks <- chunk_loop buffer 0 chunks ;;
    let chunks := push chunks (Uint8Array_of [0xff]) in
    Ok (concatUint8Arrays chunks).

Definition encodeAsPlutusArray (items : list bytes) : result bytes :=
  let chunks : list bytes := [] in
  let chunks := push chunks (Uint8Array_of [0x9f]) in
  chunks <- for_of items chunks
              (fun chunks item =>
                 c <- encodePlutusBuiltinByteString item ;;
                 Ok (push chunks c)) ;;
  let chunks := push chunks (Uint8Array_of [0xff]) in
  Ok (concatUint8Arrays chunks).

Definition computeSltHash (slts : list jsstring) : result jsstring :=
  let sltBytes := map TextEncoder_encode slts in
  cborData <- encodeAsPlutusArray sltBytes ;;
  Ok (Blake.blake2bHex32 cborData).

Definition computeSltHashDefinite := computeSltHash.

Definition verifySltHash (slts : list jsstring) (expectedHash : jsstring)
  : result bool :=
  computedHash <- computeSltHash slts ;;
  Ok (string_eqb (toLowerCase computedHash) (toLowerCase expectedHash)).

Definition isValidSltHash (hash : jsstring) : bool :=
  if negb (length hash =? 64)%nat then false
  else regex_hex64 hash.

End SltHash.

(* ===================================================================== *)
(** * task-hash.ts *)
(* ===================================================================== *)

Module TaskHash.

(** [type NativeAsset = [string, number]]. *)
Definition NativeAsset : Type := jsstring * Z.

(** [interface TaskData]; the numeric fields hold integers (a timestamp
    in milliseconds, an amount of lovelace, asset quantities). *)
Record TaskData : Type := mkTaskData {
  project_content : jsstring;
  expiration_time : Z;
  lovelace_amount : Z;
  native_assets : list NativeAsset
}.

Definition PLUTUS_CHUNK_SIZE : nat := 64.

Definition concatUint8Arrays (arrays : list bytes) : bytes :=
  let totalLength := fold_left (fun sum arr => (sum + length arr)%nat) arrays O in
  let result := zeros totalLength in
  fst (fold_left
         (fun (st : bytes * nat) arr =>
            let (result, offset) := st in
            (set_array result arr offset, (offset + length arr)%nat))
         arrays (result, O)).

Definition uint8ArrayToHex (arr : bytes) : jsstring := flat_map hex_byte arr.

Definition encodeCBORByteString (buffer : bytes) : result bytes :=
  let len := length buffer in
  let lenZ := Z.of_nat len in
  if lenZ <=? 23 then
    let result := zeros (1 + len) in
    let result := store result 0 (0x40 + lenZ) in
    Ok (set_array result buffer 1)
  else if lenZ <=? 255 then
    let result := zeros (2 + len) in
    let result := store result 0 0x58 in
    let result := store result 1 lenZ in
    Ok (set_array result buffer 2)
  else if lenZ <=? 65535 then
    let result := zeros (3 + len) in
    let result := store result 0 0x59 in
    let result := store result 1 (sar lenZ 8) in
    let result := store result 2 (band lenZ 0xff) in
    Ok (set_array result buffer 3)
  else Throw "Byte string too long for CBOR encoding".

(** The 64-bit branch: a 9-byte buffer, the header in slot 0, then
    [view.setBigUint64(1, BigInt(v), false)] over the same buffer. *)
Definition encode_uint64 (header v : Z) : bytes :=
  let buf := zeros 9 in
  let buf := store buf 0 header in
  let big := v in
  set_array buf (setBigUint64_be big) 1.

Definition encodePlutusInteger (n : Z) : bytes :=
  if 0 <=? n then
    if n <=? 23 then Uint8Array_of [n]
    else if n <=? 0xff then Uint8Array_of [0x18; n]
    else if n <=? 0xffff then Uint8Array_of [0x19; sar n 8; band n 0xff]
    else if n <=? 0xffffffff then
      Uint8Array_of [0x1a; band (sar n 24) 0xff; band (sar n 16) 0xff;
                     band (sar n 8) 0xff; band n 0xff]
    else encode_uint64 0x1b n
  else
    let absVal := num_sub (-1) n in
    if absVal <=? 23 then Uint8Array_of [num_add 0x20 absVal]
    else if absVal <=? 0xff then Uint8Array_of [0x38; absVal]
    else if absVal <=? 0xffff then
      Uint8Array_of [0x39; sar absVal 8; band absVal 0xff]
    else if absVal <=? 0xffffffff then
      Uint8Array_of [0x3a; band (sar absVal 24) 0xff; band (sar absVal 16) 0xff;
                     band (sar absVal 8) 0xff; band absVal 0xff]
    else encode_uint64 0x3b absVal.

(** The loop [for (let i = 0; i < buffer.length; i += PLUTUS_CHUNK_SIZE)]
    of encodePlutusBuiltinByteString, entered at index [i]. *)
Equations? chunk_loop (buffer : bytes) (i : nat) (chunks : list bytes)
  : result (list bytes) by wf (length buffer - i)%nat lt :=
  chunk_loop buffer i chunks with lt_dec i (length buffer) => {
    | left _ =>
        let chunk :=
          subarray buffer i (Nat.min (i + PLUTUS_CHUNK_SIZE) (length buffer)) in
        match encodeCBORByteString chunk with
        | Ok c => chunk_loop buffer (i + PLUTUS_CHUNK_SIZE) (push chunks c)
        | Throw msg => Throw msg
        end
    | right _ => Ok chunks }.
Proof. unfold PLUTUS_CHUNK_SIZE. lia. Qed.

Definition encodePlutusBuiltinByteString (buffer : bytes) : result bytes :=
  if (length buffer <=? PLUTUS_CHUNK_SIZE)%nat then encodeCBORByteString buffer
  else
    let chunks : list bytes := [] in
    let chunks := push chunks (Uint8Array_of [0x5f]) in
    chunks <- chunk_loop buffer 0 chunks ;;
    let chunks := push chunks (Uint8Array_of [0xff]) in
    Ok (concatUint8Arrays chunks).

Definition encodeNativeAssets (assets : list NativeAsset) : result bytes :=
  if (length assets =? 0)%nat then Ok (Uint8Array_of [0x80])
  else
    let chunks : list bytes := [] in
    let chunks := push chunks (Uint8Array_of [0x9f]) in
    chunks <- for_of assets chunks
                (fun chunks (asset : NativeAsset) =>
                   let (assetClass, quantity) := asset in
                   let chunks := push chunks (Uint8Array_of [0x82]) in
                   c <- encodePlutusBuiltinByteString (TextEncoder_encode assetClass) ;;
                   let chunks := push chunks c in
                   Ok (push chunks (encodePlutusInteger quantity))) ;;
    let chunks := push chunks (Uint8Array_of [0xff]) in
    Ok (concatUint8Arrays chunks).

Definition encodeTaskAsPlutusData (task : TaskData) : result bytes :=
  let chunks : list bytes := [] in
  let chunks := push chunks (Uint8Array_of [0xd8; 0x79]) in
  let chunks := push chunks (Uint8Array_of [0x9f]) in
  c <- encodePlutusBuiltinByteString (TextEncoder_encode (project_content task)) ;;
  let chunks := push chunks c in
  let chunks := push chunks (encodePlutusInteger (expiration_time task)) in
  let chunks := push chunks (encodePlutusInteger (lovelace_amount task)) in
  c <- encodeNativeAssets (native_assets task) ;;
  let chunks := push chunks c in
  let chunks := push chunks (Uint8Array_of [0xff]) in
  Ok (concatUint8Arrays chunks).

Definition computeTaskHash (task : TaskData) : result jsstring :=
  cborData <- encodeTaskAsPlutusData task ;;
  Ok (Blake.blake2bHex32 cborData).

Definition verifyTaskHash (task : TaskData) (expectedHash : jsstring)
  : result bool :=
  computedHash <- computeTaskHash task ;;
  Ok (string_eqb (toLowerCase computedHash) (toLowerCase expectedHash)).

Definition isValidTaskHash (hash : jsstring) : bool :=
  if negb (length hash =? 64)%nat then false
  else regex_hex64 hash.

Definition debugTaskCBOR (task : TaskData) : result jsstring :=
  cborData <- encodeTaskAsPlutusData task ;;
  Ok (uint8ArrayToHex cborData).

End TaskHash.

(* ===================================================================== *)
(** * Numbers that are not integers *)
(* ===================================================================== *)

Module JsNumber.

(** A number: NaN, an infinity, an integer, or [m / 2^k].  Every double
    is one of these, a finite double being an integer or a dyadic
    fraction.  -0 is not told apart from 0: [n >= 0] holds of both and
    both are stored as the byte 0, so the encoder below treats them
    alike. *)
Inductive number : Type :=
| NaN
| Infinity (negative : bool)
| Integer (z : Z)
| Fraction (m : Z) (k : positive).

(** [n >= 0]; false of NaN. *)
Definition ge_zero (n : number) : bool :=
  match n with
  | NaN => false
  | Infinity negative => negb negative
  | Integer z => 0 <=? z
  | Fraction m _ => 0 <=? m
  end.

(** [n <= c] for an integer constant [c]; false of NaN. *)
Definition le_const (n : number) (c : Z) : bool :=
  match n with
  | NaN => false
  | Infinity negative => negative
  | Integer z => z <=? c
  | Fraction m k => m <=? c * 2 ^ Z.pos k
  end.

(** The integral part, rounded towards zero, and 0 for NaN and the
    infinities: the first step of ToUint8 (typed-array store) and of
    ToInt32 (bit operators). *)
Definition integral (n : number) : Z :=
  match n with
  | NaN | Infinity _ => 0
  | Integer z => z
  | Fraction m k => Z.quot m (2 ^ Z.pos k)
  end.

(** [BigInt(n)]: a RangeError unless [n] is an integer. *)
Definition BigInt (n : number) : result Z :=
  match n with
  | Integer z => Ok z
  | Fraction m k =>
      if m mod 2 ^ Z.pos k =? 0 then Ok (m / 2 ^ Z.pos k)
      else Throw "RangeError: the number cannot be converted to a BigInt because it is not an integer"
  | NaN | Infinity _ =>
      Throw "RangeError: the number cannot be converted to a BigInt because it is not an integer"
  end.

(** [a - n] for an integer constant [a], rounded as a double. *)
Definition const_sub (a : Z) (n : number) : number :=
  match n with
  | NaN => NaN
  | Infinity negative => Infinity (negb negative)
  | Integer z => Integer (roundDouble (a - z))
  | Fraction m k => Fraction (roundDouble (a * 2 ^ Z.pos k - m)) k
  end.

(** [a + n] for an integer constant [a], rounded as a double. *)
Definition const_add (a : Z) (n : number) : number :=
  match n with
  | NaN => NaN
  | Infinity negative => Infinity negative
  | Integer z => Integer (roundDouble (a + z))
  | Fraction m k => Fraction (roundDouble (a * 2 ^ Z.pos k + m)) k
  end.

End JsNumber.

Import JsNumber.

(* ===================================================================== *)
(** * task-hash.ts on every number *)
(* ===================================================================== *)

(** The numeric fields of a task are numbers.  [TaskHash] above has them
    as integers; here they are any number, and [BigInt] may throw. *)
Module TaskHashOnNumbers.

(** [type NativeAsset = [string, number]]. *)
Definition NativeAsset : Type := jsstring * number.

(** [interface TaskData]. *)
Record TaskData : Type := mkTaskData {
  project_content : jsstring;
  expiration_time : number;
  lovelace_amount : number;
  native_assets : list NativeAsset
}.

Definition encodePlutusInteger (n : number) : result bytes :=
  if ge_zero n then
    if le_const n 23 then Ok (Uint8Array_of [integral n])
    else if le_const n 0xff then Ok (Uint8Array_of [0x18; integral n])
    else if le_const n 0xffff then
      Ok (Uint8Array_of [0x19; sar (integral n) 8; band (integral n) 0xff])
    else if le_const n 0xffffffff then
      Ok (Uint8Array_of [0x1a; band (sar (integral n) 24) 0xff;
                         band (sar (integral n) 16) 0xff;
                         band (sar (integral n) 8) 0xff; band (integral n) 0xff])
    else
      big <- BigInt n ;;
      Ok (TaskHash.encode_uint64 0x1b big)
  else
    let absVal := const_sub (-1) n in
    if le_const absVal 23 then Ok (Uint8Array_of [integral (const_add 0x20 absVal)])
    else if le_const absVal 0xff then Ok (Uint8Array_of [0x38; integral absVal])
    else if le_const absVal 0xffff then
      Ok (Uint8Array_of [0x39; sar (integral absVal) 8; band (integral absVal) 0xff])
    else if le_const absVal 0xffffffff then
      Ok (Uint8Array_of [0x3a; band (sar (integral absVal) 24) 0xff;
                         band (sar (integral absVal) 16) 0xff;
                         band (sar (integral absVal) 8) 0xff;
                         band (integral absVal) 0xff])
    else
      big <- BigInt absVal ;;
      Ok (TaskHash.encode_uint64 0x3b big).

Definition encodeNativeAssets (assets : list NativeAsset) : result bytes :=
  if (length assets =? 0)%nat then Ok (Uint8Array_of [0x80])
  else
    let chunks : list bytes := [] in
    let chunks := push chunks (Uint8Array_of [0x9f]) in
    chunks <- for_of assets chunks
                (fun chunks (asset : NativeAsset) =>
                   let (assetClass, quantity) := asset in
                   let chunks := push chunks (Uint8Array_of [0x82]) in
                   c <- TaskHash.encodePlutusBuiltinByteString
                          (TextEncoder_encode assetClass) ;;
                   let chunks := push chunks c in
                   q <- encodePlutusInteger quantity ;;
                   Ok (push chunks q)) ;;
    let chunks := push chunks (Uint8Array_of [0xff]) in
    Ok (TaskHash.concatUint8Arrays chunks).

Definition encodeTaskAsPlutusData (task : TaskData) : result bytes :=
  let chunks : list bytes := [] in
  let chunks := push chunks (Uint8Array_of [0xd8; 0x79]) in
  let chunks := push chunks (Uint8Array_of [0x9f]) in
  c <- TaskHash.encodePlutusBuiltinByteString
         (TextEncoder_encode (project_content task)) ;;
  let chunks := push chunks c in
  e <- encodePlutusInteger (expiration_time task) ;;
  let chunks := push chunks e in
  l <- encodePlutusInteger (lovelace_amount task) ;;
  let chunks := push chunks l in
  c <- encodeNativeAssets (native_assets task) ;;
  let chunks := push chunks c in
  let chunks := push chunks (Uint8Array_of [0xff]) in
  Ok (TaskHash.concatUint8Arrays chunks).

Definition computeTaskHash (task : TaskData) : result jsstring :=
  cborData <- encodeTaskAsPlutusData task ;;
  Ok (Blake.blake2bHex32 cborData).

Definition verifyTaskHash (task : TaskData) (expectedHash : jsstring)
  : result bool :=
  computedHash <- computeTaskHash task ;;
  Ok (string_eqb (toLowerCase computedHash) (toLowerCase expectedHash)).

Definition debugTaskCBOR (task : TaskData) : result jsstring :=
  cborData <- encodeTaskAsPlutusData task ;;
  Ok (TaskHash.uint8ArrayToHex cborData).

(** An asset and a task of [TaskHash], their numbers taken as the
    integer-valued numbers they are. *)
Definition of_asset (asset : TaskHash.NativeAsset) : NativeAsset :=
  (fst asset, Integer (snd asset)).

Definition of_task (task : TaskHash.TaskData) : TaskData :=
  mkTaskData (TaskHash.project_content task)
             (Integer (TaskHash.expiration_time task))
             (Integer (TaskHash.lovelace_amount task))
             (map of_asset (TaskHash.native_assets task)).

End TaskHashOnNumbers.

(* ===================================================================== *)
(** * commitment-hash.ts *)
(* ===================================================================== *)

Module CommitmentHash.

Section Evidence.

Variable number : Type.
Variable Number_toJSON : number -> jsstring.

(** One pass of the loop [for (const key of keys)] of
    normalizeForHashing; [normalized] pairs every property value with its
    normal form. *)
Definition normalize_member (normalized : list (jsstring * (value number * value number)))
  (sorted : list (jsstring * value number)) (key : jsstring) : list (jsstring * value number) :=
  match get_own normalized key with
  | Some (val, nval) => if is_undefined val then sorted else obj_set sorted key nval
  | None => sorted
  end.

Fixpoint normalizeForHashing (v : value number) : value number :=
  match v with
  | VNull | VUndefined => VNull
  | VString s => VString (trim s)
  | VNumber _ | VBool _ => v
  | VArray items => VArray (map normalizeForHashing items)
  | VObject members =>
      let normalized :=
        map (fun kv : jsstring * value number =>
               let (k, val) := kv in (k, (val, normalizeForHashing val)))
            members in
      let keys := Array_sort (Object_keys members) in
      VObject (fold_left (normalize_member normalized) keys [])
  end.

(** [new TextEncoder().encode(x)] takes the empty string for undefined. *)
Definition computeCommitmentHash (evidence : value number) : jsstring :=
  let normalized := normalizeForHashing evidence in
  let jsonString := JSON_stringify Number_toJSON normalized in
  let bytes := TextEncoder_encode
                 (match jsonString with Some str => str | None => [] end) in
  Blake.blake2bHex32 bytes.

Definition verifyCommitmentHash (evidence : value number) (expectedHash : jsstring) : bool :=
  let computedHash := computeCommitmentHash evidence in
  string_eqb (toLowerCase computedHash) (toLowerCase expectedHash).

Definition isValidCommitmentHash (hash : jsstring) : bool :=
  if negb (length hash =? 64)%nat then false
  else regex_hex64 hash.

Record EvidenceVerificationResult : Type := mkResult {
  isValid : bool;
  computedHash : jsstring;
  expectedHash : jsstring;
  message : jsstring
}.

Definition verifyEvidenceDetailed (evidence : value number) (onChainHash : jsstring)
  : EvidenceVerificationResult :=
  if negb (isValidCommitmentHash onChainHash) then
    mkResult false [] onChainHash
      (js "Invalid on-chain hash format: expected 64 hex characters, got "
         ++ [34] ++ onChainHash ++ [34])
  else
    let computedHash := computeCommitmentHash evidence in
    let isValid := string_eqb (toLowerCase computedHash) (toLowerCase onChainHash) in
    mkResult isValid computedHash (toLowerCase onChainHash)
      (if isValid then js "Evidence matches on-chain commitment"
       else js "Evidence does not match on-chain commitment - content may have been modified").

Definition computeAssignmentInfoHash := computeCommitmentHash.
Definition verifyAssignmentInfoHash := verifyCommitmentHash.
Definition isValidAssignmentInfoHash := isValidCommitmentHash.

End Evidence.

Arguments normalize_member {number} normalized sorted key.
Arguments normalizeForHashing {number} v.
Arguments computeCommitmentHash {number} Number_toJSON evidence.
Arguments verifyCommitmentHash {number} Number_toJSON evidence expectedHash.
Arguments verifyEvidenceDetailed {number} Number_toJSON evidence onChainHash.

End CommitmentHash.

(* ===================================================================== *)
(** * More built-ins: regular-expression match, parseInt, TextDecoder *)
(* ===================================================================== *)

Module JsText.

(** LineTerminator code points: the ones [.] does not match. *)
Definition is_line_terminator (c : Z) : bool :=
  (c =? 10) || (c =? 13) || (c =? 8232) || (c =? 8233).

(** The matches of [/.{1,2}/g] in a string, left to right: two code
    units where two can be matched, one before a line terminator or at
    the end; a line terminator is skipped. *)
Fixpoint match_pairs (s : jsstring) : list jsstring :=
  match s with
  | [] => []
  | c :: rest =>
      if is_line_terminator c then match_pairs rest
      else
        match rest with
        | [] => [[c]]
        | d :: rest' =>
            if is_line_terminator d then [c] :: match_pairs rest
            else [c; d] :: match_pairs rest'
        end
  end.

(** [s.match(/.{1,2}/g)]: null ([None]) when nothing matches. *)
Definition String_match_pairs (s : jsstring) : option (list jsstring) :=
  match match_pairs s with
  | [] => None
  | ms => Some ms
  end.

(** Value of a digit in radix 16, if it is one. *)
Definition hex_digit_value (c : Z) : option Z :=
  if (48 <=? c) && (c <=? 57) then Some (c - 48)
  else if (97 <=? c) && (c <=? 102) then Some (c - 87)
  else if (65 <=? c) && (c <=? 70) then Some (c - 55)
  else None.

(** The longest prefix of radix-16 digits, as the number it writes;
    [None] when the prefix is empty. *)
Fixpoint hex_prefix (s : jsstring) (acc : option Z) : option Z :=
  match s with
  | [] => acc
  | c :: rest =>
      match hex_digit_value c with
      | Some d =>
          hex_prefix rest (Some (match acc with Some a => a * 16 + d | None => d end))
      | None => acc
      end
  end.

(** [parseInt(s, 16)]; [None] is NaN.  Leading white space is skipped,
    then a sign, then 0x or 0X, and the digits that follow are read. *)
Definition parseInt16 (s : jsstring) : option Z :=
  let s := trimStart s in
  let (sign, s) :=
    match s with
    | 45 :: rest => (-1, rest)
    | 43 :: rest => (1, rest)
    | _ => (1, s)
    end in
  let s :=
    match s with
    | 48 :: 120 :: rest => rest
    | 48 :: 88 :: rest => rest
    | _ => s
    end in
  match hex_prefix s None with
  | Some v => Some (sign * v)
  | None => None
  end.

(** [new Uint8Array(numbers)]: NaN is stored as 0. *)
Definition Uint8Array_from (numbers : list (option Z)) : bytes :=
  map (fun x => match x with Some v => toUint8 v | None => 0 end) numbers.

(** State of the UTF-8 decoder between two bytes of one sequence: the
    code point so far, the continuation bytes still needed, and the
    bounds of the next byte. *)
Record utf8_pending : Type := mkPending {
  code_point : Z;
  bytes_needed : nat;
  lower_boundary : Z;
  upper_boundary : Z
}.

Inductive utf8_step : Type :=
| Emit (c : Z)
| Pending (p : utf8_pending)
| Invalid.

(** A byte met outside a sequence. *)
Definition utf8_lead (b : Z) : utf8_step :=
  if (0 <=? b) && (b <=? 0x7f) then Emit b
  else if (0xc2 <=? b) && (b <=? 0xdf) then
    Pending (mkPending (Z.land b 0x1f) 1 0x80 0xbf)
  else if (0xe0 <=? b) && (b <=? 0xef) then
    Pending (mkPending (Z.land b 0xf) 2
               (if b =? 0xe0 then 0xa0 else 0x80)
               (if b =? 0xed then 0x9f else 0xbf))
  else if (0xf0 <=? b) && (b <=? 0xf4) then
    Pending (mkPending (Z.land b 0x7) 3
               (if b =? 0xf0 then 0x90 else 0x80)
               (if b =? 0xf4 then 0x8f else 0xbf))
  else Invalid.

(** The UTF-8 decoder of the Encoding standard, with replacement: a
    byte that cannot continue a sequence ends it with U+FFFD and is read
    again as a first byte; an unfinished sequence at the end gives U+FFFD. *)
Fixpoint utf8_decode (input : bytes) (st : option utf8_pending) : list Z :=
  match input with
  | [] => match st with
          | None => []
          | Some _ => [0xfffd]
          end
  | b :: rest =>
      let start :=
        match utf8_lead b with
        | Emit c => c :: utf8_decode rest None
        | Pending p => utf8_decode rest (Some p)
        | Invalid => 0xfffd :: utf8_decode rest None
        end in
      match st with
      | None => start
      | Some p =>
          if (lower_boundary p <=? b) && (b <=? upper_boundary p) then
            let c := Z.lor (Z.shiftl (code_point p) 6) (Z.land b 0x3f) in
            match bytes_needed p with
            | S (S n) => utf8_decode rest (Some (mkPending c (S n) 0x80 0xbf))
            | _ => c :: utf8_decode rest None
            end
          else 0xfffd :: start
      end
  end.

(** A code point as UTF-16 code units. *)
Definition utf16_of_code_point (c : Z) : jsstring :=
  if c <? 0x10000 then [c]
  else [0xd800 + (c - 0x10000) / 1024; 0xdc00 + (c - 0x10000) mod 1024].

(** [new TextDecoder().decode(bytes)]: UTF-8 with replacement; a byte
    order mark at the start is dropped. *)
Definition TextDecoder_decode (input : bytes) : jsstring :=
  let cps := utf8_decode input None in
  let cps := match cps with
             | 0xfeff :: rest => rest
             | _ => cps
             end in
  flat_map utf16_of_code_point cps.

End JsText.

Import JsText.

(* ===================================================================== *)
(** * constants/cardano.ts *)
(* ===================================================================== *)

Module Cardano.

Inductive CardanoNetwork : Type := mainnet | preprod | preview.

Definition EXPLORER_URLS (network : CardanoNetwork) : jsstring :=
  match network with
  | mainnet => js "https://cardanoscan.io"
  | preprod => js "https://preprod.cardanoscan.io"
  | preview => js "https://preview.cardanoscan.io"
  end.

Definition CEXPLORER_URLS (network : CardanoNetwork) : jsstring :=
  match network with
  | mainnet => js "https://cexplorer.io"
  | preprod => js "https://preprod.cexplorer.io"
  | preview => js "https://preview.cexplorer.io"
  end.

Definition NETWORK_MAGIC (network : CardanoNetwork) : Z :=
  match network with
  | mainnet => 764824073
  | preprod => 1
  | preview => 2
  end.

Definition ADDRESS_PREFIX (network : CardanoNetwork) : jsstring :=
  match network with
  | mainnet => js "addr"
  | preprod => js "addr_test"
  | preview => js "addr_test"
  end.

Definition getTxExplorerUrl (network : CardanoNetwork) (txHash : jsstring) : jsstring :=
  EXPLORER_URLS network ++ js "/transaction/" ++ txHash.

Definition getAddressExplorerUrl (network : CardanoNetwork) (address : jsstring)
  : jsstring :=
  EXPLORER_URLS network ++ js "/address/" ++ address.

(** The optional [assetName] is [None] when omitted; the test
    [assetName ? ... : ...] holds for a non-empty string. *)
Definition getAssetExplorerUrl (network : CardanoNetwork) (policyId : jsstring)
  (assetName : option jsstring) : jsstring :=
  let assetId :=
    match assetName with
    | Some (c :: name) => policyId ++ js "." ++ (c :: name)
    | _ => policyId
    end in
  EXPLORER_URLS network ++ js "/token/" ++ assetId.

Definition getPolicyExplorerUrl (network : CardanoNetwork) (policyId : jsstring)
  : jsstring :=
  EXPLORER_URLS network ++ js "/tokenPolicy/" ++ policyId.

End Cardano.

(* ===================================================================== *)
(** * constants/policies.ts *)
(* ===================================================================== *)

Module Policies.

Record NetworkPolicies : Type := mkPolicies {
  accessToken : jsstring;
  courseToken : jsstring;
  moduleToken : jsstring;
  assignmentToken : jsstring;
  projectToken : jsstring;
  taskToken : jsstring;
  contributorToken : jsstring
}.

Definition POLICY_IDS (network : Cardano.CardanoNetwork) : NetworkPolicies :=
  match network with
  | Cardano.preprod =>
      mkPolicies (js "4758613867a8a7aa500b5d57a0e877f01a8e63c1365469589b12063c")
                 [] [] [] [] [] []
  | Cardano.preview => mkPolicies [] [] [] [] [] [] []
  | Cardano.mainnet => mkPolicies [] [] [] [] [] [] []
  end.

Definition getAccessTokenPolicyId (network : Cardano.CardanoNetwork) : jsstring :=
  accessToken (POLICY_IDS network).

(** The test [/^[0-9a-fA-F]{56}$/.test(s)]. *)
Definition regex_hex56 (s : jsstring) : bool :=
  (length s =? 56)%nat && forallb is_hex_unit s.

(** The test [/^[0-9a-fA-F]*$/.test(s)]. *)
Definition regex_hex_any (s : jsstring) : bool := forallb is_hex_unit s.

Definition isValidPolicyId (policyId : jsstring) : bool :=
  if negb (length policyId =? 56)%nat then false
  else regex_hex56 policyId.

Definition isValidAssetName (assetName : jsstring) : bool :=
  if (64 <? length assetName)%nat then false
  else if negb (length assetName mod 2 =? 0)%nat then false
  else regex_hex_any assetName.

Definition stringToAssetName (str : jsstring) : jsstring :=
  flat_map hex_byte (TextEncoder_encode str).

Definition assetNameToString (hex : jsstring) : jsstring :=
  let bytes :=
    Uint8Array_from
      (match String_match_pairs hex with
       | Some pairs => map parseInt16 pairs
       | None => []
       end) in
  TextDecoder_decode bytes.

End Policies.

(* ===================================================================== *)
(** * Reference encodings used to state the properties *)
(* ===================================================================== *)

Module Spec.

(** The [width] big-endian bytes of [v]. *)
Definition be_bytes (width : nat) (v : Z) : bytes :=
  map (fun k => (v / 2 ^ (8 * Z.of_nat k)) mod 256) (rev (seq 0 width)).

(** The number written by a big-endian byte sequence. *)
Definition be_value (bs : bytes) : Z :=
  fold_left (fun acc x => acc * 256 + x) bs 0.

(** [out] is the header byte followed by [width] big-endian bytes that
    hold [v] exactly. *)
Definition header_then_value (header : Z) (width : nat) (v : Z) (out : bytes) : Prop :=
  exists payload,
    out = header :: payload /\ length payload = width /\
    Forall (fun x => 0 <= x < 256) payload /\ be_value payload = v.

(** Header of a definite CBOR byte string of [len] bytes, len <= 65535. *)
Definition byte_string_header (len : Z) : bytes :=
  if len <=? 23 then [0x40 + len]
  else if len <=? 255 then [0x58; len]
  else 0x59 :: be_bytes 2 len.

(** Definite CBOR byte string. *)
Definition definite_byte_string (b : bytes) : bytes :=
  byte_string_header (Z.of_nat (length b)) ++ b.

(** The [k]-th 64-byte slice of [b] (the last one may be shorter). *)
Definition slice64 (b : bytes) (k : nat) : bytes := firstn 64 (skipn (64 * k) b).

(** Number of 64-byte slices of a sequence of [len] bytes. *)
Definition slice_count (len : nat) : nat := (len + 63) / 64.

(** The chunked byte string of the specification. *)
Definition chunked_byte_string (b : bytes) : bytes :=
  if (length b <=? 64)%nat then definite_byte_string b
  else [0x5f]
       ++ concat (map (fun k => definite_byte_string (slice64 b k))
                      (seq 0 (slice_count (length b))))
       ++ [0xff].

(** A lowercase hexadecimal digit. *)
Definition is_lower_hex_unit (c : Z) : bool :=
  ((48 <=? c) && (c <=? 57)) || ((97 <=? c) && (c <=? 102)).

(** 64 lowercase hexadecimal characters. *)
Definition is_digest_hex (s : jsstring) : Prop :=
  length s = 64%nat /\ forallb is_lower_hex_unit s = true.

(** The string [s] with the character at position [i] replaced by [c]. *)
Definition replace_at (i : nat) (c : Z) (s : jsstring) : jsstring :=
  firstn i s ++ c :: skipn (S i) s.

(** Sum of the lengths of the chunks. *)
Definition total_length (arrays : list bytes) : nat :=
  fold_right (fun arr sum => (length arr + sum)%nat) O arrays.

(** The width ladder shared by the two major types: [major] is 0 for
    the non-negative integers and 0x20 for the negative ones. *)
Definition ladder (major v : Z) (out : bytes) : Prop :=
  (v <= 23 -> out = [major + v]) /\
  (24 <= v <= 255 -> out = [major + 24; v]) /\
  (256 <= v <= 65535 -> header_then_value (major + 25) 2 v out) /\
  (65536 <= v <= 2 ^ 32 - 1 -> header_then_value (major + 26) 4 v out) /\
  (2 ^ 32 <= v < 2 ^ 64 -> header_then_value (major + 27) 8 v out).

(** Encoding of one native asset: the pair header, the asset class,
    the quantity. *)
Definition asset_item (asset : TaskHash.NativeAsset) : bytes :=
  [0x82] ++ chunked_byte_string (TextEncoder_encode (fst asset))
         ++ TaskHash.encodePlutusInteger (snd asset).

(** The native-assets field of the specification. *)
Definition assets_field (assets : list TaskHash.NativeAsset) : bytes :=
  match assets with
  | [] => [0x80]
  | _ :: _ => [0x9f] ++ flat_map asset_item assets ++ [0xff]
  end.

(** The task record of the specification. *)
Definition task_cbor (task : TaskHash.TaskData) : bytes :=
  [0xd8; 0x79] ++ [0x9f]
  ++ chunked_byte_string (TextEncoder_encode (TaskHash.project_content task))
  ++ TaskHash.encodePlutusInteger (TaskHash.expiration_time task)
  ++ TaskHash.encodePlutusInteger (TaskHash.lovelace_amount task)
  ++ assets_field (TaskHash.native_assets task)
  ++ [0xff].

(** Code-unit order. *)
Definition key_le (a b : jsstring) : Prop := key_leb a b = true.

(** Strict code-unit order. *)
Definition key_lt (a b : jsstring) : Prop := key_leb a b = true /\ a <> b.

(** Strict code-point order. *)
Definition code_point_lt (a b : jsstring) : Prop :=
  code_point_leb a b = true /\ code_points a <> code_points b.

(** The order in which an ordinary object enumerates its keys when the
    other keys were added in ascending code-unit order: array indices by
    value, then the remaining keys by code units. *)
Definition enum_lt (a b : jsstring) : Prop :=
  match array_index a, array_index b with
  | Some m, Some n => m < n
  | Some _, None => True
  | None, Some _ => False
  | None, None => key_lt a b
  end.

(** A key without a surrogate pair: its code points are its code units. *)
Definition no_high_surrogate (k : jsstring) : Prop :=
  forallb (fun c => negb (is_high_surrogate c)) k = true.

Section Documents.

Context {number : Type}.

(** The own properties of an object value. *)
Definition members_of (x : value number) : list (jsstring * value number) :=
  match x with
  | VObject members => members
  | _ => []
  end.

(** The keys of an object follow the enumeration order. *)
Definition enum_sorted (o : list (jsstring * value number)) : Prop :=
  StronglySorted enum_lt (Object_keys o).

(** Property values paired with their normal forms, as the loop of
    normalizeForHashing sees them. *)
Definition normalized_members (members : list (jsstring * value number))
  : list (jsstring * (value number * value number)) :=
  map (fun kv : jsstring * value number =>
         let (k, val) := kv in (k, (val, CommitmentHash.normalizeForHashing val)))
      members.

(** What the normalized object holds under [k]. *)
Definition normalized_lookup (members : list (jsstring * value number))
  (k : jsstring) : option (value number) :=
  match get_own members k with
  | Some val =>
      if is_undefined val || string_eqb k (js "__proto__") then None
      else Some (CommitmentHash.normalizeForHashing val)
  | None => None
  end.

(** Two documents that differ only in the order of the keys of their
    mappings and in leading or trailing white space of their strings. *)
Inductive same_document : value number -> value number -> Prop :=
| same_null : same_document VNull VNull
| same_undefined : same_document VUndefined VUndefined
| same_bool b : same_document (VBool b) (VBool b)
| same_number n : same_document (VNumber n) (VNumber n)
| same_string s s' : trim s = trim s' -> same_document (VString s) (VString s')
| same_array items items' :
    Forall2 same_document items items' ->
    same_document (VArray items) (VArray items')
| same_object members reordered members' :
    NoDup (Object_keys members) ->
    Permutation members reordered ->
    Forall2 (fun a b => fst a = fst b /\ same_document (snd a) (snd b))
            reordered members' ->
    same_document (VObject members) (VObject members').

End Documents.

End Spec.

Import Spec.


(** * Reading the encodings back *)
(* ===================================================================== *)

(** Readers for the byte sequences the encoders produce.  They are not
    part of the package; an encoder that can be read back maps different
    inputs to different bytes. *)
Module Decode.

(** The first [n] bytes and the rest. *)
Definition take (n : Z) (input : bytes) : option (bytes * bytes) :=
  if (0 <=? n) && (n <=? Z.of_nat (length input))
  then Some (firstn (Z.to_nat n) input, skipn (Z.to_nat n) input)
  else None.

(** An unsigned argument with additional information [info]. *)
Definition parse_argument (info : Z) (input : bytes) : option (Z * bytes) :=
  if info <=? 23 then Some (info, input)
  else
    let width := if info =? 24 then 1 else if info =? 25 then 2
                 else if info =? 26 then 4 else if info =? 27 then 8 else -1 in
    match take width input with
    | Some (payload, rest) => Some (be_value payload, rest)
    | None => None
    end.

(** An integer of major type 0 or 1. *)
Definition parse_int (input : bytes) : option (Z * bytes) :=
  match input with
  | [] => None
  | h :: rest =>
      if (0 <=? h) && (h <? 0x20) then parse_argument h rest
      else if (0x20 <=? h) && (h <? 0x40) then
        match parse_argument (h - 0x20) rest with
        | Some (v, rest') => Some (-1 - v, rest')
        | None => None
        end
      else None
  end.

(** A definite byte string with a length below 256. *)
Definition parse_definite (input : bytes) : option (bytes * bytes) :=
  match input with
  | [] => None
  | h :: rest =>
      if (0x40 <=? h) && (h <=? 0x57) then take (h - 0x40) rest
      else if h =? 0x58 then
        match rest with
        | len :: rest' => take len rest'
        | [] => None
        end
      else None
  end.

(** Items up to the break byte. *)
Fixpoint parse_list {A : Type} (item : bytes -> option (A * bytes)) (fuel : nat)
  (input : bytes) : option (list A * bytes) :=
  match fuel with
  | O => None
  | S fuel' =>
      match input with
      | [] => None
      | h :: rest =>
          if h =? 0xff then Some ([], rest)
          else
            match item input with
            | Some (x, input') =>
                match parse_list item fuel' input' with
                | Some (xs, rest') => Some (x :: xs, rest')
                | None => None
                end
            | None => None
            end
      end
  end.

(** A chunked byte string. *)
Definition parse_chunked (input : bytes) : option (bytes * bytes) :=
  match input with
  | [] => None
  | h :: rest =>
      if h =? 0x5f then
        match parse_list parse_definite (length input) rest with
        | Some (chunks, rest') => Some (concat chunks, rest')
        | None => None
        end
      else parse_definite input
  end.

(** One native asset: the UTF-8 bytes of its class and its quantity. *)
Definition parse_asset (input : bytes) : option ((bytes * Z) * bytes) :=
  match input with
  | h :: rest =>
      if h =? 0x82 then
        match parse_chunked rest with
        | Some (class, rest') =>
            match parse_int rest' with
            | Some (quantity, rest'') => Some ((class, quantity), rest'')
            | None => None
            end
        | None => None
        end
      else None
  | [] => None
  end.

Definition parse_assets (input : bytes) : option (list (bytes * Z) * bytes) :=
  match input with
  | h :: rest =>
      if h =? 0x80 then Some ([], rest)
      else if h =? 0x9f then parse_list parse_asset (length input) rest
      else None
  | [] => None
  end.

(** A task: content bytes, expiration, lovelace, assets. *)
Definition parse_task (input : bytes) : option (bytes * Z * Z * list (bytes * Z)) :=
  match input with
  | 0xd8 :: 0x79 :: 0x9f :: rest =>
      match parse_chunked rest with
      | Some (content, rest1) =>
          match parse_int rest1 with
          | Some (expiration, rest2) =>
              match parse_int rest2 with
              | Some (lovelace, rest3) =>
                  match parse_assets rest3 with
                  | Some (assets, [0xff]) => Some (content, expiration, lovelace, assets)
                  | _ => None
                  end
              | None => None
              end
          | None => None
          end
      | None => None
      end
  | _ => None
  end.

(** What a task is on the chain: its strings as UTF-8 bytes. *)
Definition task_fields (task : TaskHash.TaskData) : bytes * Z * Z * list (bytes * Z) :=
  (TextEncoder_encode (TaskHash.project_content task),
   TaskHash.expiration_time task,
   TaskHash.lovelace_amount task,
   map (fun asset : TaskHash.NativeAsset => (TextEncoder_encode (fst asset), snd asset))
       (TaskHash.native_assets task)).

(** The integers the encoder writes exactly. *)
Definition exact_range (n : Z) : Prop := - 2 ^ 53 <= n < 2 ^ 64.

Definition task_in_range (task : TaskHash.TaskData) : Prop :=
  exact_range (TaskHash.expiration_time task) /\
  exact_range (TaskHash.lovelace_amount task) /\
  Forall (fun asset : TaskHash.NativeAsset => exact_range (snd asset))
         (TaskHash.native_assets task).

(** One asset as the encoder writes it, from its class bytes. *)
Definition asset_bytes (a : bytes * Z) : bytes :=
  [0x82] ++ chunked_byte_string (fst a) ++ TaskHash.encodePlutusInteger (snd a).

End Decode.

Import Decode.

(* ===================================================================== *)
(** * Well-formed strings and canonical documents *)
(* ===================================================================== *)

(** Predicates used to state what the text functions and the
    normalization keep. *)
Module Forms.

(** Every element is a UTF-16 code unit. *)
Definition code_units (s : jsstring) : Prop := Forall (fun c => 0 <= c < 65536) s.

(** Every element is a byte. *)
Definition byte_values (b : bytes) : Prop := Forall (fun x => 0 <= x < 256) b.

(** A Unicode scalar value: a code point that is not a surrogate. *)
Definition is_scalar (c : Z) : Prop :=
  0 <= c < 0x110000 /\ ~ (0xd800 <= c <= 0xdfff).

(** [String.prototype.isWellFormed]: the string has no lone surrogate. *)
Fixpoint isWellFormed (s : jsstring) : bool :=
  match s with
  | [] => true
  | c :: rest =>
      if is_high_surrogate c then
        match rest with
        | d :: rest' => is_low_surrogate d && isWellFormed rest'
        | [] => false
        end
      else negb (is_low_surrogate c) && isWellFormed rest
  end.

(** [String.prototype.toWellFormed]: every lone surrogate becomes U+FFFD. *)
Fixpoint toWellFormed (s : jsstring) : jsstring :=
  match s with
  | [] => []
  | c :: rest =>
      if is_high_surrogate c then
        match rest with
        | d :: rest' =>
            if is_low_surrogate d then c :: d :: toWellFormed rest'
            else 0xfffd :: toWellFormed rest
        | [] => [0xfffd]
        end
      else if is_low_surrogate c then 0xfffd :: toWellFormed rest
      else c :: toWellFormed rest
  end.

(** The scalar values of a string: a surrogate pair is one value, a lone
    surrogate counts as U+FFFD. *)
Fixpoint scalar_values (s : jsstring) : list Z :=
  match s with
  | [] => []
  | c :: rest =>
      if is_high_surrogate c then
        match rest with
        | d :: rest' =>
            if is_low_surrogate d
            then (65536 + (c - 55296) * 1024 + (d - 56320)) :: scalar_values rest'
            else 0xfffd :: scalar_values rest
        | [] => [0xfffd]
        end
      else if is_low_surrogate c then 0xfffd :: scalar_values rest
      else c :: scalar_values rest
  end.

(** A sequence without its leading U+FEFF, if it has one. *)
Definition drop_bom (s : list Z) : list Z :=
  match s with
  | 0xfeff :: rest => rest
  | _ => s
  end.

(** An optional string argument, the empty string when omitted. *)
Definition or_empty (s : option jsstring) : jsstring :=
  match s with
  | Some str => str
  | None => []
  end.

(** A string as the encoder expects it: code units, no lone surrogate. *)
Definition well_formed (s : jsstring) : Prop :=
  code_units s /\ isWellFormed s = true.

(** The strings of a task (its content and its asset classes) all
    satisfy [P]. *)
Definition task_strings (P : jsstring -> Prop) (task : TaskHash.TaskData) : Prop :=
  P (TaskHash.project_content task) /\
  Forall (fun asset : TaskHash.NativeAsset => P (fst asset))
         (TaskHash.native_assets task).

(** The bytes that assetNameToString reads from a hexadecimal string. *)
Definition hex_bytes (hex : jsstring) : bytes :=
  Uint8Array_from
    (match String_match_pairs hex with
     | Some pairs => map parseInt16 pairs
     | None => []
     end).

(** The byte sequences [b1] and [b2] differ and have the same
    BLAKE2b-256 digest. *)
Definition digest_collision (b1 b2 : bytes) : Prop :=
  b1 <> b2 /\ Blake.blake2bHex32 b1 = Blake.blake2bHex32 b2.

Section Canonical.

Context {number : Type}.

(** A document in normal form: no undefined, strings trimmed, mappings
    with their keys in enumeration order and without own __proto__. *)
Inductive canonical : value number -> Prop :=
| canonical_null : canonical VNull
| canonical_bool b : canonical (VBool b)
| canonical_number n : canonical (VNumber n)
| canonical_string s : trim s = s -> canonical (VString s)
| canonical_array items :
    Forall canonical items -> canonical (VArray items)
| canonical_object members :
    enum_sorted members ->
    get_own members (js "__proto__") = None ->
    Forall (fun kv => canonical (snd kv)) members ->
    canonical (VObject members).

End Canonical.

End Forms.

Import Forms.

(* ===================================================================== *)
(** * Test vectors *)
(* ===================================================================== *)

(** BLAKE2b-256 of the empty input, of abc, and of a 129-byte input
    (two blocks). *)
Example blake2b_empty :
  Blake.blake2bHex32 []
  = js "0e5751c026e543b2e8ab2eb06099daa1d1e5df47778f7787faab45cdf12fe3a8".
Proof. vm_compute. reflexivity. Qed.

Example blake2b_abc :
  Blake.blake2bHex32 [97; 98; 99]
  = js "bddd813c634239723171ef3fee98579b94964e3bb1cb3e427262c8c068d52319".
Proof. vm_compute. reflexivity. Qed.

Example blake2b_two_blocks :
  Blake.blake2bHex32 (map (fun i => (Z.of_nat i * 7 + 3) mod 256) (seq 0 129))
  = js "a34a4e1e03c541dfbf3099c4b6c143c022ced65c28bd7e8a10e0a098461aecf0".
Proof. vm_compute. reflexivity. Qed.

(** The example of the documentation of computeSltHash. *)
Example computeSltHash_documented :
  SltHash.computeSltHash
    [js "I can mint an access token.";
     js "I can complete an assignment to earn a credential."]
  = Ok (js "8dcbe1b925d87e6c547bbd8071c23a712db4c32751454b0948f8c846e9246b5c").
Proof. vm_compute. reflexivity. Qed.

(** The example of the documentation of computeTaskHash, before hashing. *)
Example debugTaskCBOR_documented :
  TaskHash.debugTaskCBOR
    (TaskHash.mkTaskData (js "Open Task #1") 1769027280000 15000000 [])
  = Ok (js "d8799f4c4f70656e205461736b2023311b0000019be23e1c801a00e4e1c080ff").
Proof. vm_compute. reflexivity. Qed.

(** Rounding of integers to doubles: ties go to the even significand. *)
Example roundDouble_ties :
  map roundDouble [2 ^ 53; 2 ^ 53 + 1; 2 ^ 53 + 2; 2 ^ 53 + 3; 2 ^ 64 - 1; - (2 ^ 53 + 1)]
  = [2 ^ 53; 2 ^ 53; 2 ^ 53 + 2; 2 ^ 53 + 4; 2 ^ 64; - 2 ^ 53].
Proof. vm_compute. reflexivity. Qed.

(** UTF-8 of A, e-acute, the euro sign, a surrogate pair and two lone
    surrogates. *)
Example TextEncoder_encode_units :
  TextEncoder_encode [0x41; 0xe9; 0x20ac; 0xd83d; 0xde00; 0xd800; 0x42; 0xdc00]
  = [0x41; 0xc3; 0xa9; 0xe2; 0x82; 0xac; 0xf0; 0x9f; 0x98; 0x80;
     0xef; 0xbf; 0xbd; 0x42; 0xef; 0xbf; 0xbd].
Proof. vm_compute. reflexivity. Qed.

(** A document with keys out of order, an undefined member, array-index
    keys and a nested array, in its normal form as JSON text. *)
Example normalize_then_stringify :
  JSON_stringify (fun n : Z => [48 + n])
    (CommitmentHash.normalizeForHashing
       (VObject
          [(js "b", VNumber 2); (js "a", VNumber 1); (js "10", VNull);
           (js "9", VString (js "  hi ")); (js "u", VUndefined);
           (js "arr", VArray [VUndefined; VBool true;
                              VObject [(js "z", VNumber 1);
                                       (js "y", VString [65; 10; 66])]])]))
  = Some (js "{" ++ [34] ++ js "9" ++ [34] ++ js ":" ++ [34] ++ js "hi" ++ [34]
          ++ js "," ++ [34] ++ js "10" ++ [34] ++ js ":null,"
          ++ [34] ++ js "a" ++ [34] ++ js ":1,"
          ++ [34] ++ js "arr" ++ [34] ++ js ":[null,true,{"
          ++ [34] ++ js "y" ++ [34] ++ js ":"
          ++ [34] ++ [65; 92; 110; 66] ++ [34] ++ js ","
          ++ [34] ++ js "z" ++ [34] ++ js ":1}],"
          ++ [34] ++ js "b" ++ [34] ++ js ":2}").
Proof. vm_compute. reflexivity. Qed.

(* ===================================================================== *)
(** * Typed arrays and bit operators *)
(* ===================================================================== *)

Lemma toInt32_small z : - 2 ^ 31 <= z < 2 ^ 31 -> toInt32 z = z.
Proof.
  intros Hz. unfold toInt32.
  rewrite Z.mod_small; lia.
Qed.

Lemma toInt32_mod256 z : toInt32 z mod 256 = z mod 256.
Proof.
  unfold toInt32.
  pose proof (Z.div_mod (z + 2 ^ 31) (2 ^ 32) ltac:(lia)) as Hdm.
  replace ((z + 2 ^ 31) mod 2 ^ 32 - 2 ^ 31)
    with (z + (- (2 ^ 24) * ((z + 2 ^ 31) / 2 ^ 32)) * 256) by lia.
  apply Z.mod_add. lia.
Qed.

Lemma toInt32_shift_byte z k :
  0 <= k <= 24 -> (toInt32 z / 2 ^ k) mod 256 = (z / 2 ^ k) mod 256.
Proof.
  intros Hk. unfold toInt32.
  pose proof (Z.div_mod (z + 2 ^ 31) (2 ^ 32) ltac:(lia)) as Hdm.
  set (q := (z + 2 ^ 31) / 2 ^ 32) in *.
  assert (Hpow : 2 ^ 32 = 2 ^ (24 - k) * 256 * 2 ^ k).
  { replace (2 ^ (24 - k) * 256 * 2 ^ k) with (2 ^ (24 - k) * 2 ^ k * 2 ^ 8) by lia.
    rewrite <- !Z.pow_add_r by lia. f_equal. lia. }
  assert (Hq : (- (2 ^ (24 - k) * 256) * q) * 2 ^ k = - (2 ^ 32 * q))
    by (rewrite Hpow; ring).
  replace ((z + 2 ^ 31) mod 2 ^ 32 - 2 ^ 31)
    with (z + (- (2 ^ (24 - k) * 256) * q) * 2 ^ k) by (rewrite Hq; lia).
  rewrite Z.div_add by (apply Z.pow_nonzero; lia).
  replace (z / 2 ^ k + - (2 ^ (24 - k) * 256) * q)
    with (z / 2 ^ k + (- (2 ^ (24 - k)) * q) * 256) by lia.
  apply Z.mod_add. lia.
Qed.

Lemma band_255 z : band z 255 = z mod 256.
Proof.
  unfold band.
  rewrite (toInt32_small 255) by lia.
  change 255 with (Z.ones 8). rewrite Z.land_ones by lia.
  change (2 ^ 8) with 256. rewrite toInt32_mod256.
  apply toInt32_small.
  pose proof (Z.mod_pos_bound z 256 ltac:(lia)). lia.
Qed.

Lemma band_sar_255 z k :
  0 <= k <= 24 -> band (sar z k) 255 = (z / 2 ^ k) mod 256.
Proof.
  intros Hk. unfold band, sar.
  rewrite (toInt32_small 255) by lia.
  change 255 with (Z.ones 8). rewrite Z.land_ones by lia.
  change (2 ^ 8) with 256. rewrite toInt32_mod256.
  rewrite (Z.mod_small k 32) by lia.
  rewrite Z.shiftr_div_pow2 by lia.
  rewrite toInt32_shift_byte by lia.
  apply toInt32_small.
  pose proof (Z.mod_pos_bound (z / 2 ^ k) 256 ltac:(lia)). lia.
Qed.

Lemma sar_small z k :
  0 <= z < 2 ^ 31 -> 0 <= k < 32 -> sar z k = z / 2 ^ k.
Proof.
  intros Hz Hk. unfold sar.
  rewrite toInt32_small by lia.
  rewrite (Z.mod_small k 32) by lia.
  apply Z.shiftr_div_pow2. lia.
Qed.

Lemma toUint8_byte z : 0 <= z < 256 -> toUint8 z = z.
Proof. intros Hz. unfold toUint8. apply Z.mod_small. exact Hz. Qed.

Lemma toUint8_mod z : toUint8 (z mod 256) = z mod 256.
Proof. unfold toUint8. apply Z.mod_mod. lia. Qed.

Lemma skipn_zeros n : skipn n (zeros n) = [].
Proof. apply skipn_all2. unfold zeros. rewrite repeat_length. lia. Qed.

(** Writing a header of [length hd] bytes and then copying the payload
    behind it fills the freshly allocated array exactly. *)
Lemma set_array_behind_header (hd buffer : bytes) :
  set_array (hd ++ zeros (length buffer)) buffer (length hd) = hd ++ buffer.
Proof.
  unfold set_array.
  rewrite firstn_app, firstn_all, Nat.sub_diag, firstn_O, app_nil_r.
  rewrite skipn_app, skipn_all2 by lia.
  replace (length hd + length buffer - length hd)%nat with (length buffer) by lia.
  rewrite skipn_zeros. simpl. rewrite app_nil_r. reflexivity.
Qed.

(* ===================================================================== *)
(** * The definite byte-string encoder *)
(* ===================================================================== *)

Lemma encodeCBORByteString_same buffer :
  TaskHash.encodeCBORByteString buffer = SltHash.encodeCBORByteString buffer.
Proof. reflexivity. Qed.

Lemma be_bytes_2 v : be_bytes 2 v = [(v / 256) mod 256; v mod 256].
Proof.
  unfold be_bytes. simpl. change (2 ^ 8) with 256. change (2 ^ 0) with 1.
  rewrite Z.div_1_r. reflexivity.
Qed.

Lemma encodeCBORByteString_ok buffer :
  Z.of_nat (length buffer) <= 65535 ->
  SltHash.encodeCBORByteString buffer = Ok (definite_byte_string buffer).
Proof.
  intros Hlen. unfold SltHash.encodeCBORByteString, definite_byte_string,
    byte_string_header.
  set (len := Z.of_nat (length buffer)) in *.
  assert (Hlen0 : 0 <= len) by (unfold len; lia).
  destruct (len <=? 23) eqn:H23.
  - apply Z.leb_le in H23. f_equal.
    change (zeros (1 + length buffer)) with ([0] ++ zeros (length buffer)).
    cbn [store app]. rewrite toUint8_byte by lia.
    apply (set_array_behind_header [0x40 + len]).
  - apply Z.leb_gt in H23. destruct (len <=? 255) eqn:H255.
    + apply Z.leb_le in H255. f_equal.
      change (zeros (2 + length buffer)) with ([0; 0] ++ zeros (length buffer)).
      cbn [store app]. rewrite !toUint8_byte by lia.
      apply (set_array_behind_header [0x58; len]).
    + apply Z.leb_gt in H255.
      destruct (len <=? 65535) eqn:H64k; [| apply Z.leb_gt in H64k; lia].
      f_equal.
      change (zeros (3 + length buffer)) with ([0; 0; 0] ++ zeros (length buffer)).
      cbn [store app].
      rewrite sar_small by lia. rewrite band_255.
      change (2 ^ 8) with 256.
      rewrite be_bytes_2.
      assert (Hq : 0 <= len / 256 < 256)
        by (split; [apply Z.div_pos; lia | apply Z.div_lt_upper_bound; lia]).
      rewrite (Z.mod_small (len / 256) 256) by exact Hq.
      rewrite toUint8_mod. rewrite !toUint8_byte by lia.
      apply (set_array_behind_header [0x59; len / 256; len mod 256]).
Qed.

Lemma encodeCBORByteString_throws buffer :
  65535 < Z.of_nat (length buffer) ->
  SltHash.encodeCBORByteString buffer = Throw "Byte string too long for CBOR encoding".
Proof.
  intros Hlen. unfold SltHash.encodeCBORByteString.
  destruct (Z.of_nat (length buffer) <=? 23) eqn:H1; [apply Z.leb_le in H1; lia |].
  destruct (Z.of_nat (length buffer) <=? 255) eqn:H2; [apply Z.leb_le in H2; lia |].
  destruct (Z.of_nat (length buffer) <=? 65535) eqn:H3; [apply Z.leb_le in H3; lia |].
  reflexivity.
Qed.

(** C5. The definite byte-string encoder of both modules returns the
    header 0x40+len and the payload for len <= 23, 0x58, one length byte
    and the payload for 24 <= len <= 255, 0x59, two big-endian length
    bytes and the payload for 256 <= len <= 65535, and it throws exactly
    when len > 65535. *)
Theorem encodeCBORByteString_spec (b : bytes) :
  let len := Z.of_nat (length b) in
  let enc := SltHash.encodeCBORByteString b in
  TaskHash.encodeCBORByteString b = enc /\
  (len <= 23 -> enc = Ok ([0x40 + len] ++ b)) /\
  (24 <= len <= 255 -> enc = Ok ([0x58; len] ++ b)) /\
  (256 <= len <= 65535 ->
     enc = Ok ([0x59; len / 256; len mod 256] ++ b) /\
     be_value [len / 256; len mod 256] = len /\
     0 <= len / 256 < 256 /\ 0 <= len mod 256 < 256) /\
  ((exists msg, enc = Throw msg) <-> 65535 < len) /\
  (65535 < len -> enc = Throw "Byte string too long for CBOR encoding").
Proof.
  intros len enc. subst enc.
  split; [reflexivity |].
  split; [| split; [| split]].
  - intros H. rewrite encodeCBORByteString_ok by (fold len; lia).
    unfold definite_byte_string, byte_string_header. fold len.
    destruct (len <=? 23) eqn:E; [reflexivity | apply Z.leb_gt in E; lia].
  - intros H. rewrite encodeCBORByteString_ok by (fold len; lia).
    unfold definite_byte_string, byte_string_header. fold len.
    destruct (len <=? 23) eqn:E; [apply Z.leb_le in E; lia |].
    destruct (len <=? 255) eqn:E2; [reflexivity | apply Z.leb_gt in E2; lia].
  - intros H. rewrite encodeCBORByteString_ok by (fold len; lia).
    unfold definite_byte_string, byte_string_header. fold len.
    destruct (len <=? 23) eqn:E; [apply Z.leb_le in E; lia |].
    destruct (len <=? 255) eqn:E2; [apply Z.leb_le in E2; lia |].
    rewrite be_bytes_2.
    assert (Hq : 0 <= len / 256 < 256)
      by (split; [apply Z.div_pos; lia | apply Z.div_lt_upper_bound; lia]).
    rewrite (Z.mod_small (len / 256) 256) by exact Hq.
    split; [reflexivity |].
    split; [| split; [exact Hq | apply Z.mod_pos_bound; lia]].
    unfold be_value. simpl.
    pose proof (Z.div_mod len 256 ltac:(lia)). lia.
  - split; [split |].
    + intros [msg Hmsg].
      destruct (Z_le_gt_dec len 65535) as [Hle | Hgt]; [| lia].
      rewrite encodeCBORByteString_ok in Hmsg by (fold len; lia). discriminate.
    + intros H. eexists. apply encodeCBORByteString_throws. fold len. lia.
    + intros H. apply encodeCBORByteString_throws. fold len. lia.
Qed.

(** The encoder at lengths 23, 24 and 256, and past the ceiling. *)
Lemma encodeCBORByteString_spec_witness :
  SltHash.encodeCBORByteString (repeat 7 23) = Ok ([0x57] ++ repeat 7 23) /\
  SltHash.encodeCBORByteString (repeat 7 24) = Ok ([0x58; 24] ++ repeat 7 24) /\
  SltHash.encodeCBORByteString (repeat 7 256) = Ok ([0x59; 1; 0] ++ repeat 7 256) /\
  (exists msg, SltHash.encodeCBORByteString (repeat 7 (256 * 256)) = Throw msg).
Proof.
  split; [| split; [| split]].
  - apply (proj1 (proj2 (encodeCBORByteString_spec (repeat 7 23)))).
    vm_compute. discriminate.
  - apply (proj1 (proj2 (proj2 (encodeCBORByteString_spec (repeat 7 24))))).
    vm_compute. split; discriminate.
  - apply (proj1 (proj2 (proj2 (proj2 (encodeCBORByteString_spec (repeat 7 256)))))).
    vm_compute. split; discriminate.
  - apply (proj1 (proj2 (proj2 (proj2 (proj2
                   (encodeCBORByteString_spec (repeat 7 (256 * 256)))))))).
    vm_compute. reflexivity.
Defined.

(* ===================================================================== *)
(** * Concatenation of chunks *)
(* ===================================================================== *)

Lemma fold_left_total arrays acc :
  fold_left (fun sum (arr : bytes) => (sum + length arr)%nat) arrays acc
  = (acc + total_length arrays)%nat.
Proof.
  revert acc. induction arrays as [| arr arrays IH]; intros acc; simpl.
  - lia.
  - rewrite IH. lia.
Qed.

Lemma copy_loop_invariant arrays done :
  fold_left
    (fun (st : bytes * nat) arr =>
       let (result, offset) := st in
       (set_array result arr offset, (offset + length arr)%nat))
    arrays (done ++ zeros (total_length arrays), length done)
  = (done ++ concat arrays, (length done + total_length arrays)%nat).
Proof.
  revert done. induction arrays as [| arr arrays IH]; intros done.
  - simpl. f_equal. lia.
  - cbn [fold_left total_length fold_right concat].
    fold (total_length arrays).
    assert (Hstep : set_array (done ++ zeros (length arr + total_length arrays))
                      arr (length done)
                    = (done ++ arr) ++ zeros (total_length arrays)).
    { unfold set_array.
      rewrite firstn_app, firstn_all, Nat.sub_diag, firstn_O, app_nil_r.
      rewrite skipn_app, skipn_all2 by lia.
      replace (length done + length arr - length done)%nat with (length arr) by lia.
      unfold zeros. rewrite repeat_app, skipn_app, skipn_all2
        by (rewrite repeat_length; lia).
      rewrite repeat_length, Nat.sub_diag. simpl.
      rewrite <- app_assoc. reflexivity. }
    rewrite Hstep.
    replace (length done + length arr)%nat with (length (done ++ arr))
      by (rewrite length_app; reflexivity).
    rewrite IH. rewrite length_app, <- app_assoc. f_equal. lia.
Qed.

Lemma concatUint8Arrays_concat arrays :
  SltHash.concatUint8Arrays arrays = concat arrays.
Proof.
  unfold SltHash.concatUint8Arrays.
  rewrite fold_left_total.
  exact (f_equal fst (copy_loop_invariant arrays [])).
Qed.

Lemma concatUint8Arrays_same arrays :
  TaskHash.concatUint8Arrays arrays = SltHash.concatUint8Arrays arrays.
Proof. reflexivity. Qed.

(* ===================================================================== *)
(** * The chunked byte-string encoder *)
(* ===================================================================== *)

Lemma chunk_loop_same buffer i chunks :
  TaskHash.chunk_loop buffer i chunks = SltHash.chunk_loop buffer i chunks.
Proof.
  funelim (SltHash.chunk_loop buffer i chunks);
    rewrite TaskHash.chunk_loop_equation_1; rewrite Heq; cbn.
  - change (TaskHash.encodeCBORByteString ?x) with (SltHash.encodeCBORByteString x).
    change TaskHash.PLUTUS_CHUNK_SIZE with SltHash.PLUTUS_CHUNK_SIZE.
    destruct (SltHash.encodeCBORByteString _); [apply H | reflexivity].
  - reflexivity.
Qed.

Lemma encodePlutusBuiltinByteString_same buffer :
  TaskHash.encodePlutusBuiltinByteString buffer
  = SltHash.encodePlutusBuiltinByteString buffer.
Proof.
  unfold TaskHash.encodePlutusBuiltinByteString,
    SltHash.encodePlutusBuiltinByteString.
  rewrite chunk_loop_same. reflexivity.
Qed.

Lemma subarray_slice buffer k :
  subarray buffer (64 * k) (Nat.min (64 * k + 64) (length buffer))
  = slice64 buffer k.
Proof.
  unfold subarray, slice64.
  destruct (le_lt_dec (64 * k + 64) (length buffer)) as [Hle | Hgt].
  - rewrite Nat.min_l by lia. f_equal. lia.
  - rewrite Nat.min_r by lia.
    rewrite !firstn_all2; try reflexivity; rewrite length_skipn; lia.
Qed.

Lemma length_slice64 buffer k : (length (slice64 buffer k) <= 64)%nat.
Proof. unfold slice64. rewrite length_firstn. lia. Qed.

Lemma slice_count_bound len k :
  (k < slice_count len)%nat <-> (64 * k < len)%nat.
Proof.
  unfold slice_count.
  pose proof (Nat.div_mod_eq (len + 63) 64) as Hdm.
  pose proof (Nat.mod_upper_bound (len + 63) 64 ltac:(lia)) as Hm.
  lia.
Qed.

(** The loop entered at the [j]-th slice appends the encodings of the
    remaining slices. *)
Lemma chunk_loop_from buffer m : forall j chunks,
  (slice_count (length buffer) - j = m)%nat ->
  SltHash.chunk_loop buffer (64 * j) chunks
  = Ok (chunks ++ map (fun k => definite_byte_string (slice64 buffer k))
                      (seq j m)).
Proof.
  induction m as [| m IH]; intros j chunks Hm;
    remember (64 * j)%nat as i eqn:Hi;
    rewrite SltHash.chunk_loop_equation_1;
    destruct (lt_dec i (length buffer)) as [Hlt | Hge];
    cbv beta iota zeta delta [SltHash.chunk_loop_unfold_clause_1]; subst i.
  - apply slice_count_bound in Hlt. lia.
  - rewrite app_nil_r. reflexivity.
  - unfold SltHash.PLUTUS_CHUNK_SIZE. rewrite subarray_slice.
    rewrite encodeCBORByteString_ok
      by (pose proof (length_slice64 buffer j); lia).
    replace (64 * j + 64)%nat with (64 * S j)%nat by lia.
    rewrite IH by lia. unfold push. rewrite <- app_assoc. reflexivity.
  - assert (~ (j < slice_count (length buffer))%nat)
      by (rewrite slice_count_bound; exact Hge).
    lia.
Qed.

Lemma encodePlutusBuiltinByteString_ok buffer :
  SltHash.encodePlutusBuiltinByteString buffer = Ok (chunked_byte_string buffer).
Proof.
  unfold SltHash.encodePlutusBuiltinByteString, chunked_byte_string.
  unfold SltHash.PLUTUS_CHUNK_SIZE.
  destruct (length buffer <=? 64)%nat eqn:Hlen.
  - apply Nat.leb_le in Hlen. apply encodeCBORByteString_ok. lia.
  - change 0%nat with (64 * 0)%nat at 1.
    rewrite (chunk_loop_from buffer (slice_count (length buffer))) by lia.
    cbn [bind]. rewrite concatUint8Arrays_concat.
    unfold push. rewrite !concat_app. simpl. reflexivity.
Qed.

(** C2. The chunked encoder of both modules returns the definite byte
    string for at most 64 bytes; otherwise 0x5f, the definite byte strings
    of the successive 64-byte slices, and 0xff.  A 64-byte input is one
    definite string, a 65-byte input has exactly the two chunks of 64
    bytes and of 1 byte. *)
Theorem encodePlutusBuiltinByteString_spec (b : bytes) :
  let enc := SltHash.encodePlutusBuiltinByteString b in
  TaskHash.encodePlutusBuiltinByteString b = enc /\
  ((length b <= 64)%nat ->
     enc = SltHash.encodeCBORByteString b /\
     enc = Ok (byte_string_header (Z.of_nat (length b)) ++ b)) /\
  ((64 < length b)%nat ->
     enc = Ok ([0x5f]
               ++ concat (map (fun k => byte_string_header
                                          (Z.of_nat (length (slice64 b k)))
                                        ++ slice64 b k)
                              (seq 0 (slice_count (length b))))
               ++ [0xff]) /\
     forall k, (k < slice_count (length b))%nat ->
       SltHash.encodeCBORByteString (slice64 b k)
       = Ok (byte_string_header (Z.of_nat (length (slice64 b k))) ++ slice64 b k) /\
       (length (slice64 b k) = if (S k <? slice_count (length b))%nat
                               then 64 else length b - 64 * k)%nat) /\
  (length b = 64%nat -> enc = Ok ([0x58; 64] ++ b)) /\
  (length b = 65%nat ->
     enc = Ok ([0x5f] ++ ([0x58; 64] ++ firstn 64 b) ++ ([0x41] ++ skipn 64 b)
               ++ [0xff])).
Proof.
  intros enc. subst enc.
  split; [apply encodePlutusBuiltinByteString_same |].
  rewrite encodePlutusBuiltinByteString_ok.
  split; [| split; [| split]].
  - intros Hlen. rewrite encodeCBORByteString_ok by lia.
    unfold chunked_byte_string.
    apply Nat.leb_le in Hlen. rewrite Hlen. split; reflexivity.
  - intros Hlen. split.
    + unfold chunked_byte_string.
      apply Nat.leb_gt in Hlen. rewrite Hlen. reflexivity.
    + intros k Hk. split.
      * apply encodeCBORByteString_ok. pose proof (length_slice64 b k). lia.
      * unfold slice64. rewrite length_firstn, length_skipn.
        destruct (S k <? slice_count (length b))%nat eqn:Hnext.
        -- apply Nat.ltb_lt in Hnext. apply slice_count_bound in Hnext. lia.
        -- apply Nat.ltb_ge in Hnext.
           assert (~ (64 * S k < length b)%nat)
             by (rewrite <- slice_count_bound; lia).
           lia.
  - intros Hlen. unfold chunked_byte_string, definite_byte_string.
    rewrite Hlen. reflexivity.
  - intros Hlen. unfold chunked_byte_string. rewrite Hlen.
    change (65 <=? 64)%nat with false. cbv iota.
    change (slice_count 65) with 2%nat.
    cbn [seq map concat]. rewrite app_nil_r.
    unfold definite_byte_string, slice64.
    change (64 * 0)%nat with 0%nat. change (64 * 1)%nat with 64%nat.
    rewrite skipn_O.
    rewrite (firstn_all2 (n := 64) (skipn 64 b)) by (rewrite length_skipn; lia).
    rewrite length_firstn, length_skipn, Hlen.
    change (byte_string_header (Z.of_nat (Init.Nat.min 64 65))) with [88; 64].
    change (byte_string_header (Z.of_nat (65 - 64))) with [65].
    rewrite <- !app_assoc. reflexivity.
Qed.

(** The chunked encoder on 64, 65 and 130 bytes. *)
Lemma encodePlutusBuiltinByteString_spec_witness :
  SltHash.encodePlutusBuiltinByteString (repeat 1 64) = Ok ([0x58; 64] ++ repeat 1 64) /\
  SltHash.encodePlutusBuiltinByteString (repeat 1 65)
  = Ok ([0x5f] ++ ([0x58; 64] ++ repeat 1 64) ++ [0x41; 1] ++ [0xff]) /\
  SltHash.encodePlutusBuiltinByteString (repeat 1 130)
  = Ok ([0x5f] ++ ([0x58; 64] ++ repeat 1 64) ++ ([0x58; 64] ++ repeat 1 64)
        ++ [0x42; 1; 1] ++ [0xff]).
Proof.
  split; [| split].
  - apply (proj1 (proj2 (proj2 (proj2 (encodePlutusBuiltinByteString_spec (repeat 1 64)))))).
    reflexivity.
  - apply (proj2 (proj2 (proj2 (proj2 (encodePlutusBuiltinByteString_spec (repeat 1 65)))))).
    reflexivity.
  - apply (proj1 (proj1 (proj2 (proj2 (encodePlutusBuiltinByteString_spec (repeat 1 130))))
                   ltac:(vm_compute; lia))).
Defined.

(* ===================================================================== *)
(** * The integer encoder *)
(* ===================================================================== *)

Lemma be_bytes_succ w v :
  be_bytes (S w) v = (v / 2 ^ (8 * Z.of_nat w)) mod 256 :: be_bytes w v.
Proof.
  unfold be_bytes. rewrite seq_S, rev_app_distr. reflexivity.
Qed.

Lemma length_be_bytes w v : length (be_bytes w v) = w.
Proof. unfold be_bytes. rewrite length_map, length_rev, length_seq. reflexivity. Qed.

Lemma be_bytes_range w v : Forall (fun x => 0 <= x < 256) (be_bytes w v).
Proof.
  unfold be_bytes. apply Forall_map, Forall_forall. intros k _.
  apply Z.mod_pos_bound. lia.
Qed.

Lemma fold_be_bytes w : forall v acc,
  fold_left (fun a x => a * 256 + x) (be_bytes w v) acc
  = acc * 2 ^ (8 * Z.of_nat w) + v mod 2 ^ (8 * Z.of_nat w).
Proof.
  induction w as [| w IH]; intros v acc.
  - simpl. rewrite Z.mod_1_r. lia.
  - rewrite be_bytes_succ. cbn [fold_left]. rewrite IH.
    replace (8 * Z.of_nat (S w)) with (8 * Z.of_nat w + 8) by lia.
    rewrite Z.pow_add_r by lia. change (2 ^ 8) with 256.
    rewrite (Z.rem_mul_r v (2 ^ (8 * Z.of_nat w)) 256)
      by (try apply Z.pow_nonzero; lia).
    ring.
Qed.

Lemma be_value_be_bytes w v :
  0 <= v < 2 ^ (8 * Z.of_nat w) -> be_value (be_bytes w v) = v.
Proof.
  intros Hv. unfold be_value. rewrite fold_be_bytes.
  rewrite Z.mod_small by exact Hv. lia.
Qed.

Lemma header_then_value_be header w v :
  0 <= v < 2 ^ (8 * Z.of_nat w) ->
  header_then_value header w v (header :: be_bytes w v).
Proof.
  intros Hv. exists (be_bytes w v).
  split; [reflexivity |].
  split; [apply length_be_bytes |].
  split; [apply be_bytes_range | apply be_value_be_bytes; exact Hv].
Qed.

Lemma be_bytes_4 v :
  be_bytes 4 v
  = [(v / 2 ^ 24) mod 256; (v / 2 ^ 16) mod 256; (v / 2 ^ 8) mod 256; v mod 256].
Proof.
  unfold be_bytes. simpl rev. cbn [map].
  change (8 * Z.of_nat 0) with 0. rewrite Z.pow_0_r, Z.div_1_r. reflexivity.
Qed.

Lemma roundDouble_exact z : Z.abs z < 2 ^ 53 -> roundDouble z = z.
Proof.
  intros Hz. unfold roundDouble.
  destruct (Z.abs z <? 2 ^ 53) eqn:E; [reflexivity | apply Z.ltb_ge in E; lia].
Qed.

Lemma encode_uint64_eq header v :
  0 <= header < 256 ->
  TaskHash.encode_uint64 header v = header :: be_bytes 8 (v mod 2 ^ 64).
Proof.
  intros Hh. unfold TaskHash.encode_uint64.
  change (zeros 9) with ([0] ++ zeros 8). cbn [store app].
  rewrite toUint8_byte by exact Hh.
  change (setBigUint64_be v) with (be_bytes 8 (v mod 2 ^ 64)).
  pose proof (set_array_behind_header [header] (be_bytes 8 (v mod 2 ^ 64))) as H.
  rewrite length_be_bytes in H. exact H.
Qed.

Lemma two_bytes_ladder v :
  256 <= v <= 65535 ->
  Uint8Array_of [sar v 8; band v 255] = be_bytes 2 v.
Proof.
  intros Hv. unfold Uint8Array_of. cbn [map].
  rewrite sar_small by lia. rewrite band_255.
  rewrite be_bytes_2. change (2 ^ 8) with 256.
  assert (Hq : 0 <= v / 256 < 256)
    by (split; [apply Z.div_pos; lia | apply Z.div_lt_upper_bound; lia]).
  rewrite (Z.mod_small (v / 256) 256) by exact Hq.
  rewrite toUint8_mod, toUint8_byte by exact Hq. reflexivity.
Qed.

Lemma four_bytes_ladder v :
  Uint8Array_of [band (sar v 24) 255; band (sar v 16) 255; band (sar v 8) 255;
                 band v 255]
  = be_bytes 4 v.
Proof.
  unfold Uint8Array_of. cbn [map].
  rewrite !band_sar_255 by lia. rewrite band_255.
  rewrite !toUint8_mod. rewrite be_bytes_4. reflexivity.
Qed.

Lemma encodePlutusInteger_nonneg n :
  0 <= n < 2 ^ 64 -> ladder 0 n (TaskHash.encodePlutusInteger n).
Proof.
  intros Hn. unfold TaskHash.encodePlutusInteger.
  destruct (0 <=? n) eqn:H0; [| apply Z.leb_gt in H0; lia].
  unfold ladder.
  destruct (n <=? 23) eqn:H1; [apply Z.leb_le in H1 | apply Z.leb_gt in H1].
  { repeat split; intros; try lia.
    unfold Uint8Array_of. cbn [map]. rewrite toUint8_byte by lia. reflexivity. }
  destruct (n <=? 255) eqn:H2; [apply Z.leb_le in H2 | apply Z.leb_gt in H2].
  { repeat split; intros; try lia.
    unfold Uint8Array_of. cbn [map]. rewrite !toUint8_byte by lia. reflexivity. }
  destruct (n <=? 65535) eqn:H3; [apply Z.leb_le in H3 | apply Z.leb_gt in H3].
  { repeat split; intros; try lia.
    change (Uint8Array_of [25; sar n 8; band n 255])
      with (toUint8 25 :: Uint8Array_of [sar n 8; band n 255]).
    rewrite two_bytes_ladder by lia.
    apply header_then_value_be. simpl. lia. }
  destruct (n <=? 4294967295) eqn:H4; [apply Z.leb_le in H4 | apply Z.leb_gt in H4].
  { repeat split; intros; try lia.
    change (Uint8Array_of [26; band (sar n 24) 255; band (sar n 16) 255;
                           band (sar n 8) 255; band n 255])
      with (toUint8 26 :: Uint8Array_of [band (sar n 24) 255; band (sar n 16) 255;
                                         band (sar n 8) 255; band n 255]).
    rewrite four_bytes_ladder.
    apply header_then_value_be. simpl. lia. }
  repeat split; intros; try lia.
  rewrite encode_uint64_eq by lia.
  rewrite Z.mod_small by lia.
  apply header_then_value_be. simpl. lia.
Qed.

Lemma encodePlutusInteger_negative n :
  - 2 ^ 53 <= n < 0 -> ladder 0x20 (-1 - n) (TaskHash.encodePlutusInteger n).
Proof.
  intros Hn. unfold TaskHash.encodePlutusInteger.
  destruct (0 <=? n) eqn:H0; [apply Z.leb_le in H0; lia |].
  unfold num_sub. rewrite roundDouble_exact by lia.
  set (v := -1 - n). assert (Hv : 0 <= v < 2 ^ 53) by (unfold v; lia).
  clearbody v. clear Hn H0.
  unfold ladder.
  destruct (v <=? 23) eqn:H1; [apply Z.leb_le in H1 | apply Z.leb_gt in H1].
  { repeat split; intros; try lia.
    unfold num_add. rewrite roundDouble_exact by lia.
    unfold Uint8Array_of. cbn [map]. rewrite toUint8_byte by lia. reflexivity. }
  destruct (v <=? 255) eqn:H2; [apply Z.leb_le in H2 | apply Z.leb_gt in H2].
  { repeat split; intros; try lia.
    unfold Uint8Array_of. cbn [map]. rewrite !toUint8_byte by lia. reflexivity. }
  destruct (v <=? 65535) eqn:H3; [apply Z.leb_le in H3 | apply Z.leb_gt in H3].
  { repeat split; intros; try lia.
    change (Uint8Array_of [57; sar v 8; band v 255])
      with (toUint8 57 :: Uint8Array_of [sar v 8; band v 255]).
    rewrite two_bytes_ladder by lia.
    apply header_then_value_be. simpl. lia. }
  destruct (v <=? 4294967295) eqn:H4; [apply Z.leb_le in H4 | apply Z.leb_gt in H4].
  { repeat split; intros; try lia.
    change (Uint8Array_of [58; band (sar v 24) 255; band (sar v 16) 255;
                           band (sar v 8) 255; band v 255])
      with (toUint8 58 :: Uint8Array_of [band (sar v 24) 255; band (sar v 16) 255;
                                         band (sar v 8) 255; band v 255]).
    rewrite four_bytes_ladder.
    apply header_then_value_be. simpl. lia. }
  repeat split; intros; try lia.
  rewrite encode_uint64_eq by lia.
  rewrite Z.mod_small by lia.
  apply header_then_value_be. simpl. lia.
Qed.

(** Past 64 bits the stored value is reduced modulo 2^64. *)
Lemma encodePlutusInteger_wraps n :
  2 ^ 32 <= n ->
  TaskHash.encodePlutusInteger n = 0x1b :: be_bytes 8 (n mod 2 ^ 64).
Proof.
  intros Hn. unfold TaskHash.encodePlutusInteger.
  destruct (0 <=? n) eqn:H0; [| apply Z.leb_gt in H0; lia].
  destruct (n <=? 23) eqn:H1; [apply Z.leb_le in H1; lia |].
  destruct (n <=? 255) eqn:H2; [apply Z.leb_le in H2; lia |].
  destruct (n <=? 65535) eqn:H3; [apply Z.leb_le in H3; lia |].
  destruct (n <=? 4294967295) eqn:H4; [apply Z.leb_le in H4; lia |].
  apply encode_uint64_eq. lia.
Qed.

(** C4 (as amended).  For 0 <= n <= 23 the encoder returns the single
    byte n; for 24..255 the byte 0x18 and one byte; for 256..65535 the
    byte 0x19 and two big-endian bytes; up to 2^32-1 the byte 0x1a and
    four big-endian bytes; for 2^32 <= n < 2^64 the byte 0x1b and eight
    big-endian bytes holding n exactly; and for -2^53 <= n < 0 it encodes
    -1-n under major type 1 (headers 0x20+v, 0x38, 0x39, 0x3a, 0x3b) with
    the same width ladder. *)
Theorem encodePlutusInteger_spec (n : Z) :
  let enc := TaskHash.encodePlutusInteger n in
  (0 <= n <= 23 -> enc = [n]) /\
  (24 <= n <= 255 -> enc = [0x18; n]) /\
  (256 <= n <= 65535 -> header_then_value 0x19 2 n enc) /\
  (65536 <= n <= 2 ^ 32 - 1 -> header_then_value 0x1a 4 n enc) /\
  (2 ^ 32 <= n < 2 ^ 64 -> header_then_value 0x1b 8 n enc) /\
  (- 2 ^ 53 <= n < 0 ->
     let v := -1 - n in
     (v <= 23 -> enc = [0x20 + v]) /\
     (24 <= v <= 255 -> enc = [0x38; v]) /\
     (256 <= v <= 65535 -> header_then_value 0x39 2 v enc) /\
     (65536 <= v <= 2 ^ 32 - 1 -> header_then_value 0x3a 4 v enc) /\
     (2 ^ 32 <= v -> header_then_value 0x3b 8 v enc)).
Proof.
  intros enc. subst enc.
  assert (Hpos : 0 <= n < 2 ^ 64 -> ladder 0 n (TaskHash.encodePlutusInteger n))
    by apply encodePlutusInteger_nonneg.
  unfold ladder in Hpos.
  split; [intros H; apply (proj1 (Hpos ltac:(lia))); lia |].
  split; [intros H; apply (proj1 (proj2 (Hpos ltac:(lia)))); lia |].
  split; [intros H; apply (proj1 (proj2 (proj2 (Hpos ltac:(lia))))); lia |].
  split; [intros H; apply (proj1 (proj2 (proj2 (proj2 (Hpos ltac:(lia)))))); lia |].
  split; [intros H; apply (proj2 (proj2 (proj2 (proj2 (Hpos ltac:(lia)))))); lia |].
  intros Hneg v.
  pose proof (encodePlutusInteger_negative n Hneg) as Hl.
  unfold ladder in Hl. fold v in Hl.
  destruct Hl as (L1 & L2 & L3 & L4 & L5).
  repeat split; intros; auto.
  apply L5. unfold v. lia.
Qed.

(** The ladder at one value of every width, on both sides of zero. *)
Lemma encodePlutusInteger_spec_witness :
  TaskHash.encodePlutusInteger 23 = [23] /\
  TaskHash.encodePlutusInteger 24 = [0x18; 24] /\
  header_then_value 0x19 2 256 (TaskHash.encodePlutusInteger 256) /\
  header_then_value 0x1a 4 15000000 (TaskHash.encodePlutusInteger 15000000) /\
  header_then_value 0x1b 8 1769027280000 (TaskHash.encodePlutusInteger 1769027280000) /\
  TaskHash.encodePlutusInteger (-1) = [0x20] /\
  header_then_value 0x3b 8 (2 ^ 53 - 1) (TaskHash.encodePlutusInteger (- 2 ^ 53)).
Proof.
  destruct (encodePlutusInteger_spec 23) as (A & _).
  destruct (encodePlutusInteger_spec 24) as (_ & B & _).
  destruct (encodePlutusInteger_spec 256) as (_ & _ & C & _).
  destruct (encodePlutusInteger_spec 15000000) as (_ & _ & _ & D & _).
  destruct (encodePlutusInteger_spec 1769027280000) as (_ & _ & _ & _ & E & _).
  destruct (encodePlutusInteger_spec (-1)) as (_ & _ & _ & _ & _ & F).
  destruct (encodePlutusInteger_spec (- 2 ^ 53)) as (_ & _ & _ & _ & _ & G).
  destruct (F ltac:(lia)) as (F1 & _).
  destruct (G ltac:(lia)) as (_ & _ & _ & _ & G5).
  split; [apply A; lia |].
  split; [apply B; lia |].
  split; [apply C; lia |].
  split; [apply D; lia |].
  split; [apply E; lia |].
  split; [apply F1; lia | apply G5; lia].
Defined.

(** C4 as stated fails outside that range: 2^64 is stored as eight zero
    bytes, and for n = -(2^53+2) the subtraction -1-n is rounded to 2^53
    before it is stored. *)
Lemma encodePlutusInteger_not_exact :
  TaskHash.encodePlutusInteger (2 ^ 64) = [0x1b; 0; 0; 0; 0; 0; 0; 0; 0] /\
  ~ header_then_value 0x1b 8 (2 ^ 64) (TaskHash.encodePlutusInteger (2 ^ 64)) /\
  TaskHash.encodePlutusInteger (- (2 ^ 53 + 2)) = [0x3b; 0; 0x20; 0; 0; 0; 0; 0; 0] /\
  ~ header_then_value 0x3b 8 (-1 - - (2 ^ 53 + 2))
      (TaskHash.encodePlutusInteger (- (2 ^ 53 + 2))).
Proof.
  split; [vm_compute; reflexivity |].
  split.
  { intros (payload & Hout & _ & _ & Hval).
    vm_compute in Hout. injection Hout as Hp. subst payload.
    vm_compute in Hval. discriminate. }
  split; [vm_compute; reflexivity |].
  intros (payload & Hout & _ & _ & Hval).
  vm_compute in Hout. injection Hout as Hp. subst payload.
  vm_compute in Hval. discriminate.
Qed.

(* ===================================================================== *)
(** * Arrays of fields: the SLT list, the native assets, the task *)
(* ===================================================================== *)

Lemma for_of_items items : forall chunks,
  for_of items chunks
    (fun chunks item =>
       c <- SltHash.encodePlutusBuiltinByteString item ;; Ok (push chunks c))
  = Ok (chunks ++ map chunked_byte_string items).
Proof.
  induction items as [| item items IH]; intros chunks; cbn [for_of map].
  - rewrite app_nil_r. reflexivity.
  - rewrite encodePlutusBuiltinByteString_ok. cbn [bind].
    rewrite IH. unfold push. rewrite <- app_assoc. reflexivity.
Qed.

Lemma encodeAsPlutusArray_ok items :
  SltHash.encodeAsPlutusArray items
  = Ok ([0x9f] ++ concat (map chunked_byte_string items) ++ [0xff]).
Proof.
  unfold SltHash.encodeAsPlutusArray. rewrite for_of_items. cbn [bind].
  rewrite concatUint8Arrays_concat. unfold push.
  rewrite !concat_app. simpl. reflexivity.
Qed.

Lemma for_of_assets assets : forall chunks,
  for_of assets chunks
    (fun chunks (asset : TaskHash.NativeAsset) =>
       let (assetClass, quantity) := asset in
       let chunks := push chunks (Uint8Array_of [0x82]) in
       c <- TaskHash.encodePlutusBuiltinByteString (TextEncoder_encode assetClass) ;;
       let chunks := push chunks c in
       Ok (push chunks (TaskHash.encodePlutusInteger quantity)))
  = Ok (chunks ++ flat_map
                    (fun asset =>
                       [[0x82]; chunked_byte_string (TextEncoder_encode (fst asset));
                        TaskHash.encodePlutusInteger (snd asset)])
                    assets).
Proof.
  induction assets as [| [assetClass quantity] assets IH]; intros chunks;
    cbn [for_of flat_map].
  - rewrite app_nil_r. reflexivity.
  - rewrite encodePlutusBuiltinByteString_same, encodePlutusBuiltinByteString_ok.
    cbn [bind]. rewrite IH. unfold push. rewrite <- !app_assoc. reflexivity.
Qed.

Lemma concat_asset_chunks assets :
  concat (flat_map
            (fun asset : TaskHash.NativeAsset =>
               [[0x82]; chunked_byte_string (TextEncoder_encode (fst asset));
                TaskHash.encodePlutusInteger (snd asset)])
            assets)
  = flat_map asset_item assets.
Proof.
  induction assets as [| asset assets IH]; cbn [flat_map]; [reflexivity |].
  rewrite concat_app, IH. unfold asset_item. simpl.
  rewrite app_nil_r, <- app_assoc. reflexivity.
Qed.

Lemma encodeNativeAssets_ok assets :
  TaskHash.encodeNativeAssets assets = Ok (assets_field assets).
Proof.
  unfold TaskHash.encodeNativeAssets.
  destruct assets as [| asset assets]; [reflexivity |].
  change (length (asset :: assets) =? 0)%nat with false. cbv iota.
  rewrite for_of_assets. cbn [bind].
  rewrite concatUint8Arrays_same, concatUint8Arrays_concat. unfold push.
  rewrite !concat_app, concat_asset_chunks. simpl. reflexivity.
Qed.

Lemma encodeTaskAsPlutusData_ok task :
  TaskHash.encodeTaskAsPlutusData task = Ok (task_cbor task).
Proof.
  unfold TaskHash.encodeTaskAsPlutusData.
  rewrite encodePlutusBuiltinByteString_same, encodePlutusBuiltinByteString_ok.
  cbn [bind]. rewrite encodeNativeAssets_ok. cbn [bind].
  rewrite concatUint8Arrays_same, concatUint8Arrays_concat.
  unfold push, task_cbor. simpl. reflexivity.
Qed.

(** ** Integer-valued numbers *)

Lemma encodePlutusInteger_integer z :
  TaskHashOnNumbers.encodePlutusInteger (Integer z)
  = Ok (TaskHash.encodePlutusInteger z).
Proof.
  unfold TaskHashOnNumbers.encodePlutusInteger, TaskHash.encodePlutusInteger.
  cbn [ge_zero le_const integral const_sub const_add BigInt bind].
  unfold num_sub, num_add. cbv zeta.
  repeat match goal with
         | |- context [if ?c then _ else _] => destruct c
         end; reflexivity.
Qed.

Lemma for_of_map {A B S : Type} (f : A -> B) (body : S -> B -> result S)
  (body' : S -> A -> result S) :
  (forall st x, body st (f x) = body' st x) ->
  forall xs st, for_of (map f xs) st body = for_of xs st body'.
Proof.
  intros Hbody xs. induction xs as [| x xs IH]; intros st; [reflexivity |].
  cbn [map for_of]. rewrite Hbody.
  destruct (body' st x) as [st' | msg]; cbn [bind]; [apply IH | reflexivity].
Qed.

Lemma encodeNativeAssets_integer assets :
  TaskHashOnNumbers.encodeNativeAssets (map TaskHashOnNumbers.of_asset assets)
  = TaskHash.encodeNativeAssets assets.
Proof.
  unfold TaskHashOnNumbers.encodeNativeAssets, TaskHash.encodeNativeAssets.
  rewrite length_map. destruct (length assets =? 0)%nat; [reflexivity |].
  cbv zeta.
  rewrite (for_of_map TaskHashOnNumbers.of_asset _
             (fun chunks (asset : TaskHash.NativeAsset) =>
                let (assetClass, quantity) := asset in
                let chunks := push chunks (Uint8Array_of [0x82]) in
                c <- TaskHash.encodePlutusBuiltinByteString
                       (TextEncoder_encode assetClass) ;;
                let chunks := push chunks c in
                Ok (push chunks (TaskHash.encodePlutusInteger quantity)))).
  - reflexivity.
  - intros st [assetClass quantity]. unfold TaskHashOnNumbers.of_asset.
    cbn [fst snd]. cbv zeta.
    destruct (TaskHash.encodePlutusBuiltinByteString (TextEncoder_encode assetClass));
      cbn [bind]; [| reflexivity].
    rewrite encodePlutusInteger_integer. reflexivity.
Qed.

Lemma encodeTaskAsPlutusData_integer task :
  TaskHashOnNumbers.encodeTaskAsPlutusData (TaskHashOnNumbers.of_task task)
  = TaskHash.encodeTaskAsPlutusData task.
Proof.
  unfold TaskHashOnNumbers.encodeTaskAsPlutusData, TaskHash.encodeTaskAsPlutusData,
    TaskHashOnNumbers.of_task.
  cbn [TaskHashOnNumbers.project_content TaskHashOnNumbers.expiration_time
       TaskHashOnNumbers.lovelace_amount TaskHashOnNumbers.native_assets].
  cbv zeta.
  destruct (TaskHash.encodePlutusBuiltinByteString
              (TextEncoder_encode (TaskHash.project_content task)));
    cbn [bind]; [| reflexivity].
  rewrite !encodePlutusInteger_integer. cbn [bind].
  rewrite encodeNativeAssets_integer. reflexivity.
Qed.

Lemma computeTaskHash_integer task :
  TaskHashOnNumbers.computeTaskHash (TaskHashOnNumbers.of_task task)
  = TaskHash.computeTaskHash task.
Proof.
  unfold TaskHashOnNumbers.computeTaskHash, TaskHash.computeTaskHash.
  rewrite encodeTaskAsPlutusData_integer. reflexivity.
Qed.

Lemma debugTaskCBOR_integer task :
  TaskHashOnNumbers.debugTaskCBOR (TaskHashOnNumbers.of_task task)
  = TaskHash.debugTaskCBOR task.
Proof.
  unfold TaskHashOnNumbers.debugTaskCBOR, TaskHash.debugTaskCBOR.
  rewrite encodeTaskAsPlutusData_integer. reflexivity.
Qed.

Lemma verifyTaskHash_integer task expected :
  TaskHashOnNumbers.verifyTaskHash (TaskHashOnNumbers.of_task task) expected
  = TaskHash.verifyTaskHash task expected.
Proof.
  unfold TaskHashOnNumbers.verifyTaskHash, TaskHash.verifyTaskHash.
  rewrite computeTaskHash_integer. reflexivity.
Qed.

(** C1 (as amended).  For every task whose numeric fields are
    integer-valued the encoder emits the tag 0xd8 0x79, the start byte
    0x9f, the four fields in order (chunked byte string of the UTF-8
    content, expiration, lovelace amount, native assets) and the break
    0xff; a non-empty asset list is 0x9f, for every asset the bytes 0x82,
    the chunked byte string of its class and its quantity, then 0xff.
    computeTaskHash hashes these bytes and debugTaskCBOR prints them. *)
Theorem encodeTaskAsPlutusData_spec (task : TaskHash.TaskData) :
  let content := TextEncoder_encode (TaskHash.project_content task) in
  let assets := TaskHash.native_assets task in
  let integer z := TaskHash.encodePlutusInteger z in
  (forall z, TaskHashOnNumbers.encodePlutusInteger (Integer z) = Ok (integer z)) /\
  exists content_bs assets_bs,
    TaskHash.encodePlutusBuiltinByteString content = Ok content_bs /\
    content_bs = chunked_byte_string content /\
    TaskHashOnNumbers.encodeNativeAssets (map TaskHashOnNumbers.of_asset assets)
    = Ok assets_bs /\
    (assets = [] -> assets_bs = [0x80]) /\
    (assets <> [] ->
       assets_bs =
         [0x9f]
         ++ flat_map (fun asset =>
                        [0x82]
                        ++ chunked_byte_string (TextEncoder_encode (fst asset))
                        ++ integer (snd asset))
                     assets
         ++ [0xff]) /\
    let cbor :=
      [0xd8; 0x79] ++ [0x9f]
      ++ content_bs
      ++ integer (TaskHash.expiration_time task)
      ++ integer (TaskHash.lovelace_amount task)
      ++ assets_bs
      ++ [0xff] in
    TaskHashOnNumbers.encodeTaskAsPlutusData (TaskHashOnNumbers.of_task task)
    = Ok cbor /\
    TaskHashOnNumbers.computeTaskHash (TaskHashOnNumbers.of_task task)
    = Ok (Blake.blake2bHex32 cbor) /\
    TaskHashOnNumbers.debugTaskCBOR (TaskHashOnNumbers.of_task task)
    = Ok (flat_map hex_byte cbor).
Proof.
  intros content assets integer.
  split; [exact encodePlutusInteger_integer |].
  exists (chunked_byte_string content), (assets_field assets).
  split; [rewrite encodePlutusBuiltinByteString_same;
          apply encodePlutusBuiltinByteString_ok |].
  split; [reflexivity |].
  split; [rewrite encodeNativeAssets_integer; apply encodeNativeAssets_ok |].
  split; [intros ->; reflexivity |].
  split.
  { intros Hne. destruct assets as [| a l]; [contradiction | reflexivity]. }
  intros cbor.
  assert (Henc : TaskHash.encodeTaskAsPlutusData task = Ok cbor)
    by apply encodeTaskAsPlutusData_ok.
  rewrite computeTaskHash_integer, debugTaskCBOR_integer,
    encodeTaskAsPlutusData_integer.
  split; [exact Henc |].
  unfold TaskHash.computeTaskHash, TaskHash.debugTaskCBOR.
  rewrite Henc. split; reflexivity.
Qed.

(** A task with two native assets. *)
Lemma encodeTaskAsPlutusData_spec_witness :
  exists assets_bs,
    TaskHashOnNumbers.encodeNativeAssets
      [(js "abc.def", Integer 5); (js "x", Integer (-70000))] = Ok assets_bs /\
    assets_bs = [0x9f] ++ ([0x82] ++ ([0x47] ++ js "abc.def") ++ [5])
                       ++ ([0x82] ++ ([0x41] ++ js "x") ++ [0x3a; 0; 1; 0x11; 0x6f])
                       ++ [0xff].
Proof.
  destruct (encodeTaskAsPlutusData_spec
              (TaskHash.mkTaskData (js "Open Task #1") 1769027280000 15000000
                 [(js "abc.def", 5); (js "x", -70000)]))
    as (_ & content_bs & assets_bs & _ & _ & Hassets & _ & Hne & _).
  exists assets_bs. split; [exact Hassets |].
  rewrite Hne by discriminate. vm_compute. reflexivity.
Defined.

(** C1 as stated fails on numbers that are not integers: with the
    lovelace amount 4294967296.5 BigInt throws and no bytes are emitted,
    and so with NaN; the amount 1.5 is written as the integer 1. *)
Lemma encodeTaskAsPlutusData_not_every_number :
  TaskHashOnNumbers.encodeTaskAsPlutusData
    (TaskHashOnNumbers.mkTaskData (js "Open Task #1") (Integer 1769027280000)
       (Fraction 8589934593 1) [])
  = Throw "RangeError: the number cannot be converted to a BigInt because it is not an integer" /\
  TaskHashOnNumbers.encodeTaskAsPlutusData
    (TaskHashOnNumbers.mkTaskData (js "Open Task #1") (Integer 1769027280000) NaN [])
  = Throw "RangeError: the number cannot be converted to a BigInt because it is not an integer" /\
  TaskHashOnNumbers.encodePlutusInteger (Fraction 3 1) = Ok [1].
Proof. repeat split; vm_compute; reflexivity. Qed.

(** C3, on the code.  The native-asset list follows the rule (0x80 when
    empty, indefinite framing otherwise), and so does a non-empty SLT
    list; the empty SLT list is encoded as the empty indefinite array
    0x9f 0xff, not as 0x80. *)
Theorem encodeAsPlutusArray_empty_is_indefinite :
  SltHash.encodeAsPlutusArray [] = Ok [0x9f; 0xff] /\
  SltHash.encodeAsPlutusArray [] <> Ok [0x80] /\
  TaskHash.encodeNativeAssets [] = Ok [0x80] /\
  (forall asset assets,
     TaskHash.encodeNativeAssets (asset :: assets)
     = Ok ([0x9f] ++ flat_map asset_item (asset :: assets) ++ [0xff])) /\
  (forall items,
     SltHash.encodeAsPlutusArray items
     = Ok ([0x9f] ++ concat (map chunked_byte_string items) ++ [0xff])) /\
  SltHash.computeSltHash []
  = Ok (js "afc0da64183bf2664f3d4eec7238d524ba607faeeab24fc100eb861dba69971b") /\
  Blake.blake2bHex32 [0x80]
  = js "45b0cfc220ceec5b7c1c62c4d4193d38e4eba48e8815729ce75f9c0ab0e4c1c0".
Proof.
  split; [reflexivity |].
  split; [discriminate |].
  split; [reflexivity |].
  split; [intros asset assets; apply encodeNativeAssets_ok |].
  split; [apply encodeAsPlutusArray_ok |].
  split; vm_compute; reflexivity.
Qed.

(* ===================================================================== *)
(** * The digest and its comparison *)
(* ===================================================================== *)

Lemma hex_digit_lower d : 0 <= d < 16 -> is_lower_hex_unit (hex_digit d) = true.
Proof.
  intros Hd. unfold hex_digit, is_lower_hex_unit.
  destruct (d <? 10) eqn:E; [apply Z.ltb_lt in E | apply Z.ltb_ge in E].
  - apply orb_true_iff. left. apply andb_true_iff. split; apply Z.leb_le; lia.
  - apply orb_true_iff. right. apply andb_true_iff. split; apply Z.leb_le; lia.
Qed.

Lemma toHex_digest out :
  Forall (fun x => 0 <= x < 256) out ->
  length (Blake.toHex out) = (2 * length out)%nat /\
  forallb is_lower_hex_unit (Blake.toHex out) = true.
Proof.
  intros H. unfold Blake.toHex.
  induction H as [| x out Hx _ [IHlen IHhex]]; [split; reflexivity |].
  cbn [flat_map hex_byte app length forallb]. split.
  - rewrite IHlen. simpl. lia.
  - rewrite !hex_digit_lower, IHhex; [reflexivity | |].
    + apply Z.mod_pos_bound. lia.
    + split; [apply Z.div_pos; lia | apply Z.div_lt_upper_bound; lia].
Qed.

Lemma length_flat_map_const {A B : Type} (f : A -> list B) (n : nat) l :
  (forall x, length (f x) = n) -> length (flat_map f l) = (length l * n)%nat.
Proof.
  intros Hf. induction l as [| x l IH]; [reflexivity |].
  cbn [flat_map]. rewrite length_app, Hf, IH. simpl. lia.
Qed.

Lemma blake2bFinal_32 c :
  length (Blake.blake2bFinal 32 c) = 32%nat /\
  Forall (fun x => 0 <= x < 256) (Blake.blake2bFinal 32 c).
Proof.
  unfold Blake.blake2bFinal. split.
  - rewrite length_firstn.
    rewrite (length_flat_map_const _ 8)
      by (intros w; rewrite length_map, length_seq; reflexivity).
    unfold Blake.blake2bCompress. rewrite length_map, length_seq. reflexivity.
  - match goal with |- Forall _ (firstn 32 ?l) => set (all := l) end.
    assert (Hall : Forall (fun x => 0 <= x < 256) all).
    { apply Forall_forall. intros x Hx.
      apply in_flat_map in Hx. destruct Hx as (w & _ & Hx).
      apply in_map_iff in Hx. destruct Hx as (k & <- & _).
      apply Z.mod_pos_bound. lia. }
    rewrite <- (firstn_skipn 32 all) in Hall.
    apply Forall_app in Hall. exact (proj1 Hall).
Qed.

Lemma blake2bHex32_digest input : is_digest_hex (Blake.blake2bHex32 input).
Proof.
  unfold is_digest_hex, Blake.blake2bHex32.
  destruct (blake2bFinal_32 (Blake.blake2bUpdate (Blake.blake2bInit 32) input))
    as [Hlen Hrange].
  destruct (toHex_digest _ Hrange) as [Hl Hh].
  rewrite Hl, Hlen. split; [reflexivity | exact Hh].
Qed.

Lemma compute_hash_digest_aux :
  (forall slts : list jsstring,
     exists h, SltHash.computeSltHash slts = Ok h /\ is_digest_hex h) /\
  (forall task : TaskHash.TaskData,
     exists h, TaskHash.computeTaskHash task = Ok h /\ is_digest_hex h) /\
  (forall (number : Type) (Number_toJSON : number -> jsstring)
          (evidence : value number),
     is_digest_hex (CommitmentHash.computeCommitmentHash Number_toJSON evidence)).
Proof.
  split; [| split].
  - intros slts. unfold SltHash.computeSltHash.
    rewrite encodeAsPlutusArray_ok. cbn [bind].
    eexists. split; [reflexivity | apply blake2bHex32_digest].
  - intros task. unfold TaskHash.computeTaskHash.
    rewrite encodeTaskAsPlutusData_ok. cbn [bind].
    eexists. split; [reflexivity | apply blake2bHex32_digest].
  - intros number Number_toJSON evidence.
    unfold CommitmentHash.computeCommitmentHash. apply blake2bHex32_digest.
Qed.

Lemma Ok_injective {A : Type} (a b : A) : Ok a = Ok b -> a = b.
Proof. intros H. injection H as H. exact H. Qed.

(** C9 (as amended).  For every list of strings, every task whose
    numeric fields are integer-valued and every evidence, the three
    pipelines return, without throwing, 64 lowercase hexadecimal
    characters; on a task with other numbers computeTaskHash returns such
    a string whenever it returns.  The chunked encoder they go through
    never throws, every slice it hands to the definite encoder having at
    most 64 bytes. *)
Theorem compute_hash_is_digest :
  (forall slts : list jsstring,
     exists h, SltHash.computeSltHash slts = Ok h /\ is_digest_hex h) /\
  (forall task : TaskHash.TaskData,
     exists h,
       TaskHashOnNumbers.computeTaskHash (TaskHashOnNumbers.of_task task) = Ok h /\
       is_digest_hex h) /\
  (forall (task : TaskHashOnNumbers.TaskData) (h : jsstring),
     TaskHashOnNumbers.computeTaskHash task = Ok h -> is_digest_hex h) /\
  (forall (number : Type) (Number_toJSON : number -> jsstring)
          (evidence : value number),
     is_digest_hex (CommitmentHash.computeCommitmentHash Number_toJSON evidence)) /\
  (forall b : bytes,
     exists out,
       SltHash.encodePlutusBuiltinByteString b = Ok out /\
       TaskHash.encodePlutusBuiltinByteString b = Ok out) /\
  (forall (b : bytes) (k : nat),
     (length (slice64 b k) <= 64)%nat /\
     exists out, SltHash.encodeCBORByteString (slice64 b k) = Ok out).
Proof.
  destruct compute_hash_digest_aux as (Hslt & Htask & Hcommit).
  split; [exact Hslt |].
  split; [intros task; rewrite computeTaskHash_integer; apply Htask |].
  split.
  { intros task h. unfold TaskHashOnNumbers.computeTaskHash.
    destruct (TaskHashOnNumbers.encodeTaskAsPlutusData task) as [cbor | msg];
      cbn [bind]; [| discriminate].
    intros H. apply Ok_injective in H. subst h. apply blake2bHex32_digest. }
  split; [exact Hcommit | split].
  - intros b. exists (chunked_byte_string b).
    rewrite encodePlutusBuiltinByteString_same.
    split; apply encodePlutusBuiltinByteString_ok.
  - intros b k. pose proof (length_slice64 b k) as Hk.
    split; [exact Hk |].
    eexists. apply encodeCBORByteString_ok. lia.
Qed.

(** The amount 1.5, which is written as 1. *)
Lemma compute_hash_is_digest_witness :
  is_digest_hex
    (Blake.blake2bHex32 [0xd8; 0x79; 0x9f; 0x41; 97; 0; 1; 0x80; 0xff]).
Proof.
  apply (proj1 (proj2 (proj2 compute_hash_is_digest))
           (TaskHashOnNumbers.mkTaskData (js "a") (Integer 0) (Fraction 3 1) [])).
  unfold TaskHashOnNumbers.computeTaskHash.
  change (TaskHashOnNumbers.encodeTaskAsPlutusData
            (TaskHashOnNumbers.mkTaskData (js "a") (Integer 0) (Fraction 3 1) []))
    with (Ok [0xd8; 0x79; 0x9f; 0x41; 97; 0; 1; 0x80; 0xff] : result bytes).
  reflexivity.
Defined.

(** C9 as stated fails: computeTaskHash throws on a task whose lovelace
    amount is NaN or infinite, or whose expiration is 4294967296.5, or
    with such a quantity of a native asset. *)
Lemma computeTaskHash_throws :
  TaskHashOnNumbers.computeTaskHash
    (TaskHashOnNumbers.mkTaskData (js "Open Task #1") (Integer 1769027280000) NaN [])
  = Throw "RangeError: the number cannot be converted to a BigInt because it is not an integer" /\
  TaskHashOnNumbers.computeTaskHash
    (TaskHashOnNumbers.mkTaskData (js "Open Task #1") (Integer 1769027280000)
       (Infinity false) [])
  = Throw "RangeError: the number cannot be converted to a BigInt because it is not an integer" /\
  TaskHashOnNumbers.computeTaskHash
    (TaskHashOnNumbers.mkTaskData (js "Open Task #1") (Fraction 8589934593 1)
       (Integer 15000000) [])
  = Throw "RangeError: the number cannot be converted to a BigInt because it is not an integer" /\
  TaskHashOnNumbers.computeTaskHash
    (TaskHashOnNumbers.mkTaskData (js "Open Task #1") (Integer 1769027280000)
       (Integer 15000000) [(js "a.b", Infinity true)])
  = Throw "RangeError: the number cannot be converted to a BigInt because it is not an integer".
Proof. repeat split; vm_compute; reflexivity. Qed.

(** C10. The documented reference value of the three-target example. *)
Theorem computeSltHash_known_vector :
  SltHash.computeSltHash
    [js "I can set up a Typescript development environment.";
     js "I can use Github CLI to create an issue.";
     js "I can run the Andamio T3 App Template locally."]
  = Ok (js "eff7d90a6ed2eaf32b523efb25d95f748166158bcce048717a4920478be052cf").
Proof. vm_compute. reflexivity. Qed.

Lemma string_eqb_true a b : string_eqb a b = true <-> a = b.
Proof.
  unfold string_eqb. destruct (list_eq_dec Z.eq_dec a b); split; intros H;
    try reflexivity; try assumption; try discriminate; contradiction.
Qed.

Lemma string_eqb_refl a : string_eqb a a = true.
Proof. apply string_eqb_true. reflexivity. Qed.

Lemma lower_unit_digest c : is_lower_hex_unit c = true -> lower_unit c = c.
Proof.
  unfold is_lower_hex_unit, lower_unit. intros H.
  destruct ((65 <=? c) && (c <=? 90)) eqn:E; [| reflexivity].
  apply andb_true_iff in E. destruct E as [E1 E2].
  apply Z.leb_le in E1. apply Z.leb_le in E2.
  apply orb_true_iff in H. destruct H as [H | H];
    apply andb_true_iff in H; destruct H as [H1 H2];
    apply Z.leb_le in H1; apply Z.leb_le in H2; lia.
Qed.

Lemma toLowerCase_digest h : is_digest_hex h -> toLowerCase h = h.
Proof.
  intros [_ Hhex]. unfold toLowerCase.
  induction h as [| c h IH]; [reflexivity |].
  cbn [forallb] in Hhex. apply andb_true_iff in Hhex. destruct Hhex as [Hc Hh].
  cbn [map]. rewrite lower_unit_digest by exact Hc. rewrite IH by exact Hh.
  reflexivity.
Qed.

Lemma toLowerCase_replace_at i c s :
  toLowerCase (replace_at i c s) = replace_at i (lower_unit c) (toLowerCase s).
Proof.
  unfold toLowerCase, replace_at.
  rewrite map_app. cbn [map]. rewrite firstn_map, skipn_map. reflexivity.
Qed.

Lemma replace_at_same i c (s : jsstring) :
  (i < length s)%nat -> (replace_at i c s = s <-> c = nth i s 0).
Proof.
  revert i. induction s as [| x s IH]; intros i Hi; [simpl in Hi; lia |].
  destruct i as [| i]; unfold replace_at in *; cbn [firstn skipn app nth].
  - split; intros H; [injection H as H; exact H | subst; reflexivity].
  - simpl in Hi. specialize (IH i ltac:(lia)). cbn [skipn] in IH.
    split; intros H.
    + injection H as H. apply IH. exact H.
    + f_equal. apply IH. exact H.
Qed.

(** What the comparison of the verify functions returns when one
    character of the digest has been replaced. *)
Lemma compare_with_changed_digest h i c :
  is_digest_hex h -> (i < 64)%nat ->
  string_eqb (toLowerCase h) (toLowerCase (replace_at i c h))
  = (lower_unit c =? nth i h 0).
Proof.
  intros Hd Hi. rewrite toLowerCase_replace_at, toLowerCase_digest by exact Hd.
  destruct Hd as [Hlen _].
  pose proof (replace_at_same i (lower_unit c) h ltac:(lia)) as Hsame.
  destruct (lower_unit c =? nth i h 0) eqn:E.
  - apply Z.eqb_eq in E. apply string_eqb_true. symmetry. apply Hsame. exact E.
  - apply Z.eqb_neq in E.
    destruct (string_eqb h (replace_at i (lower_unit c) h)) eqn:E2; [| reflexivity].
    apply string_eqb_true in E2. symmetry in E2. apply Hsame in E2. contradiction.
Qed.

(** C8 (as amended).  A hash verifies against its own input.  A string
    obtained from it by changing one character is rejected unless the
    new character has the old one as its lower-case form: the comparison
    lower-cases both sides, so a letter a-f replaced by A-F still
    verifies. *)
Theorem verify_roundtrip_and_change :
  (forall slts : list jsstring,
     exists h, SltHash.computeSltHash slts = Ok h /\
       SltHash.verifySltHash slts h = Ok true /\
       (forall i c, (i < 64)%nat -> lower_unit c <> nth i h 0 ->
          SltHash.verifySltHash slts (replace_at i c h) = Ok false) /\
       (forall i c, (i < 64)%nat -> lower_unit c = nth i h 0 ->
          SltHash.verifySltHash slts (replace_at i c h) = Ok true)) /\
  (forall task : TaskHash.TaskData,
     exists h, TaskHash.computeTaskHash task = Ok h /\
       TaskHash.verifyTaskHash task h = Ok true /\
       (forall i c, (i < 64)%nat -> lower_unit c <> nth i h 0 ->
          TaskHash.verifyTaskHash task (replace_at i c h) = Ok false) /\
       (forall i c, (i < 64)%nat -> lower_unit c = nth i h 0 ->
          TaskHash.verifyTaskHash task (replace_at i c h) = Ok true)) /\
  (forall (number : Type) (Number_toJSON : number -> jsstring)
          (evidence : value number),
     let h := CommitmentHash.computeCommitmentHash Number_toJSON evidence in
     CommitmentHash.verifyCommitmentHash Number_toJSON evidence h = true /\
     (forall i c, (i < 64)%nat -> lower_unit c <> nth i h 0 ->
        CommitmentHash.verifyCommitmentHash Number_toJSON evidence (replace_at i c h)
        = false) /\
     (forall i c, (i < 64)%nat -> lower_unit c = nth i h 0 ->
        CommitmentHash.verifyCommitmentHash Number_toJSON evidence (replace_at i c h)
        = true)) /\
  (forall c x : Z,
     is_lower_hex_unit x = true ->
     (lower_unit c = x <-> c = x \/ (97 <= x <= 102 /\ c = x - 32))).
Proof.
  destruct compute_hash_digest_aux as (Hslt & Htask & Hcommit).
  split; [| split; [| split]].
  - intros slts. destruct (Hslt slts) as (h & Hh & Hd).
    exists h. split; [exact Hh |]. unfold SltHash.verifySltHash.
    rewrite Hh. cbn [bind]. split; [rewrite string_eqb_refl; reflexivity |].
    split; intros i c Hi Hc; rewrite compare_with_changed_digest by assumption;
      f_equal; [apply Z.eqb_neq | apply Z.eqb_eq]; exact Hc.
  - intros task. destruct (Htask task) as (h & Hh & Hd).
    exists h. split; [exact Hh |]. unfold TaskHash.verifyTaskHash.
    rewrite Hh. cbn [bind]. split; [rewrite string_eqb_refl; reflexivity |].
    split; intros i c Hi Hc; rewrite compare_with_changed_digest by assumption;
      f_equal; [apply Z.eqb_neq | apply Z.eqb_eq]; exact Hc.
  - intros number Number_toJSON evidence h.
    unfold CommitmentHash.verifyCommitmentHash. fold h.
    split; [apply string_eqb_refl |].
    split; intros i c Hi Hc;
      rewrite compare_with_changed_digest by (try apply Hcommit; assumption);
      [apply Z.eqb_neq | apply Z.eqb_eq]; exact Hc.
  - intros c x Hx. unfold is_lower_hex_unit in Hx. unfold lower_unit.
    apply orb_true_iff in Hx.
    destruct ((65 <=? c) && (c <=? 90)) eqn:E.
    + apply andb_true_iff in E. destruct E as [E1 E2].
      apply Z.leb_le in E1. apply Z.leb_le in E2.
      destruct Hx as [Hx | Hx]; apply andb_true_iff in Hx; destruct Hx as [H1 H2];
        apply Z.leb_le in H1; apply Z.leb_le in H2; lia.
    + apply andb_false_iff in E.
      destruct Hx as [Hx | Hx]; apply andb_true_iff in Hx; destruct Hx as [H1 H2];
        apply Z.leb_le in H1; apply Z.leb_le in H2;
        destruct E as [E | E]; apply Z.leb_gt in E; lia.
Qed.

(** The reference example: its hash verifies, and the hash with its
    first character replaced by f does not. *)
Lemma verify_roundtrip_and_change_witness :
  let slts := [js "I can set up a Typescript development environment.";
               js "I can use Github CLI to create an issue.";
               js "I can run the Andamio T3 App Template locally."] in
  exists h, SltHash.computeSltHash slts = Ok h /\
    SltHash.verifySltHash slts h = Ok true /\
    SltHash.verifySltHash slts (replace_at 0 102 h) = Ok false.
Proof.
  intros slts.
  destruct (proj1 verify_roundtrip_and_change slts)
    as (h & Hh & Hself & Hreject & _).
  exists h. split; [exact Hh |]. split; [exact Hself |].
  apply Hreject; [lia |].
  assert (Hk : SltHash.computeSltHash slts
               = Ok (js "eff7d90a6ed2eaf32b523efb25d95f748166158bcce048717a4920478be052cf"))
    by (vm_compute; reflexivity).
  rewrite Hh in Hk. injection Hk as Hk. subst h. vm_compute. discriminate.
Defined.

(** C8 as stated fails: the hash of the reference example starts with
    the letter e; with that character changed to E the string differs
    from the hash and still verifies. *)
Lemma verify_accepts_case_change :
  let slts := [js "I can set up a Typescript development environment.";
               js "I can use Github CLI to create an issue.";
               js "I can run the Andamio T3 App Template locally."] in
  exists h, SltHash.computeSltHash slts = Ok h /\
    nth 0 h 0 = 101 /\
    replace_at 0 69 h
    = js "Eff7d90a6ed2eaf32b523efb25d95f748166158bcce048717a4920478be052cf" /\
    replace_at 0 69 h <> h /\
    SltHash.verifySltHash slts (replace_at 0 69 h) = Ok true.
Proof.
  intros slts.
  exists (js "eff7d90a6ed2eaf32b523efb25d95f748166158bcce048717a4920478be052cf").
  split; [vm_compute; reflexivity |].
  split; [reflexivity |].
  split; [reflexivity |].
  split; [vm_compute; discriminate | vm_compute; reflexivity].
Qed.

(* ===================================================================== *)
(** * Order of keys *)
(* ===================================================================== *)

Ltac zcompare x y :=
  let E := fresh "E" in
  destruct (x <? y) eqn:E; [apply Z.ltb_lt in E | apply Z.ltb_ge in E].

Lemma key_leb_total a : forall b, key_leb a b = false -> key_leb b a = true.
Proof.
  induction a as [| x a IH]; intros [| y b]; cbn [key_leb];
    try discriminate; try reflexivity.
  zcompare x y; zcompare y x; intros H; try discriminate; try reflexivity.
  apply IH. exact H.
Qed.

Lemma key_leb_antisym a : forall b,
  key_leb a b = true -> key_leb b a = true -> a = b.
Proof.
  induction a as [| x a IH]; intros [| y b]; cbn [key_leb];
    try discriminate; try reflexivity.
  zcompare x y; zcompare y x; intros H1 H2; try discriminate; try lia.
  assert (x = y) by lia. subst y. f_equal. apply IH; assumption.
Qed.

Lemma key_leb_trans a : forall b c,
  key_leb a b = true -> key_leb b c = true -> key_leb a c = true.
Proof.
  induction a as [| x a IH]; intros [| y b] [| z c]; cbn [key_leb];
    try discriminate; try reflexivity.
  zcompare x y; zcompare y x; zcompare y z; zcompare z y; zcompare x z;
    zcompare z x; intros H1 H2; try discriminate; try reflexivity; try lia.
  eapply IH; eassumption.
Qed.

Lemma key_lt_irrefl a : ~ key_lt a a.
Proof. intros [_ H]. apply H. reflexivity. Qed.

Lemma key_lt_asym a b : key_lt a b -> key_lt b a -> False.
Proof.
  intros [H1 Hne] [H2 _]. apply Hne. apply key_leb_antisym; assumption.
Qed.

(** ** Sorting *)

Lemma In_sort_insert k x sorted : In k (sort_insert x sorted) <-> k = x \/ In k sorted.
Proof.
  induction sorted as [| y sorted IH]; cbn [sort_insert].
  - simpl. intuition congruence.
  - destruct (key_leb x y); cbn [In]; [intuition congruence |].
    rewrite IH. intuition congruence.
Qed.

Lemma In_Array_sort k keys : In k (Array_sort keys) <-> In k keys.
Proof.
  induction keys as [| x keys IH]; [reflexivity |].
  cbn [Array_sort fold_right]. fold (Array_sort keys).
  rewrite In_sort_insert, IH. simpl. intuition congruence.
Qed.

Lemma sort_insert_sorted x sorted :
  StronglySorted key_le sorted -> StronglySorted key_le (sort_insert x sorted).
Proof.
  induction sorted as [| y sorted IH]; intros Hs; cbn [sort_insert].
  - constructor; constructor.
  - apply StronglySorted_inv in Hs. destruct Hs as [Hs Hall].
    destruct (key_leb x y) eqn:E.
    + constructor; [constructor; assumption |].
      constructor; [exact E |].
      rewrite Forall_forall in *. intros z Hz.
      eapply key_leb_trans; [exact E | apply Hall; exact Hz].
    + constructor; [apply IH; exact Hs |].
      rewrite Forall_forall in *. intros z Hz.
      apply In_sort_insert in Hz. destruct Hz as [-> | Hz].
      * apply key_leb_total. exact E.
      * apply Hall. exact Hz.
Qed.

Lemma Array_sort_sorted keys : StronglySorted key_le (Array_sort keys).
Proof.
  induction keys as [| x keys IH]; [constructor |].
  cbn [Array_sort fold_right]. apply sort_insert_sorted. exact IH.
Qed.

(** ** Array indices are canonical: one key per value *)

Lemma digits_fold rest : forall acc,
  fold_left (fun a c => a * 10 + (c - 48)) rest acc
  = acc * 10 ^ Z.of_nat (length rest) + digits_value rest.
Proof.
  unfold digits_value.
  induction rest as [| c rest IH]; intros acc.
  - simpl. lia.
  - cbn [fold_left length]. rewrite IH. rewrite (IH (0 * 10 + (c - 48))).
    rewrite Nat2Z.inj_succ, Z.pow_succ_r by lia. ring.
Qed.

Lemma digits_value_cons c rest :
  digits_value (c :: rest) = (c - 48) * 10 ^ Z.of_nat (length rest) + digits_value rest.
Proof.
  unfold digits_value at 1. cbn [fold_left]. rewrite digits_fold. ring.
Qed.

Lemma digits_value_bound k :
  forallb is_digit k = true -> 0 <= digits_value k < 10 ^ Z.of_nat (length k).
Proof.
  induction k as [| c k IH]; intros Hd.
  - unfold digits_value. simpl. lia.
  - cbn [forallb] in Hd. apply andb_true_iff in Hd. destruct Hd as [Hc Hk].
    unfold is_digit in Hc. apply andb_true_iff in Hc. destruct Hc as [Hc1 Hc2].
    apply Z.leb_le in Hc1. apply Z.leb_le in Hc2.
    specialize (IH Hk). rewrite digits_value_cons.
    cbn [length]. rewrite Nat2Z.inj_succ, Z.pow_succ_r by lia.
    nia.
Qed.

Lemma digits_same_length k1 : forall k2,
  forallb is_digit k1 = true -> forallb is_digit k2 = true ->
  length k1 = length k2 -> digits_value k1 = digits_value k2 -> k1 = k2.
Proof.
  induction k1 as [| c1 k1 IH]; intros [| c2 k2] H1 H2 Hlen Hval;
    try discriminate; [reflexivity |].
  cbn [forallb] in H1, H2.
  apply andb_true_iff in H1. destruct H1 as [Hc1 H1].
  apply andb_true_iff in H2. destruct H2 as [Hc2 H2].
  injection Hlen as Hlen.
  rewrite !digits_value_cons, Hlen in Hval.
  pose proof (digits_value_bound k1 H1) as B1.
  pose proof (digits_value_bound k2 H2) as B2.
  rewrite Hlen in B1.
  assert (Hc : c1 = c2) by nia. subst c2.
  f_equal. apply IH; try assumption. lia.
Qed.

Lemma digits_lower_bound c rest :
  forallb is_digit (c :: rest) = true -> c <> 48 ->
  10 ^ Z.of_nat (length rest) <= digits_value (c :: rest).
Proof.
  intros Hd Hc. cbn [forallb] in Hd.
  apply andb_true_iff in Hd. destruct Hd as [Hc0 Hrest].
  unfold is_digit in Hc0. apply andb_true_iff in Hc0. destruct Hc0 as [Hc1 Hc2].
  apply Z.leb_le in Hc1. apply Z.leb_le in Hc2.
  pose proof (digits_value_bound rest Hrest) as B.
  rewrite digits_value_cons. nia.
Qed.

Lemma array_index_canonical k n :
  array_index k = Some n ->
  exists c rest, k = c :: rest /\ forallb is_digit k = true /\
    (c <> 48 \/ rest = []) /\ n = digits_value k.
Proof.
  unfold array_index. destruct k as [| c rest]; [discriminate |].
  destruct (forallb is_digit (c :: rest)) eqn:Hd; [| discriminate].
  destruct (negb (c =? 48) || (length rest =? 0)%nat) eqn:Hz; [| discriminate].
  destruct (digits_value (c :: rest) <=? 4294967294); [| discriminate].
  cbn [andb]. intros H. injection H as <-.
  exists c, rest. split; [reflexivity |]. split; [reflexivity |].
  split; [| reflexivity].
  apply orb_true_iff in Hz. destruct Hz as [Hz | Hz].
  - left. apply negb_true_iff, Z.eqb_neq in Hz. exact Hz.
  - right. apply Nat.eqb_eq in Hz. destruct rest; [reflexivity | discriminate].
Qed.

Lemma pow10_mono a b : (a <= b)%nat -> 10 ^ Z.of_nat a <= 10 ^ Z.of_nat b.
Proof. intros H. apply Z.pow_le_mono_r; lia. Qed.

Lemma canonical_shorter c1 rest1 c2 rest2 :
  forallb is_digit (c1 :: rest1) = true -> forallb is_digit (c2 :: rest2) = true ->
  (c2 <> 48 \/ rest2 = []) ->
  (length rest1 < length rest2)%nat ->
  digits_value (c1 :: rest1) < digits_value (c2 :: rest2).
Proof.
  intros H1 H2 Hc Hlen.
  destruct Hc as [Hc | ->]; [| simpl in Hlen; lia].
  pose proof (digits_value_bound _ H1) as B1.
  pose proof (digits_lower_bound _ _ H2 Hc) as B2.
  cbn [length] in B1.
  pose proof (pow10_mono (S (length rest1)) (length rest2) ltac:(lia)).
  lia.
Qed.

Lemma array_index_inj k1 k2 n :
  array_index k1 = Some n -> array_index k2 = Some n -> k1 = k2.
Proof.
  intros H1 H2.
  apply array_index_canonical in H1. destruct H1 as (c1 & r1 & -> & D1 & Z1 & V1).
  apply array_index_canonical in H2. destruct H2 as (c2 & r2 & -> & D2 & Z2 & V2).
  destruct (lt_eq_lt_dec (length r1) (length r2)) as [[Hlt | Heq] | Hgt].
  - pose proof (canonical_shorter c1 r1 c2 r2 D1 D2 Z2 Hlt). lia.
  - apply digits_same_length; try assumption; [simpl; lia | lia].
  - pose proof (canonical_shorter c2 r2 c1 r1 D2 D1 Z1 Hgt). lia.
Qed.

Lemma enum_lt_irrefl a : ~ enum_lt a a.
Proof.
  unfold enum_lt. destruct (array_index a); [lia | apply key_lt_irrefl].
Qed.

Lemma enum_lt_asym a b : enum_lt a b -> enum_lt b a -> False.
Proof.
  unfold enum_lt. destruct (array_index a), (array_index b); try tauto; try lia.
  apply key_lt_asym.
Qed.

Lemma enum_lt_trans a b c : enum_lt a b -> enum_lt b c -> enum_lt a c.
Proof.
  unfold enum_lt.
  destruct (array_index a), (array_index b), (array_index c);
    try tauto; try lia.
  intros [H1 N1] [H2 N2]. split.
  - eapply key_leb_trans; eassumption.
  - intros ->. apply N1. apply key_leb_antisym; assumption.
Qed.

(* ===================================================================== *)
(** * Ordinary objects *)
(* ===================================================================== *)

Section Objects.

Context {number : Type}.

Implicit Types (o : list (jsstring * value number)) (v : value number).
Implicit Types (k key : jsstring).

(** Induction on values, with the hypothesis for every array element
    and every property value. *)
Section ValueInduction.

Variable P : value number -> Prop.
Hypothesis HNull : P VNull.
Hypothesis HUndefined : P VUndefined.
Hypothesis HBool : forall b, P (VBool b).
Hypothesis HNumber : forall n, P (VNumber n).
Hypothesis HString : forall s, P (VString s).
Hypothesis HArray : forall items, Forall P items -> P (VArray items).
Hypothesis HObject :
  forall members, Forall (fun kv => P (snd kv)) members -> P (VObject members).

Fixpoint value_induction (x : value number) : P x :=
  match x with
  | VNull => HNull
  | VUndefined => HUndefined
  | VBool b => HBool b
  | VNumber n => HNumber n
  | VString s => HString s
  | VArray items =>
      HArray items
        ((fix all (l : list (value number)) : Forall P l :=
            match l with
            | [] => Forall_nil P
            | y :: rest => Forall_cons y (value_induction y) (all rest)
            end) items)
  | VObject members =>
      HObject members
        ((fix all (l : list (jsstring * value number))
            : Forall (fun kv => P (snd kv)) l :=
            match l with
            | [] => Forall_nil _
            | (k, y) :: rest =>
                Forall_cons (P := fun kv => P (snd kv)) (k, y)
                  (value_induction y) (all rest)
            end) members)
  end.

End ValueInduction.

(** ** Lookup *)

Lemma string_eqb_false a b : string_eqb a b = false <-> a <> b.
Proof.
  unfold string_eqb. destruct (list_eq_dec Z.eq_dec a b); split; intros H;
    try reflexivity; try assumption; try discriminate; contradiction.
Qed.

Lemma get_own_In {V : Type} (l : list (jsstring * V)) k x :
  get_own l k = Some x -> In (k, x) l.
Proof.
  induction l as [| [k0 x0] l IH]; cbn [get_own]; [discriminate |].
  destruct (string_eqb k0 k) eqn:E.
  - apply string_eqb_true in E. subst k0. intros H. injection H as ->. left. reflexivity.
  - intros H. right. apply IH. exact H.
Qed.

Lemma get_own_None {V : Type} (l : list (jsstring * V)) k :
  get_own l k = None <-> ~ In k (map fst l).
Proof.
  induction l as [| [k0 x0] l IH]; cbn [get_own map In fst]; [tauto |].
  destruct (string_eqb k0 k) eqn:E.
  - apply string_eqb_true in E. split; [discriminate | intros H; exfalso; auto].
  - apply string_eqb_false in E. rewrite IH. tauto.
Qed.

Lemma get_own_Some_key {V : Type} (l : list (jsstring * V)) k x :
  get_own l k = Some x -> In k (map fst l).
Proof.
  intros H. apply get_own_In in H. apply (in_map fst) in H. exact H.
Qed.

Lemma get_own_NoDup {V : Type} (l : list (jsstring * V)) k x :
  NoDup (map fst l) -> In (k, x) l -> get_own l k = Some x.
Proof.
  induction l as [| [k0 x0] l IH]; cbn [get_own map In fst]; [tauto |].
  intros Hnd [Heq | Hin].
  - injection Heq as -> ->. rewrite string_eqb_refl. reflexivity.
  - apply NoDup_cons_iff in Hnd. destruct Hnd as [Hk0 Hnd].
    destruct (string_eqb k0 k) eqn:E.
    + apply string_eqb_true in E. subst k0. exfalso. apply Hk0.
      apply (in_map fst) in Hin. exact Hin.
    + apply IH; assumption.
Qed.

Lemma get_own_map {V W : Type} (f : V -> W) (l : list (jsstring * V)) k :
  get_own (map (fun kv : jsstring * V => let (k0, x) := kv in (k0, f x)) l) k
  = option_map f (get_own l k).
Proof.
  induction l as [| [k0 x0] l IH]; cbn [get_own map]; [reflexivity |].
  destruct (string_eqb k0 k); [reflexivity | exact IH].
Qed.

Lemma has_own_true o k : has_own o k = true <-> In k (Object_keys o).
Proof.
  unfold has_own, Object_keys. destruct (get_own o k) eqn:E.
  - split; [intros _; eapply get_own_Some_key; exact E | reflexivity].
  - apply get_own_None in E. split; [discriminate | contradiction].
Qed.

(** ** Assignment to a property *)

Lemma keys_update_own o k v : Object_keys (update_own o k v) = Object_keys o.
Proof.
  unfold Object_keys.
  induction o as [| [k0 x0] o IH]; cbn [update_own map fst]; [reflexivity |].
  destruct (string_eqb k0 k); cbn [map fst]; [reflexivity | rewrite IH; reflexivity].
Qed.

Lemma get_own_update_own o k v k' :
  In k (Object_keys o) ->
  get_own (update_own o k v) k' = if string_eqb k k' then Some v else get_own o k'.
Proof.
  unfold Object_keys.
  induction o as [| [k0 x0] o IH]; cbn [update_own map fst In]; [tauto |].
  intros Hin. destruct (string_eqb k0 k) eqn:E.
  - apply string_eqb_true in E. subst k0. cbn [get_own].
    destruct (string_eqb k k'); reflexivity.
  - cbn [get_own]. apply string_eqb_false in E.
    destruct Hin as [Heq | Hin]; [contradiction |].
    rewrite IH by exact Hin.
    destruct (string_eqb k0 k') eqn:E0; [| reflexivity].
    apply string_eqb_true in E0. subst k'.
    apply not_eq_sym, string_eqb_false in E. rewrite E. reflexivity.
Qed.

Lemma get_own_insert_index o k n v k' :
  ~ In k (Object_keys o) ->
  get_own (insert_index o k n v) k' = if string_eqb k k' then Some v else get_own o k'.
Proof.
  unfold Object_keys.
  induction o as [| [k0 x0] o IH]; cbn [insert_index map fst In]; intros Hnin.
  - reflexivity.
  - destruct (array_index k0) as [m |]; [destruct (n <? m) |]; try reflexivity.
    cbn [get_own]. rewrite IH by tauto.
    destruct (string_eqb k0 k') eqn:E0; [| reflexivity].
    apply string_eqb_true in E0. subst k'.
    assert (Hne : k <> k0) by (intros ->; tauto).
    apply string_eqb_false in Hne. rewrite Hne. reflexivity.
Qed.

Lemma keys_insert_index o k n v k' :
  In k' (Object_keys (insert_index o k n v)) <-> k' = k \/ In k' (Object_keys o).
Proof.
  unfold Object_keys.
  induction o as [| [k0 x0] o IH]; cbn [insert_index map fst In].
  - intuition congruence.
  - destruct (array_index k0) as [m |]; [destruct (n <? m) |];
      cbn [map fst In]; try rewrite IH; intuition congruence.
Qed.

Lemma get_own_app_single o k v k' :
  ~ In k (Object_keys o) ->
  get_own (o ++ [(k, v)]) k' = if string_eqb k k' then Some v else get_own o k'.
Proof.
  unfold Object_keys.
  induction o as [| [k0 x0] o IH]; cbn [app get_own map fst In]; intros Hnin.
  - reflexivity.
  - rewrite IH by tauto.
    destruct (string_eqb k0 k') eqn:E0; [| reflexivity].
    apply string_eqb_true in E0. subst k'.
    assert (Hne : k <> k0) by (intros ->; tauto).
    apply string_eqb_false in Hne. rewrite Hne. reflexivity.
Qed.

Lemma get_own_obj_set o k v k' :
  get_own (obj_set o k v) k'
  = if string_eqb k (js "__proto__") then get_own o k'
    else if string_eqb k k' then Some v else get_own o k'.
Proof.
  unfold obj_set. destruct (string_eqb k (js "__proto__")); [reflexivity |].
  destruct (has_own o k) eqn:Hown.
  - apply has_own_true in Hown. apply get_own_update_own. exact Hown.
  - assert (Hnin : ~ In k (Object_keys o)).
    { intros Hin. apply has_own_true in Hin. congruence. }
    destruct (array_index k) as [n |].
    + apply get_own_insert_index. exact Hnin.
    + apply get_own_app_single. exact Hnin.
Qed.

Lemma keys_obj_set o k v k' :
  In k' (Object_keys (obj_set o k v)) -> k' = k \/ In k' (Object_keys o).
Proof.
  unfold obj_set. destruct (string_eqb k (js "__proto__")); [tauto |].
  destruct (has_own o k).
  - rewrite keys_update_own. tauto.
  - destruct (array_index k) as [n |].
    + apply keys_insert_index.
    + unfold Object_keys. rewrite map_app, in_app_iff. simpl. intuition congruence.
Qed.

(** ** The enumeration order is kept *)

Lemma insert_index_sorted o k n v :
  array_index k = Some n -> ~ In k (Object_keys o) ->
  enum_sorted o -> enum_sorted (insert_index o k n v).
Proof.
  unfold enum_sorted, Object_keys. intros Hk.
  induction o as [| [k0 x0] o IH]; cbn [insert_index map fst In];
    intros Hnin Hs.
  - constructor; constructor.
  - apply StronglySorted_inv in Hs. destruct Hs as [Hs Hall].
    assert (Hfront : enum_lt k k0 ->
                     StronglySorted enum_lt (k :: k0 :: map fst o)).
    { intros Hlt. constructor; [constructor; assumption |].
      constructor; [exact Hlt |].
      rewrite Forall_forall in *. intros z Hz.
      eapply enum_lt_trans; [exact Hlt | apply Hall; exact Hz]. }
    destruct (array_index k0) as [m |] eqn:Hk0.
    + zcompare n m.
      * apply Hfront. unfold enum_lt. rewrite Hk, Hk0. exact E.
      * cbn [map fst]. constructor; [apply IH; tauto |].
        rewrite Forall_forall in *. intros z Hz.
        apply keys_insert_index in Hz. destruct Hz as [-> | Hz].
        -- unfold enum_lt. rewrite Hk, Hk0.
           assert (n <> m).
           { intros ->. apply Hnin. left.
             eapply array_index_inj; eassumption. }
           lia.
        -- apply Hall. exact Hz.
    + apply Hfront. unfold enum_lt. rewrite Hk, Hk0. exact I.
Qed.

Lemma app_single_sorted o k v :
  (forall k', In k' (Object_keys o) -> enum_lt k' k) ->
  enum_sorted o -> enum_sorted (o ++ [(k, v)]).
Proof.
  unfold enum_sorted, Object_keys.
  induction o as [| [k0 x0] o IH]; cbn [app map fst In]; intros Hlt Hs.
  - constructor; constructor.
  - apply StronglySorted_inv in Hs. destruct Hs as [Hs Hall].
    constructor; [apply IH; auto |].
    rewrite map_app. apply Forall_app. split; [exact Hall |].
    constructor; [apply Hlt; left; reflexivity | constructor].
Qed.

Lemma obj_set_sorted o k v :
  (forall k', In k' (Object_keys o) -> key_le k' k) ->
  enum_sorted o -> enum_sorted (obj_set o k v).
Proof.
  intros Hle Hs. unfold obj_set.
  destruct (string_eqb k (js "__proto__")); [exact Hs |].
  destruct (has_own o k) eqn:Hown.
  - unfold enum_sorted. rewrite keys_update_own. exact Hs.
  - assert (Hnin : ~ In k (Object_keys o)).
    { intros Hin. apply has_own_true in Hin. congruence. }
    destruct (array_index k) as [n |] eqn:Hk.
    + apply insert_index_sorted; assumption.
    + apply app_single_sorted; [| exact Hs].
      intros k' Hin. unfold enum_lt. rewrite Hk.
      destruct (array_index k'); [exact I |].
      split; [apply Hle; exact Hin | intros ->; contradiction].
Qed.

(** Two objects in enumeration order with the same properties are the
    same list. *)
Lemma enum_sorted_ext o1 : forall o2,
  enum_sorted o1 -> enum_sorted o2 ->
  (forall k, get_own o1 k = get_own o2 k) -> o1 = o2.
Proof.
  unfold enum_sorted, Object_keys.
  induction o1 as [| [k1 x1] o1 IH]; intros [| [k2 x2] o2] Hs1 Hs2 Hget.
  - reflexivity.
  - specialize (Hget k2). cbn [get_own] in Hget.
    rewrite string_eqb_refl in Hget. discriminate.
  - specialize (Hget k1). cbn [get_own] in Hget.
    rewrite string_eqb_refl in Hget. discriminate.
  - cbn [map fst] in Hs1, Hs2.
    apply StronglySorted_inv in Hs1. destruct Hs1 as [Hs1 Hall1].
    apply StronglySorted_inv in Hs2. destruct Hs2 as [Hs2 Hall2].
    rewrite Forall_forall in Hall1, Hall2.
    assert (Hk : k1 = k2).
    { destruct (list_eq_dec Z.eq_dec k1 k2) as [Heq | Hne]; [exact Heq |].
      exfalso.
      pose proof (Hget k1) as G1. pose proof (Hget k2) as G2.
      cbn [get_own] in G1, G2. rewrite !string_eqb_refl in G1, G2.
      assert (E12 : string_eqb k1 k2 = false) by (apply string_eqb_false; exact Hne).
      assert (E21 : string_eqb k2 k1 = false)
        by (apply string_eqb_false; congruence).
      rewrite E21 in G1. rewrite E12 in G2.
      symmetry in G1. apply get_own_Some_key in G1.
      apply get_own_Some_key in G2.
      eapply enum_lt_asym; [apply Hall1; exact G2 | apply Hall2; exact G1]. }
    subst k2.
    assert (Hx : x1 = x2).
    { specialize (Hget k1). cbn [get_own] in Hget.
      rewrite string_eqb_refl in Hget. congruence. }
    subst x2. f_equal. apply IH; try assumption.
    intros k. specialize (Hget k). cbn [get_own] in Hget.
    destruct (string_eqb k1 k) eqn:E; [| exact Hget].
    apply string_eqb_true in E. subst k.
    assert (N1 : get_own o1 k1 = None).
    { apply get_own_None. intros Hin. apply (enum_lt_irrefl k1). apply Hall1. exact Hin. }
    assert (N2 : get_own o2 k1 = None).
    { apply get_own_None. intros Hin. apply (enum_lt_irrefl k1). apply Hall2. exact Hin. }
    congruence.
Qed.

End Objects.

(* ===================================================================== *)
(** * normalizeForHashing *)
(* ===================================================================== *)

Section Normalization.

Context {number : Type}.

Implicit Types (o members : list (jsstring * value number)) (v x y : value number).
Implicit Types (k key : jsstring).

Local Abbreviation normalize := (@CommitmentHash.normalizeForHashing number).

Lemma normalize_object members :
  normalize (VObject members)
  = VObject (fold_left (CommitmentHash.normalize_member (normalized_members members))
                       (Array_sort (Object_keys members)) []).
Proof. reflexivity. Qed.

Lemma normalize_defined x : is_undefined (normalize x) = false.
Proof. destruct x; reflexivity. Qed.

Lemma get_own_normalized members k :
  get_own (normalized_members members) k
  = option_map (fun val => (val, normalize val)) (get_own members k).
Proof. unfold normalized_members. apply get_own_map. Qed.

Lemma normalize_member_keys normalized o k k' :
  In k' (Object_keys (CommitmentHash.normalize_member normalized o k)) ->
  k' = k \/ In k' (Object_keys o).
Proof.
  unfold CommitmentHash.normalize_member.
  destruct (get_own normalized k) as [[val nval] |]; [| tauto].
  destruct (is_undefined val); [tauto | apply keys_obj_set].
Qed.

Lemma normalize_member_sorted normalized o k :
  (forall k', In k' (Object_keys o) -> key_le k' k) ->
  enum_sorted o -> enum_sorted (CommitmentHash.normalize_member normalized o k).
Proof.
  intros Hle Hs. unfold CommitmentHash.normalize_member.
  destruct (get_own normalized k) as [[val nval] |]; [| exact Hs].
  destruct (is_undefined val); [exact Hs | apply obj_set_sorted; assumption].
Qed.

(** The loop over the sorted keys keeps the enumeration order. *)
Lemma normalize_loop_sorted normalized keys : forall o,
  StronglySorted key_le keys ->
  (forall k' k, In k' (Object_keys o) -> In k keys -> key_le k' k) ->
  enum_sorted o ->
  enum_sorted (fold_left (CommitmentHash.normalize_member normalized) keys o).
Proof.
  induction keys as [| key keys IH]; intros o Hks Hle Hs; cbn [fold_left].
  - exact Hs.
  - apply StronglySorted_inv in Hks. destruct Hks as [Hks Hall].
    rewrite Forall_forall in Hall.
    apply IH.
    + exact Hks.
    + intros k' k Hk' Hk. apply normalize_member_keys in Hk'.
      destruct Hk' as [-> | Hk'].
      * apply Hall. exact Hk.
      * apply Hle; [exact Hk' | right; exact Hk].
    + apply normalize_member_sorted; [| exact Hs].
      intros k' Hk'. apply Hle; [exact Hk' | left; reflexivity].
Qed.

Lemma get_own_normalize_member normalized o k k' :
  get_own (CommitmentHash.normalize_member normalized o k) k'
  = match get_own normalized k with
    | Some (val, nval) =>
        if is_undefined val || string_eqb k (js "__proto__") then get_own o k'
        else if string_eqb k k' then Some nval else get_own o k'
    | None => get_own o k'
    end.
Proof.
  unfold CommitmentHash.normalize_member.
  destruct (get_own normalized k) as [[val nval] |]; [| reflexivity].
  destruct (is_undefined val); [reflexivity |].
  cbn [orb]. apply get_own_obj_set.
Qed.

(** What the loop leaves under a key. *)
Lemma normalize_loop_lookup members keys k' : forall o,
  get_own (fold_left (CommitmentHash.normalize_member (normalized_members members))
                     keys o) k'
  = if existsb (string_eqb k') keys
    then match normalized_lookup members k' with
         | Some nval => Some nval
         | None => get_own o k'
         end
    else get_own o k'.
Proof.
  induction keys as [| key keys IH]; intros o; cbn [fold_left existsb].
  - reflexivity.
  - rewrite IH. rewrite get_own_normalize_member, get_own_normalized.
    unfold normalized_lookup.
    destruct (string_eqb k' key) eqn:E.
    + apply string_eqb_true in E. subst key. cbn [orb].
      destruct (get_own members k') as [val |]; cbn [option_map].
      * destruct (is_undefined val || string_eqb k' (js "__proto__")).
        -- destruct (existsb (string_eqb k') keys); reflexivity.
        -- rewrite string_eqb_refl.
           destruct (existsb (string_eqb k') keys); reflexivity.
      * destruct (existsb (string_eqb k') keys); reflexivity.
    + cbn [orb].
      assert (E' : string_eqb key k' = false).
      { apply string_eqb_false. apply string_eqb_false in E. congruence. }
      destruct (get_own members key) as [val |]; cbn [option_map];
        [| reflexivity].
      destruct (is_undefined val || string_eqb key (js "__proto__"));
        [reflexivity |].
      rewrite E'. reflexivity.
Qed.

Lemma existsb_string_eqb k keys :
  existsb (string_eqb k) keys = true <-> In k keys.
Proof.
  rewrite existsb_exists. split.
  - intros (z & Hz & E). apply string_eqb_true in E. subst z. exact Hz.
  - intros H. exists k. split; [exact H | apply string_eqb_refl].
Qed.

(** The normal form of an object: its properties and their order. *)
Lemma normalize_object_lookup members k :
  get_own (members_of (normalize (VObject members))) k = normalized_lookup members k.
Proof.
  rewrite normalize_object. cbn [members_of].
  rewrite normalize_loop_lookup. cbn [get_own].
  destruct (existsb (string_eqb k) (Array_sort (Object_keys members))) eqn:E.
  - destruct (normalized_lookup members k); reflexivity.
  - unfold normalized_lookup.
    destruct (get_own members k) as [val |] eqn:G; [| reflexivity].
    apply get_own_Some_key in G.
    apply (In_Array_sort k) in G. apply existsb_string_eqb in G.
    unfold Object_keys in E. congruence.
Qed.

Lemma normalize_object_sorted members :
  enum_sorted (members_of (normalize (VObject members))).
Proof.
  rewrite normalize_object. cbn [members_of].
  apply normalize_loop_sorted.
  - apply Array_sort_sorted.
  - intros k' k [].
  - constructor.
Qed.

(** ** Idempotence *)

Lemma trimStart_twice s : trimStart (trimStart s) = trimStart s.
Proof.
  induction s as [| c s IH]; [reflexivity |].
  cbn [trimStart]. destruct (is_white_space c) eqn:E; [exact IH |].
  cbn [trimStart]. rewrite E. reflexivity.
Qed.

Lemma trimStart_head s :
  match trimStart s with
  | [] => True
  | c :: _ => is_white_space c = false
  end.
Proof.
  induction s as [| c s IH]; [exact I |].
  cbn [trimStart]. destruct (is_white_space c) eqn:E; [exact IH | exact E].
Qed.

Lemma trimStart_keeps_last u c :
  is_white_space c = false -> exists w, trimStart (u ++ [c]) = w ++ [c].
Proof.
  intros E. induction u as [| d u IH].
  - exists []. cbn [app trimStart]. rewrite E. reflexivity.
  - cbn [app trimStart]. destruct (is_white_space d).
    + exact IH.
    + exists (d :: u). reflexivity.
Qed.

Lemma trimStart_rev_trimStart s :
  trimStart (rev (trimStart (rev (trimStart s)))) = rev (trimStart (rev (trimStart s))).
Proof.
  pose proof (trimStart_head s) as Hhead.
  destruct (trimStart s) as [| c t]; [reflexivity |].
  cbn [rev].
  destruct (trimStart_keeps_last (rev t) c Hhead) as (w & Hw).
  rewrite Hw, rev_app_distr. cbn [rev app trimStart].
  rewrite Hhead. reflexivity.
Qed.

Lemma trim_twice s : trim (trim s) = trim s.
Proof.
  unfold trim. rewrite trimStart_rev_trimStart, rev_involutive.
  apply trimStart_rev_trimStart.
Qed.

Lemma normalize_twice x : normalize (normalize x) = normalize x.
Proof.
  revert x. apply value_induction; try reflexivity.
  - intros s. cbn [CommitmentHash.normalizeForHashing].
    rewrite trim_twice. reflexivity.
  - intros items IH. cbn [CommitmentHash.normalizeForHashing]. f_equal.
    rewrite map_map. apply map_ext_Forall. exact IH.
  - intros members IH.
    remember (normalize (VObject members)) as once eqn:Honce.
    assert (Hshape : once = VObject (members_of once))
      by (subst once; reflexivity).
    rewrite Hshape at 2. rewrite Hshape at 1.
    rewrite (normalize_object (members_of once)) at 1.
    f_equal.
    change (fold_left _ _ [])
      with (members_of (normalize (VObject (members_of once)))).
    apply enum_sorted_ext.
    + apply normalize_object_sorted.
    + subst once. apply normalize_object_sorted.
    + intros k. rewrite normalize_object_lookup.
      unfold normalized_lookup at 1.
      subst once. rewrite normalize_object_lookup.
      unfold normalized_lookup.
      destruct (get_own members k) as [val |] eqn:G; [| reflexivity].
      destruct (is_undefined val || string_eqb k (js "__proto__")) eqn:E;
        [reflexivity |].
      apply orb_false_iff in E. destruct E as [_ Eproto].
      rewrite normalize_defined, Eproto. cbn [orb].
      f_equal. apply get_own_In in G.
      rewrite Forall_forall in IH. exact (IH (k, val) G).
Qed.

(** ** Key order and white space do not matter *)

Lemma get_own_Permutation {V : Type} (l l' : list (jsstring * V)) k :
  NoDup (map fst l) -> Permutation l l' -> get_own l k = get_own l' k.
Proof.
  intros Hnd Hperm.
  assert (Hnd' : NoDup (map fst l')).
  { eapply Permutation_NoDup; [apply Permutation_map; exact Hperm | exact Hnd]. }
  destruct (get_own l k) as [x |] eqn:G.
  - symmetry. apply get_own_NoDup; [exact Hnd' |].
    eapply Permutation_in; [exact Hperm | apply get_own_In; exact G].
  - symmetry. apply get_own_None. rewrite get_own_None in G.
    intros Hin. apply G.
    eapply Permutation_in; [apply Permutation_sym, Permutation_map; exact Hperm |].
    exact Hin.
Qed.

Lemma get_own_Forall2 (R : value number -> value number -> Prop) l l' k :
  Forall2 (fun a b : jsstring * value number => fst a = fst b /\ R (snd a) (snd b)) l l' ->
  match get_own l k, get_own l' k with
  | Some a, Some b => R a b
  | None, None => True
  | _, _ => False
  end.
Proof.
  intros H. induction H as [| [k1 x1] [k2 x2] l l' [Hk Hx] _ IH];
    cbn [get_own]; [exact I |].
  cbn [fst snd] in Hk, Hx. subst k2.
  destruct (string_eqb k1 k); [exact Hx | exact IH].
Qed.

Lemma same_document_undefined x y :
  same_document x y -> is_undefined x = is_undefined y.
Proof. intros H. destruct H; reflexivity. Qed.

Lemma normalize_same_document x : forall y,
  same_document x y -> normalize x = normalize y.
Proof.
  revert x.
  apply (value_induction
           (fun x => forall y, same_document x y -> normalize x = normalize y)).
  - intros y H. inversion H. reflexivity.
  - intros y H. inversion H. reflexivity.
  - intros b y H. inversion H. reflexivity.
  - intros n y H. inversion H. reflexivity.
  - intros s y H. inversion H as [| | | | s1 s2 Htrim | |]. subst.
    cbn [CommitmentHash.normalizeForHashing]. rewrite Htrim. reflexivity.
  - intros items IH y H. inversion H as [| | | | | items1 items2 Hall |]. subst.
    cbn [CommitmentHash.normalizeForHashing]. f_equal.
    clear H. induction Hall as [| a b l l' Hab _ IHall]; [reflexivity |].
    apply Forall_cons_iff in IH. destruct IH as [IHa IHl].
    cbn [map]. rewrite (IHa b Hab), (IHall IHl). reflexivity.
  - intros members IH y H.
    inversion H as [| | | | | | m reordered members' Hnd Hperm Hall]. subst.
    change (VObject (members_of (normalize (VObject members)))
            = VObject (members_of (normalize (VObject members')))).
    f_equal. apply enum_sorted_ext; try apply normalize_object_sorted.
    intros k. rewrite !normalize_object_lookup. unfold normalized_lookup.
    rewrite (get_own_Permutation members reordered k Hnd Hperm).
    pose proof (get_own_Forall2 same_document reordered members' k Hall) as Hrel.
    destruct (get_own reordered k) as [val |] eqn:G;
      destruct (get_own members' k) as [val' |]; try contradiction;
      [| reflexivity].
    rewrite <- (same_document_undefined val val' Hrel).
    destruct (is_undefined val || string_eqb k (js "__proto__")); [reflexivity |].
    f_equal.
    rewrite <- (get_own_Permutation members reordered k Hnd Hperm) in G.
    apply get_own_In in G. rewrite Forall_forall in IH.
    exact (IH (k, val) G val' Hrel).
Qed.

(** C7. normalizeForHashing is idempotent, and two documents that
    differ only in the order of mapping keys or in leading and trailing
    white space of strings have the same normal form; so have {a:1,b:2}
    and {b:2,a:1}. *)
Theorem normalize_idempotent_order_insensitive :
  (forall x : value number, normalize (normalize x) = normalize x) /\
  (forall x y : value number, same_document x y -> normalize x = normalize y) /\
  (forall one two : number,
     normalize (VObject [(js "a", VNumber one); (js "b", VNumber two)])
     = normalize (VObject [(js "b", VNumber two); (js "a", VNumber one)])).
Proof.
  split; [apply normalize_twice |].
  split; [intros x y; apply normalize_same_document |].
  intros one two. reflexivity.
Qed.

(** ** The normal form of a mapping *)

Lemma code_points_plain k : no_high_surrogate k -> code_points k = k.
Proof.
  unfold no_high_surrogate. induction k as [| c k IH]; [reflexivity |].
  cbn [forallb code_points]. intros H.
  apply andb_true_iff in H. destruct H as [Hc Hk].
  apply negb_true_iff in Hc. rewrite Hc, IH by exact Hk. reflexivity.
Qed.

Lemma StronglySorted_weaken {A : Type} (R R' : A -> A -> Prop) l :
  (forall a b, In a l -> In b l -> R a b -> R' a b) ->
  StronglySorted R l -> StronglySorted R' l.
Proof.
  induction l as [| a l IH]; intros Himp Hs; [constructor |].
  apply StronglySorted_inv in Hs. destruct Hs as [Hs Hall].
  constructor.
  - apply IH; [| exact Hs]. intros x y Hx Hy. apply Himp; right; assumption.
  - rewrite Forall_forall in *. intros b Hb.
    apply Himp; [left; reflexivity | right; exact Hb | apply Hall; exact Hb].
Qed.

Lemma normalized_key_is_input_key members k :
  In k (Object_keys (members_of (normalize (VObject members)))) ->
  In k (Object_keys members).
Proof.
  intros Hin. apply has_own_true in Hin. unfold has_own in Hin.
  rewrite normalize_object_lookup in Hin. unfold normalized_lookup in Hin.
  destruct (get_own members k) as [val |] eqn:G; [| discriminate].
  eapply get_own_Some_key. exact G.
Qed.

(** C6 (as amended).  The normal form of a mapping is a mapping that
    holds every input key other than __proto__ whose value is not
    undefined, with the value normalized (null stays null); keys that are
    absent from the input or hold undefined are absent from it.  Its keys
    are enumerated with the array indices first, by value, and then the
    other keys in ascending UTF-16 code-unit order, which is the
    code-point order when no key has a surrogate pair. *)
Theorem normalize_object_spec (members : list (jsstring * value number)) :
  exists out,
    normalize (VObject members) = VObject out /\
    StronglySorted enum_lt (Object_keys out) /\
    (forall k, get_own members k = None -> get_own out k = None) /\
    (forall k, get_own members k = Some VUndefined -> get_own out k = None) /\
    (forall k val,
       k <> js "__proto__" -> get_own members k = Some val -> val <> VUndefined ->
       get_own out k = Some (normalize val)) /\
    (forall k,
       k <> js "__proto__" -> get_own members k = Some VNull ->
       get_own out k = Some VNull) /\
    (forall k nval,
       get_own out k = Some nval ->
       exists val, get_own members k = Some val /\ val <> VUndefined /\
                   nval = normalize val) /\
    ((forall k, In k (Object_keys members) -> array_index k = None) ->
     StronglySorted key_lt (Object_keys out)) /\
    ((forall k, In k (Object_keys members) ->
                array_index k = None /\ no_high_surrogate k) ->
     StronglySorted code_point_lt (Object_keys out)).
Proof.
  exists (members_of (normalize (VObject members))).
  assert (Hlookup : forall k,
            get_own (members_of (normalize (VObject members))) k
            = normalized_lookup members k)
    by apply normalize_object_lookup.
  assert (Hsorted : StronglySorted enum_lt
                      (Object_keys (members_of (normalize (VObject members)))))
    by apply normalize_object_sorted.
  assert (Hdefined : forall k val,
            k <> js "__proto__" -> get_own members k = Some val ->
            val <> VUndefined ->
            get_own (members_of (normalize (VObject members))) k
            = Some (normalize val)).
  { intros k val Hk G Hval. rewrite Hlookup. unfold normalized_lookup. rewrite G.
    apply string_eqb_false in Hk. rewrite Hk.
    destruct val; try reflexivity. contradiction. }
  assert (Hplain : (forall k, In k (Object_keys members) -> array_index k = None) ->
                   StronglySorted key_lt
                     (Object_keys (members_of (normalize (VObject members))))).
  { intros Hidx. eapply StronglySorted_weaken; [| exact Hsorted].
    intros a b Ha Hb. unfold enum_lt.
    rewrite (Hidx a (normalized_key_is_input_key members a Ha)).
    rewrite (Hidx b (normalized_key_is_input_key members b Hb)).
    tauto. }
  split; [reflexivity |].
  split; [exact Hsorted |].
  split; [intros k G; rewrite Hlookup; unfold normalized_lookup; rewrite G;
          reflexivity |].
  split; [intros k G; rewrite Hlookup; unfold normalized_lookup; rewrite G;
          reflexivity |].
  split; [exact Hdefined |].
  split; [intros k Hk G; apply (Hdefined k VNull Hk G); discriminate |].
  split.
  { intros k nval G. rewrite Hlookup in G. unfold normalized_lookup in G.
    destruct (get_own members k) as [val |]; [| discriminate].
    destruct (is_undefined val || string_eqb k (js "__proto__")) eqn:E;
      [discriminate |].
    apply orb_false_iff in E. destruct E as [Eu _].
    injection G as <-. exists val. split; [reflexivity |].
    split; [intros ->; discriminate | reflexivity]. }
  split; [exact Hplain |].
  intros Hkeys.
  eapply StronglySorted_weaken;
    [| apply Hplain; intros k Hk; apply (Hkeys k Hk)].
  intros a b Ha Hb [Hle Hne].
  destruct (Hkeys a (normalized_key_is_input_key members a Ha)) as [_ Pa].
  destruct (Hkeys b (normalized_key_is_input_key members b Hb)) as [_ Pb].
  unfold code_point_lt, code_point_leb.
  rewrite (code_points_plain a Pa), (code_points_plain b Pb).
  split; assumption.
Qed.

(** The key __proto__ never becomes an own property of the normal form. *)
Lemma normalize_object_proto members :
  get_own (members_of (normalize (VObject members))) (js "__proto__") = None.
Proof.
  rewrite normalize_object_lookup. unfold normalized_lookup.
  destruct (get_own members (js "__proto__")) as [val |]; [| reflexivity].
  rewrite string_eqb_refl, orb_true_r. reflexivity.
Qed.

End Normalization.

(** A mapping with a null, an undefined and a string member. *)
Lemma normalize_object_spec_witness :
  exists out,
    CommitmentHash.normalizeForHashing
      (@VObject Z [(js "b", VString (js " x ")); (js "a", VNull); (js "u", VUndefined)])
    = VObject out /\
    get_own out (js "a") = Some VNull /\
    get_own out (js "b") = Some (VString (js "x")) /\
    get_own out (js "u") = None /\
    get_own out (js "c") = None /\
    StronglySorted code_point_lt (Object_keys out).
Proof.
  destruct (@normalize_object_spec Z
              [(js "b", VString (js " x ")); (js "a", VNull); (js "u", VUndefined)])
    as (out & Hout & _ & Habsent & Hundef & Hdef & Hnull & _ & _ & Hcp).
  exists out. split; [exact Hout |].
  split; [apply Hnull; [intros H; vm_compute in H; discriminate H | reflexivity] |].
  split; [apply (Hdef (js "b") (VString (js " x ")));
          [intros H; vm_compute in H; discriminate H | reflexivity | discriminate] |].
  split; [apply Hundef; reflexivity |].
  split; [apply Habsent; reflexivity |].
  apply Hcp. intros k Hk. simpl in Hk.
  destruct Hk as [<- | [<- | [<- | []]]]; split; reflexivity.
Defined.

(** Two documents that differ in key order and in white space. *)
Lemma normalize_idempotent_order_insensitive_witness :
  CommitmentHash.normalizeForHashing
    (@VObject Z [(js "a", VString (js " hi ")); (js "b", VArray [VNumber 1])])
  = CommitmentHash.normalizeForHashing
      (@VObject Z [(js "b", VArray [VNumber 1]); (js "a", VString (js "hi"))]).
Proof.
  apply (proj1 (proj2 (@normalize_idempotent_order_insensitive Z))).
  apply same_object
    with (reordered := [(js "b", VArray [VNumber 1]); (js "a", VString (js " hi "))]).
  - repeat constructor; simpl; intuition discriminate.
  - apply perm_swap.
  - constructor.
    + split; [reflexivity |]. constructor. constructor; [constructor | constructor].
    + constructor; [| constructor].
      split; [reflexivity |]. constructor. reflexivity.
Defined.

(** C6 as stated fails: a member that holds undefined is dropped, not
    kept with null; array-index keys come first in numeric order, so 9
    precedes 10 although 10 sorts first by code points; and the sort is by
    UTF-16 code units, in which U+10000 precedes U+FFFF. *)
Lemma normalize_object_not_as_stated :
  CommitmentHash.normalizeForHashing (@VObject Z [(js "a", VUndefined)]) = VObject [] /\
  get_own (members_of (CommitmentHash.normalizeForHashing
                         (@VObject Z [(js "a", VUndefined)]))) (js "a")
  <> Some VNull /\
  Object_keys (members_of (CommitmentHash.normalizeForHashing
                             (@VObject Z [(js "10", VNull); (js "9", VNull)])))
  = [js "9"; js "10"] /\
  ~ code_point_lt (js "9") (js "10") /\
  Object_keys (members_of (CommitmentHash.normalizeForHashing
                             (@VObject Z [([0xffff], VNull); ([0xd800; 0xdc00], VNull)])))
  = [[0xd800; 0xdc00]; [0xffff]] /\
  ~ code_point_lt [0xd800; 0xdc00] [0xffff].
Proof.
  split; [reflexivity |].
  split; [discriminate |].
  split; [reflexivity |].
  split; [intros [H _]; discriminate H |].
  split; [reflexivity |].
  intros [H _]. discriminate H.
Qed.

(* ===================================================================== *)
(** * Format validators and the detailed verification *)
(* ===================================================================== *)

Lemma lower_hex_is_hex c : is_lower_hex_unit c = true -> is_hex_unit c = true.
Proof.
  unfold is_lower_hex_unit, is_hex_unit. intros H.
  apply orb_true_iff in H. destruct H as [H | H]; rewrite H;
    [reflexivity | rewrite orb_true_r; reflexivity].
Qed.

Lemma digest_matches_regex h : is_digest_hex h -> regex_hex64 h = true.
Proof.
  intros [Hlen Hhex]. unfold regex_hex64. rewrite Hlen. cbn [Nat.eqb andb].
  change (64 =? 64)%nat with true. cbn [andb].
  apply forallb_forall. intros c Hc.
  apply lower_hex_is_hex. rewrite forallb_forall in Hhex. apply Hhex. exact Hc.
Qed.

Lemma lowered_hex_is_hex c :
  is_lower_hex_unit (lower_unit c) = true -> is_hex_unit c = true.
Proof.
  unfold lower_unit, is_lower_hex_unit, is_hex_unit.
  destruct ((65 <=? c) && (c <=? 90)) eqn:E; intros H.
  - apply andb_true_iff in E. destruct E as [E1 E2].
    apply Z.leb_le in E1. apply Z.leb_le in E2.
    apply orb_true_iff in H. destruct H as [H | H];
      apply andb_true_iff in H; destruct H as [H1 H2];
      apply Z.leb_le in H1; apply Z.leb_le in H2; [lia |].
    apply orb_true_iff. right. apply andb_true_iff. split; apply Z.leb_le; lia.
  - apply orb_true_iff in H. destruct H as [H | H]; rewrite H;
      [reflexivity | rewrite orb_true_r; reflexivity].
Qed.

Lemma hex_is_lowered_hex c :
  is_hex_unit c = true -> is_lower_hex_unit (lower_unit c) = true.
Proof.
  unfold lower_unit, is_lower_hex_unit, is_hex_unit. intros H.
  destruct ((65 <=? c) && (c <=? 90)) eqn:E.
  - apply andb_true_iff in E. destruct E as [E1 E2].
    apply Z.leb_le in E1. apply Z.leb_le in E2.
    apply orb_true_iff in H. destruct H as [H | H].
    + apply orb_true_iff in H. destruct H as [H | H];
        apply andb_true_iff in H; destruct H as [H1 H2];
        apply Z.leb_le in H1; apply Z.leb_le in H2; lia.
    + apply andb_true_iff in H. destruct H as [H1 H2].
      apply Z.leb_le in H1. apply Z.leb_le in H2.
      apply orb_true_iff. right. apply andb_true_iff. split; apply Z.leb_le; lia.
  - apply orb_true_iff in H. destruct H as [H | H]; [exact H |].
    apply andb_true_iff in H. destruct H as [H1 H2].
    apply Z.leb_le in H1. apply Z.leb_le in H2.
    apply andb_false_iff in E. destruct E as [E | E]; apply Z.leb_gt in E; lia.
Qed.

(** A string that lower-cases to a digest has the format of a hash. *)
Lemma lowers_to_digest_regex e h :
  is_digest_hex h -> toLowerCase e = h -> regex_hex64 e = true.
Proof.
  intros [Hlen Hhex] He. subst h. unfold toLowerCase in *.
  rewrite length_map in Hlen. unfold regex_hex64. rewrite Hlen.
  change (64 =? 64)%nat with true. cbn [andb].
  apply forallb_forall. intros c Hc. apply lowered_hex_is_hex.
  rewrite forallb_forall in Hhex. apply Hhex. apply in_map. exact Hc.
Qed.

Lemma regex_hex64_lowered e :
  regex_hex64 e = true -> is_digest_hex (toLowerCase e).
Proof.
  unfold regex_hex64, is_digest_hex, toLowerCase. intros H.
  apply andb_true_iff in H. destruct H as [Hlen Hhex].
  apply Nat.eqb_eq in Hlen. rewrite length_map. split; [exact Hlen |].
  apply forallb_forall. intros c Hc. apply in_map_iff in Hc.
  destruct Hc as (x & <- & Hx). apply hex_is_lowered_hex.
  rewrite forallb_forall in Hhex. apply Hhex. exact Hx.
Qed.

Lemma valid_hash_format h :
  regex_hex64 h = true ->
  SltHash.isValidSltHash h = true /\ TaskHash.isValidTaskHash h = true /\
  CommitmentHash.isValidCommitmentHash h = true /\ Policies.isValidAssetName h = true.
Proof.
  intros H. pose proof H as H0. unfold regex_hex64 in H0.
  apply andb_true_iff in H0. destruct H0 as [Hlen Hhex].
  unfold SltHash.isValidSltHash, TaskHash.isValidTaskHash,
    CommitmentHash.isValidCommitmentHash, Policies.isValidAssetName,
    Policies.regex_hex_any.
  rewrite Hlen, H, Hhex. apply Nat.eqb_eq in Hlen. rewrite Hlen.
  repeat split; reflexivity.
Qed.

(** X1. The hash computed by each pipeline passes the format validator
    of that pipeline, and is a valid asset name (it is used as a token
    name). *)
Theorem computed_hash_passes_validators :
  (forall slts : list jsstring,
     exists h, SltHash.computeSltHash slts = Ok h /\
       SltHash.isValidSltHash h = true /\ Policies.isValidAssetName h = true) /\
  (forall task : TaskHash.TaskData,
     exists h, TaskHash.computeTaskHash task = Ok h /\
       TaskHash.isValidTaskHash h = true /\ Policies.isValidAssetName h = true) /\
  (forall (number : Type) (Number_toJSON : number -> jsstring)
          (evidence : value number),
     CommitmentHash.isValidCommitmentHash
       (CommitmentHash.computeCommitmentHash Number_toJSON evidence) = true).
Proof.
  destruct compute_hash_digest_aux as (Hslt & Htask & Hcommit).
  split; [| split].
  - intros slts. destruct (Hslt slts) as (h & Hh & Hd). exists h.
    split; [exact Hh |].
    destruct (valid_hash_format h (digest_matches_regex h Hd)) as (A & _ & _ & D).
    split; assumption.
  - intros task. destruct (Htask task) as (h & Hh & Hd). exists h.
    split; [exact Hh |].
    destruct (valid_hash_format h (digest_matches_regex h Hd)) as (_ & B & _ & D).
    split; assumption.
  - intros number Number_toJSON evidence.
    apply valid_hash_format, digest_matches_regex, Hcommit.
Qed.

(** X2. A verify function returns true exactly when the expected string,
    lower-cased, is the computed hash; every string that verifies has the
    format the validator accepts. *)
Theorem verify_true_iff_lowercase_equal :
  (forall (slts : list jsstring) (expected : jsstring),
     exists h, SltHash.computeSltHash slts = Ok h /\
       (SltHash.verifySltHash slts expected = Ok true <-> toLowerCase expected = h) /\
       (SltHash.verifySltHash slts expected = Ok true ->
        SltHash.isValidSltHash expected = true)) /\
  (forall (task : TaskHash.TaskData) (expected : jsstring),
     exists h, TaskHash.computeTaskHash task = Ok h /\
       (TaskHash.verifyTaskHash task expected = Ok true <-> toLowerCase expected = h) /\
       (TaskHash.verifyTaskHash task expected = Ok true ->
        TaskHash.isValidTaskHash expected = true)) /\
  (forall (number : Type) (Number_toJSON : number -> jsstring)
          (evidence : value number) (expected : jsstring),
     let h := CommitmentHash.computeCommitmentHash Number_toJSON evidence in
     (CommitmentHash.verifyCommitmentHash Number_toJSON evidence expected = true
      <-> toLowerCase expected = h) /\
     (CommitmentHash.verifyCommitmentHash Number_toJSON evidence expected = true ->
      CommitmentHash.isValidCommitmentHash expected = true)).
Proof.
  destruct compute_hash_digest_aux as (Hslt & Htask & Hcommit).
  assert (Hcmp : forall h e, is_digest_hex h ->
            (string_eqb (toLowerCase h) (toLowerCase e) = true <-> toLowerCase e = h)).
  { intros h e Hd. rewrite (toLowerCase_digest h Hd), string_eqb_true.
    split; intros H; symmetry; exact H. }
  split; [| split].
  - intros slts e. destruct (Hslt slts) as (h & Hh & Hd). exists h.
    split; [exact Hh |].
    assert (Hiff : SltHash.verifySltHash slts e = Ok true <-> toLowerCase e = h).
    { unfold SltHash.verifySltHash. rewrite Hh. cbn [bind].
      rewrite <- (Hcmp h e Hd). split; intros H; [injection H as H | f_equal]; exact H. }
    split; [exact Hiff |].
    intros H. apply Hiff in H.
    apply (valid_hash_format e (lowers_to_digest_regex e h Hd H)).
  - intros task e. destruct (Htask task) as (h & Hh & Hd). exists h.
    split; [exact Hh |].
    assert (Hiff : TaskHash.verifyTaskHash task e = Ok true <-> toLowerCase e = h).
    { unfold TaskHash.verifyTaskHash. rewrite Hh. cbn [bind].
      rewrite <- (Hcmp h e Hd). split; intros H; [injection H as H | f_equal]; exact H. }
    split; [exact Hiff |].
    intros H. apply Hiff in H.
    apply (valid_hash_format e (lowers_to_digest_regex e h Hd H)).
  - intros number Number_toJSON evidence e h.
    assert (Hd : is_digest_hex h) by apply Hcommit.
    assert (Hiff : CommitmentHash.verifyCommitmentHash Number_toJSON evidence e = true
                   <-> toLowerCase e = h).
    { unfold CommitmentHash.verifyCommitmentHash. fold h. apply Hcmp. exact Hd. }
    split; [exact Hiff |].
    intros H. apply Hiff in H.
    apply (valid_hash_format e (lowers_to_digest_regex e h Hd H)).
Qed.

(** The reference hash in capitals verifies and is accepted by the
    validator. *)
Lemma verify_true_iff_lowercase_equal_witness :
  let slts := [js "I can set up a Typescript development environment.";
               js "I can use Github CLI to create an issue.";
               js "I can run the Andamio T3 App Template locally."] in
  let expected :=
    js "EFF7D90A6ED2EAF32B523EFB25D95F748166158BCCE048717A4920478BE052CF" in
  SltHash.verifySltHash slts expected = Ok true /\
  SltHash.isValidSltHash expected = true.
Proof.
  intros slts expected.
  destruct (proj1 verify_true_iff_lowercase_equal slts expected)
    as (h & Hh & Hiff & Hvalid).
  assert (Hv : SltHash.verifySltHash slts expected = Ok true).
  { apply Hiff.
    assert (Hk : SltHash.computeSltHash slts
                 = Ok (js "eff7d90a6ed2eaf32b523efb25d95f748166158bcce048717a4920478be052cf"))
      by (vm_compute; reflexivity).
    rewrite Hh in Hk. injection Hk as Hk. subst h. vm_compute. reflexivity. }
  split; [exact Hv | apply Hvalid; exact Hv].
Defined.

(** X3. The detailed verification reports as [isValid] what
    verifyCommitmentHash returns, for every evidence and every expected
    string: the format check it performs first never rejects a string that
    would have verified. *)
Theorem verifyEvidenceDetailed_agrees
  (number : Type) (Number_toJSON : number -> jsstring)
  (evidence : value number) (onChainHash : jsstring) :
  CommitmentHash.isValid (CommitmentHash.verifyEvidenceDetailed Number_toJSON evidence onChainHash)
  = CommitmentHash.verifyCommitmentHash Number_toJSON evidence onChainHash.
Proof.
  unfold CommitmentHash.verifyEvidenceDetailed.
  destruct (CommitmentHash.isValidCommitmentHash onChainHash) eqn:Hvalid;
    cbn [negb CommitmentHash.isValid]; [reflexivity |].
  destruct (CommitmentHash.verifyCommitmentHash Number_toJSON evidence onChainHash)
    eqn:Hv; [| reflexivity].
  destruct compute_hash_digest_aux as (_ & _ & Hcommit).
  unfold CommitmentHash.verifyCommitmentHash in Hv.
  rewrite (toLowerCase_digest _ (Hcommit number Number_toJSON evidence)) in Hv.
  apply string_eqb_true in Hv. symmetry in Hv.
  pose proof (valid_hash_format onChainHash
                (lowers_to_digest_regex _ _ (Hcommit number Number_toJSON evidence) Hv))
    as (_ & _ & C & _).
  congruence.
Qed.

(** X4. The fields of the detailed result.  With an expected string of
    invalid format nothing is computed: the computed hash is empty, the
    expected string is returned as given and the message quotes it.
    Otherwise the computed hash is the commitment hash, the expected
    string is returned in lower case, where it is a digest in canonical
    form, and the message tells a match from a mismatch. *)
Theorem verifyEvidenceDetailed_fields
  (number : Type) (Number_toJSON : number -> jsstring)
  (evidence : value number) (onChainHash : jsstring) :
  let r := CommitmentHash.verifyEvidenceDetailed Number_toJSON evidence onChainHash in
  (CommitmentHash.isValidCommitmentHash onChainHash = false ->
     CommitmentHash.isValid r = false /\
     CommitmentHash.computedHash r = [] /\
     CommitmentHash.expectedHash r = onChainHash /\
     CommitmentHash.message r
     = js "Invalid on-chain hash format: expected 64 hex characters, got "
       ++ [34] ++ onChainHash ++ [34]) /\
  (CommitmentHash.isValidCommitmentHash onChainHash = true ->
     CommitmentHash.computedHash r
     = CommitmentHash.computeCommitmentHash Number_toJSON evidence /\
     CommitmentHash.expectedHash r = toLowerCase onChainHash /\
     is_digest_hex (CommitmentHash.expectedHash r) /\
     (CommitmentHash.isValid r = true <->
      CommitmentHash.expectedHash r = CommitmentHash.computedHash r) /\
     CommitmentHash.message r
     = if CommitmentHash.isValid r
       then js "Evidence matches on-chain commitment"
       else js "Evidence does not match on-chain commitment - content may have been modified") /\
  (CommitmentHash.computedHash r = [] <->
   CommitmentHash.isValidCommitmentHash onChainHash = false).
Proof.
  intros r. subst r. unfold CommitmentHash.verifyEvidenceDetailed.
  destruct compute_hash_digest_aux as (_ & _ & Hcommit).
  pose proof (Hcommit number Number_toJSON evidence) as Hd.
  destruct (CommitmentHash.isValidCommitmentHash onChainHash) eqn:Hvalid;
    cbn [negb CommitmentHash.isValid CommitmentHash.computedHash
         CommitmentHash.expectedHash CommitmentHash.message].
  - split; [discriminate |]. split.
    + intros _. split; [reflexivity |]. split; [reflexivity |].
      assert (Hre : regex_hex64 onChainHash = true).
      { unfold CommitmentHash.isValidCommitmentHash in Hvalid.
        destruct (negb (length onChainHash =? 64)%nat); [discriminate | exact Hvalid]. }
      split; [apply regex_hex64_lowered; exact Hre |].
      split; [| reflexivity].
      rewrite (toLowerCase_digest _ Hd), string_eqb_true.
      split; intros H; symmetry; exact H.
    + split; [| discriminate]. intros H. destruct Hd as [Hlen _].
      rewrite H in Hlen. discriminate.
  - split; [| split; [discriminate | split; reflexivity]].
    intros _. repeat split; reflexivity.
Qed.

(** A string that is no hash, and the hash of the document itself. *)
Lemma verifyEvidenceDetailed_fields_witness :
  let bad := CommitmentHash.verifyEvidenceDetailed (fun n : Z => [48 + n])
               (VObject [(js "a", VNumber 1)]) (js "xyz") in
  let good := CommitmentHash.verifyEvidenceDetailed (fun n : Z => [48 + n])
                (VObject [(js "a", VNumber 1)])
                (CommitmentHash.computeCommitmentHash (fun n : Z => [48 + n])
                   (VObject [(js "a", VNumber 1)])) in
  CommitmentHash.computedHash bad = [] /\
  CommitmentHash.expectedHash bad = js "xyz" /\
  is_digest_hex (CommitmentHash.expectedHash good).
Proof.
  intros bad good.
  destruct (verifyEvidenceDetailed_fields Z (fun n : Z => [48 + n])
              (VObject [(js "a", VNumber 1)]) (js "xyz")) as (Hbad & _ & _).
  destruct (Hbad ltac:(reflexivity)) as (_ & B1 & B2 & _).
  destruct (verifyEvidenceDetailed_fields Z (fun n : Z => [48 + n])
              (VObject [(js "a", VNumber 1)])
              (CommitmentHash.computeCommitmentHash (fun n : Z => [48 + n])
                 (VObject [(js "a", VNumber 1)]))) as (_ & Hgood & _).
  destruct (Hgood ltac:(vm_compute; reflexivity)) as (_ & _ & G & _).
  split; [exact B1 | split; [exact B2 | exact G]].
Defined.

(* ===================================================================== *)
(** * The encoders are one-to-one *)

Lemma take_app payload rest :
  take (Z.of_nat (length payload)) (payload ++ rest) = Some (payload, rest).
Proof.
  unfold take. rewrite length_app, Nat2Z.id.
  destruct ((0 <=? Z.of_nat (length payload))
            && (Z.of_nat (length payload) <=? Z.of_nat (length payload + length rest)))
    eqn:E.
  - rewrite firstn_app, firstn_all, Nat.sub_diag, firstn_O, app_nil_r.
    rewrite skipn_app, skipn_all, Nat.sub_diag. reflexivity.
  - apply andb_false_iff in E. destruct E as [E | E]; apply Z.leb_gt in E; lia.
Qed.

Lemma parse_argument_direct v rest :
  0 <= v <= 23 -> parse_argument v rest = Some (v, rest).
Proof.
  intros Hv. unfold parse_argument.
  destruct (v <=? 23) eqn:E; [reflexivity | apply Z.leb_gt in E; lia].
Qed.

Lemma parse_argument_payload info width v payload rest :
  (info = 24 /\ width = 1%nat) \/ (info = 25 /\ width = 2%nat) \/
  (info = 26 /\ width = 4%nat) \/ (info = 27 /\ width = 8%nat) ->
  length payload = width -> be_value payload = v ->
  parse_argument info (payload ++ rest) = Some (v, rest).
Proof.
  intros Hinfo Hlen Hval. unfold parse_argument.
  assert (Hw : (if info =? 24 then 1 else if info =? 25 then 2
                else if info =? 26 then 4 else if info =? 27 then 8 else -1)
               = Z.of_nat (length payload)).
  { destruct Hinfo as [[-> ->] | [[-> ->] | [[-> ->] | [-> ->]]]];
      rewrite Hlen; reflexivity. }
  assert (H23 : (info <=? 23) = false).
  { apply Z.leb_gt. destruct Hinfo as [[-> _] | [[-> _] | [[-> _] | [-> _]]]]; lia. }
  rewrite H23, Hw, take_app, Hval. reflexivity.
Qed.

(** Reading back what the ladder describes. *)
Lemma parse_argument_ladder major v out rest :
  0 <= v < 2 ^ 64 -> ladder major v out ->
  exists info tail, out = (major + info) :: tail /\ 0 <= info < 32 /\
    parse_argument info (tail ++ rest) = Some (v, rest).
Proof.
  intros Hv (L1 & L2 & L3 & L4 & L5).
  destruct (Z_le_gt_dec v 23) as [H1 | H1].
  { exists v, []. rewrite (L1 H1). split; [reflexivity |]. split; [lia |].
    apply parse_argument_direct. lia. }
  destruct (Z_le_gt_dec v 255) as [H2 | H2].
  { exists 24, [v]. rewrite (L2 ltac:(lia)). split; [reflexivity |]. split; [lia |].
    apply (parse_argument_payload 24 1 v [v]); [tauto | reflexivity |].
    unfold be_value. simpl. lia. }
  destruct (Z_le_gt_dec v 65535) as [H3 | H3].
  { destruct (L3 ltac:(lia)) as (payload & -> & Hlen & _ & Hval).
    exists 25, payload. split; [reflexivity |]. split; [lia |].
    apply (parse_argument_payload 25 2); tauto. }
  destruct (Z_le_gt_dec v (2 ^ 32 - 1)) as [H4 | H4].
  { destruct (L4 ltac:(lia)) as (payload & -> & Hlen & _ & Hval).
    exists 26, payload. split; [reflexivity |]. split; [lia |].
    apply (parse_argument_payload 26 4); tauto. }
  destruct (L5 ltac:(lia)) as (payload & -> & Hlen & _ & Hval).
  exists 27, payload. split; [reflexivity |]. split; [lia |].
  apply (parse_argument_payload 27 8); tauto.
Qed.

Lemma parse_int_encode n rest :
  exact_range n ->
  parse_int (TaskHash.encodePlutusInteger n ++ rest) = Some (n, rest).
Proof.
  unfold exact_range. intros Hn.
  destruct (Z_lt_ge_dec n 0) as [Hneg | Hpos].
  - pose proof (encodePlutusInteger_negative n ltac:(lia)) as Hl.
    destruct (parse_argument_ladder 0x20 (-1 - n) _ rest ltac:(lia) Hl)
      as (info & tail & -> & Hinfo & Hparse).
    cbn [app parse_int].
    destruct ((0 <=? 0x20 + info) && (0x20 + info <? 0x20)) eqn:E1.
    { apply andb_true_iff in E1. destruct E1 as [_ E1]. apply Z.ltb_lt in E1. lia. }
    destruct ((0x20 <=? 0x20 + info) && (0x20 + info <? 0x40)) eqn:E2.
    + replace (0x20 + info - 0x20) with info by lia.
      rewrite Hparse. f_equal. f_equal. lia.
    + apply andb_false_iff in E2.
      destruct E2 as [E2 | E2]; [apply Z.leb_gt in E2 | apply Z.ltb_ge in E2]; lia.
  - pose proof (encodePlutusInteger_nonneg n ltac:(lia)) as Hl.
    destruct (parse_argument_ladder 0 n _ rest ltac:(lia) Hl)
      as (info & tail & -> & Hinfo & Hparse).
    cbn [app parse_int].
    destruct ((0 <=? 0 + info) && (0 + info <? 0x20)) eqn:E1.
    + replace (0 + info) with info by lia. exact Hparse.
    + apply andb_false_iff in E1.
      destruct E1 as [E1 | E1]; [apply Z.leb_gt in E1 | apply Z.ltb_ge in E1]; lia.
Qed.

(** X5. On the integers it writes exactly (-2^53 <= n < 2^64) the
    integer encoder is one-to-one and self-delimiting: if the encodings
    of two such integers, each followed by further bytes, coincide, then
    the integers and the further bytes coincide. *)
Theorem encodePlutusInteger_injective (n1 n2 : Z) (rest1 rest2 : bytes) :
  - 2 ^ 53 <= n1 < 2 ^ 64 -> - 2 ^ 53 <= n2 < 2 ^ 64 ->
  TaskHash.encodePlutusInteger n1 ++ rest1 = TaskHash.encodePlutusInteger n2 ++ rest2 ->
  n1 = n2 /\ rest1 = rest2.
Proof.
  intros H1 H2 Heq.
  pose proof (parse_int_encode n1 rest1 H1) as P1.
  pose proof (parse_int_encode n2 rest2 H2) as P2.
  rewrite Heq, P2 in P1. injection P1 as <- <-. split; reflexivity.
Qed.

(** Two ways of writing one amount, each followed by the break byte. *)
Lemma encodePlutusInteger_injective_witness :
  15000000 = 15 * 1000000 /\ [0xff] = [0xff].
Proof.
  apply (encodePlutusInteger_injective 15000000 (15 * 1000000) [0xff] [0xff]);
    [lia | lia | reflexivity].
Defined.

(** X6. Past 64 bits the encoder is not one-to-one: for n >= 2^32 the
    integers n and n + 2^64 have the same encoding, so two tasks that
    differ only by 2^64 in such an amount have the same bytes and the same
    hash. *)
Theorem encodePlutusInteger_collides (n : Z) :
  2 ^ 32 <= n ->
  TaskHash.encodePlutusInteger (n + 2 ^ 64) = TaskHash.encodePlutusInteger n /\
  forall content expiration assets,
    TaskHash.encodeTaskAsPlutusData
      (TaskHash.mkTaskData content expiration (n + 2 ^ 64) assets)
    = TaskHash.encodeTaskAsPlutusData (TaskHash.mkTaskData content expiration n assets)
    /\
    TaskHash.computeTaskHash (TaskHash.mkTaskData content expiration (n + 2 ^ 64) assets)
    = TaskHash.computeTaskHash (TaskHash.mkTaskData content expiration n assets).
Proof.
  intros Hn.
  assert (Henc : TaskHash.encodePlutusInteger (n + 2 ^ 64)
                 = TaskHash.encodePlutusInteger n).
  { rewrite !encodePlutusInteger_wraps by lia.
    replace (n + 2 ^ 64) with (n + 1 * 2 ^ 64) by lia.
    rewrite Z.mod_add by lia. reflexivity. }
  split; [exact Henc |].
  intros content expiration assets.
  assert (Hcbor : TaskHash.encodeTaskAsPlutusData
                    (TaskHash.mkTaskData content expiration (n + 2 ^ 64) assets)
                  = TaskHash.encodeTaskAsPlutusData
                      (TaskHash.mkTaskData content expiration n assets)).
  { rewrite !encodeTaskAsPlutusData_ok. unfold task_cbor.
    cbn [TaskHash.project_content TaskHash.expiration_time TaskHash.lovelace_amount
         TaskHash.native_assets].
    rewrite Henc. reflexivity. }
  split; [exact Hcbor |].
  unfold TaskHash.computeTaskHash. rewrite Hcbor. reflexivity.
Qed.

(** 2^32 and 2^32 + 2^64 as lovelace amounts. *)
Lemma encodePlutusInteger_collides_witness :
  TaskHash.encodePlutusInteger (2 ^ 32 + 2 ^ 64) = TaskHash.encodePlutusInteger (2 ^ 32) /\
  TaskHash.computeTaskHash (TaskHash.mkTaskData (js "t") 0 (2 ^ 32 + 2 ^ 64) [])
  = TaskHash.computeTaskHash (TaskHash.mkTaskData (js "t") 0 (2 ^ 32) []).
Proof.
  destruct (encodePlutusInteger_collides (2 ^ 32) ltac:(lia)) as (Henc & Htask).
  split; [exact Henc | exact (proj2 (Htask (js "t") 0 []))].
Defined.

(** ** Byte strings and lists *)

Lemma definite_byte_string_head b :
  (length b <= 255)%nat ->
  exists h t, definite_byte_string b = h :: t /\ 0x40 <= h <= 0x58.
Proof.
  intros Hlen. unfold definite_byte_string, byte_string_header.
  destruct (Z.of_nat (length b) <=? 23) eqn:E.
  - apply Z.leb_le in E. eexists. eexists. split; [reflexivity | lia].
  - destruct (Z.of_nat (length b) <=? 255) eqn:E2.
    + eexists. eexists. split; [reflexivity | lia].
    + apply Z.leb_gt in E2. lia.
Qed.

Lemma parse_definite_encode b rest :
  (length b <= 255)%nat ->
  parse_definite (definite_byte_string b ++ rest) = Some (b, rest).
Proof.
  intros Hlen. unfold definite_byte_string, byte_string_header.
  destruct (Z.of_nat (length b) <=? 23) eqn:E.
  - apply Z.leb_le in E. cbn [app parse_definite].
    destruct ((0x40 <=? 0x40 + Z.of_nat (length b))
              && (0x40 + Z.of_nat (length b) <=? 0x57)) eqn:E1.
    + replace (0x40 + Z.of_nat (length b) - 0x40) with (Z.of_nat (length b)) by lia.
      apply take_app.
    + apply andb_false_iff in E1. destruct E1 as [E1 | E1]; apply Z.leb_gt in E1; lia.
  - destruct (Z.of_nat (length b) <=? 255) eqn:E2;
      [| apply Z.leb_gt in E2; lia].
    cbn [app parse_definite]. apply take_app.
Qed.

Lemma parse_list_encode {A : Type} (item : bytes -> option (A * bytes))
  (enc : A -> bytes) (P : A -> Prop) :
  (forall a rest, P a -> item (enc a ++ rest) = Some (a, rest)) ->
  (forall a, P a -> exists h t, enc a = h :: t /\ h <> 0xff) ->
  forall xs fuel rest,
    Forall P xs -> (length xs < fuel)%nat ->
    parse_list item fuel (concat (map enc xs) ++ 0xff :: rest) = Some (xs, rest).
Proof.
  intros Hitem Hhead xs.
  induction xs as [| x xs IH]; intros fuel rest HP Hfuel;
    (destruct fuel as [| fuel]; [simpl in Hfuel; lia |]).
  - reflexivity.
  - apply Forall_cons_iff in HP. destruct HP as [Hx Hxs].
    cbn [map concat]. rewrite <- app_assoc.
    destruct (Hhead x Hx) as (h & t & Henc & Hh).
    apply Z.eqb_neq in Hh.
    pose proof (Hitem x (concat (map enc xs) ++ 0xff :: rest) Hx) as Hparse.
    pose proof (IH fuel rest Hxs ltac:(simpl in Hfuel; lia)) as Htail.
    rewrite Henc in *. cbn [app parse_list] in *.
    rewrite Hh, Hparse, Htail. reflexivity.
Qed.

Lemma slice64_shift b k : slice64 b (S k) = slice64 (skipn 64 b) k.
Proof.
  unfold slice64. rewrite skipn_skipn. f_equal. f_equal. lia.
Qed.

Lemma slices_concat m : forall b,
  (length b <= 64 * m)%nat -> concat (map (slice64 b) (seq 0 m)) = b.
Proof.
  induction m as [| m IH]; intros b Hlen.
  - destruct b; [reflexivity | simpl in Hlen; lia].
  - cbn [seq map concat]. rewrite <- seq_shift, map_map.
    rewrite (map_ext _ (slice64 (skipn 64 b))) by (intros k; apply slice64_shift).
    rewrite IH by (rewrite length_skipn; lia).
    unfold slice64. cbn [Nat.mul skipn]. apply firstn_skipn.
Qed.

Lemma length_concat_definite cs :
  (length (concat cs) <= length (concat (map definite_byte_string cs)))%nat.
Proof.
  induction cs as [| c cs IH]; [simpl; lia |].
  cbn [map concat]. rewrite !length_app. unfold definite_byte_string at 1.
  rewrite length_app. lia.
Qed.

Lemma chunked_byte_string_head b :
  exists h t, chunked_byte_string b = h :: t /\ 0x40 <= h <= 0x5f.
Proof.
  unfold chunked_byte_string. destruct (length b <=? 64)%nat eqn:E.
  - apply Nat.leb_le in E.
    destruct (definite_byte_string_head b ltac:(lia)) as (h & t & Hd & Hh).
    exists h, t. split; [exact Hd | lia].
  - eexists. eexists. split; [reflexivity | lia].
Qed.

Lemma parse_chunked_encode b rest :
  parse_chunked (chunked_byte_string b ++ rest) = Some (b, rest).
Proof.
  unfold chunked_byte_string. destruct (length b <=? 64)%nat eqn:E.
  - apply Nat.leb_le in E.
    destruct (definite_byte_string_head b ltac:(lia)) as (h & t & Hd & Hh).
    pose proof (parse_definite_encode b rest ltac:(lia)) as Hp.
    rewrite Hd in *. cbn [app parse_chunked].
    destruct (h =? 0x5f) eqn:E5; [apply Z.eqb_eq in E5; lia |].
    exact Hp.
  - apply Nat.leb_gt in E.
    set (slices := map (slice64 b) (seq 0 (slice_count (length b)))).
    assert (Hmap : map (fun k => definite_byte_string (slice64 b k))
                       (seq 0 (slice_count (length b)))
                   = map definite_byte_string slices)
      by (unfold slices; rewrite map_map; reflexivity).
    assert (Hcat : concat slices = b).
    { unfold slices. apply slices_concat. unfold slice_count.
      pose proof (Nat.div_mod_eq (length b + 63) 64).
      pose proof (Nat.mod_upper_bound (length b + 63) 64 ltac:(lia)). lia. }
    rewrite Hmap. cbn [app parse_chunked]. change (0x5f =? 0x5f) with true. cbv iota.
    rewrite <- app_assoc. cbn [app].
    rewrite (parse_list_encode parse_definite definite_byte_string
               (fun c => (length c <= 255)%nat)).
    + rewrite Hcat. reflexivity.
    + intros a r Ha. apply parse_definite_encode. exact Ha.
    + intros a Ha. destruct (definite_byte_string_head a Ha) as (h & t & Hd & Hh).
      exists h, t. split; [exact Hd | lia].
    + unfold slices. apply Forall_forall. intros c Hc.
      apply in_map_iff in Hc. destruct Hc as (k & <- & _).
      pose proof (length_slice64 b k). lia.
    + cbn [length]. rewrite length_app.
      pose proof (length_concat_definite slices) as Hl. rewrite Hcat in Hl.
      assert (length slices <= length b)%nat.
      { unfold slices. rewrite length_map, length_seq. unfold slice_count.
        pose proof (Nat.div_mod_eq (length b + 63) 64).
        pose proof (Nat.mod_upper_bound (length b + 63) 64 ltac:(lia)). lia. }
      lia.
Qed.

Lemma chunked_encoding_injective (b1 b2 : bytes) :
  chunked_byte_string b1 = chunked_byte_string b2 -> b1 = b2.
Proof.
  intros H.
  pose proof (parse_chunked_encode b1 []) as P1.
  pose proof (parse_chunked_encode b2 []) as P2.
  rewrite H, P2 in P1. injection P1 as <-. reflexivity.
Qed.

Lemma parse_items_encode items fuel :
  (length items < fuel)%nat ->
  parse_list parse_chunked fuel (concat (map chunked_byte_string items) ++ [0xff])
  = Some (items, []).
Proof.
  intros Hfuel.
  apply (parse_list_encode parse_chunked chunked_byte_string (fun _ => True)).
  - intros a r _. apply parse_chunked_encode.
  - intros a _. destruct (chunked_byte_string_head a) as (h & t & Hc & Hh).
    exists h, t. split; [exact Hc | lia].
  - apply Forall_forall. intros; exact I.
  - exact Hfuel.
Qed.

Lemma array_encoding_injective (items1 items2 : list bytes) :
  concat (map chunked_byte_string items1) = concat (map chunked_byte_string items2) ->
  items1 = items2.
Proof.
  intros H.
  pose proof (parse_items_encode items1 (S (length items1 + length items2))
                ltac:(lia)) as P1.
  pose proof (parse_items_encode items2 (S (length items1 + length items2))
                ltac:(lia)) as P2.
  rewrite H, P2 in P1. injection P1 as <-. reflexivity.
Qed.

(** X7. The chunked byte-string encoder and the SLT array encoder are
    one-to-one: two byte strings with the same chunked encoding are
    equal, and two lists of byte strings with the same array encoding are
    equal, element by element. *)
Theorem encodeAsPlutusArray_injective :
  (forall b1 b2 : bytes,
     SltHash.encodePlutusBuiltinByteString b1 = SltHash.encodePlutusBuiltinByteString b2 ->
     b1 = b2) /\
  (forall items1 items2 : list bytes,
     SltHash.encodeAsPlutusArray items1 = SltHash.encodeAsPlutusArray items2 ->
     items1 = items2).
Proof.
  split.
  - intros b1 b2 H. rewrite !encodePlutusBuiltinByteString_ok in H.
    apply chunked_encoding_injective. congruence.
  - intros items1 items2 H. rewrite !encodeAsPlutusArray_ok in H.
    apply array_encoding_injective.
    assert (H' : [0x9f] ++ concat (map chunked_byte_string items1) ++ [0xff]
                 = [0x9f] ++ concat (map chunked_byte_string items2) ++ [0xff])
      by congruence.
    apply app_inv_head in H'. apply app_inv_tail in H'. exact H'.
Qed.

(** Two SLT lists with the same encoding. *)
Lemma encodeAsPlutusArray_injective_witness :
  [TextEncoder_encode (js "a"); repeat 1 65] = [[97]; repeat 1 (64 + 1)].
Proof.
  apply (proj2 encodeAsPlutusArray_injective). reflexivity.
Defined.

(** ** Tasks *)

Lemma encodePlutusInteger_head n :
  exact_range n ->
  exists h t, TaskHash.encodePlutusInteger n = h :: t /\ 0 <= h < 0x40.
Proof.
  unfold exact_range. intros Hn.
  destruct (Z_lt_ge_dec n 0) as [Hneg | Hpos].
  - pose proof (encodePlutusInteger_negative n ltac:(lia)) as Hl.
    destruct (parse_argument_ladder 0x20 (-1 - n) _ [] ltac:(lia) Hl)
      as (info & tail & -> & Hinfo & _).
    eexists. eexists. split; [reflexivity | lia].
  - pose proof (encodePlutusInteger_nonneg n ltac:(lia)) as Hl.
    destruct (parse_argument_ladder 0 n _ [] ltac:(lia) Hl)
      as (info & tail & -> & Hinfo & _).
    eexists. eexists. split; [reflexivity | lia].
Qed.

Lemma parse_asset_encode a rest :
  exact_range (snd a) -> parse_asset (asset_bytes a ++ rest) = Some (a, rest).
Proof.
  intros Hq. destruct a as [class quantity]. unfold asset_bytes.
  cbn [fst snd app parse_asset] in *. change (0x82 =? 0x82) with true. cbv iota.
  rewrite <- app_assoc, parse_chunked_encode, parse_int_encode by exact Hq.
  reflexivity.
Qed.

Lemma flat_map_asset_item assets :
  flat_map asset_item assets
  = concat (map asset_bytes
              (map (fun asset : TaskHash.NativeAsset =>
                      (TextEncoder_encode (fst asset), snd asset)) assets)).
Proof.
  induction assets as [| asset assets IH]; [reflexivity |].
  cbn [flat_map map concat]. rewrite IH. reflexivity.
Qed.

Lemma parse_assets_encode assets rest :
  Forall (fun asset : TaskHash.NativeAsset => exact_range (snd asset)) assets ->
  parse_assets (assets_field assets ++ rest)
  = Some (map (fun asset : TaskHash.NativeAsset =>
                 (TextEncoder_encode (fst asset), snd asset)) assets, rest).
Proof.
  intros Hr. destruct assets as [| asset assets]; [reflexivity |].
  unfold assets_field. rewrite flat_map_asset_item.
  set (fields := map _ (asset :: assets)).
  cbn [app parse_assets]. change (0x9f =? 0x80) with false.
  change (0x9f =? 0x9f) with true. cbv iota.
  rewrite <- app_assoc. cbn [app].
  apply (parse_list_encode parse_asset asset_bytes (fun a => exact_range (snd a))).
  - intros a r Ha. apply parse_asset_encode. exact Ha.
  - intros a _. eexists. eexists. split; [reflexivity | lia].
  - unfold fields. apply Forall_map. exact Hr.
  - cbn [length]. rewrite length_app.
    assert (Hlen : forall l, (length l <= length (concat (map asset_bytes l)))%nat).
    { induction l as [| x l IHl]; [simpl; lia |].
      cbn [map concat length]. rewrite length_app. unfold asset_bytes at 1.
      cbn [app length]. lia. }
    pose proof (Hlen fields). lia.
Qed.

Lemma parse_task_encode task :
  task_in_range task -> parse_task (task_cbor task) = Some (task_fields task).
Proof.
  intros (He & Hl & Ha). unfold task_cbor.
  cbn [app parse_task].
  rewrite parse_chunked_encode.
  rewrite parse_int_encode by exact He.
  rewrite parse_int_encode by exact Hl.
  rewrite parse_assets_encode by exact Ha.
  reflexivity.
Qed.

Lemma task_encoding_fields (task1 task2 : TaskHash.TaskData) :
  task_in_range task1 -> task_in_range task2 ->
  task_cbor task1 = task_cbor task2 -> task_fields task1 = task_fields task2.
Proof.
  intros H1 H2 Heq.
  pose proof (parse_task_encode task1 H1) as P1.
  pose proof (parse_task_encode task2 H2) as P2.
  rewrite Heq, P2 in P1. congruence.
Qed.

(** X8. On tasks whose numeric fields are integers written exactly
    (-2^53 <= n < 2^64 for the expiration, the lovelace amount and every
    quantity) the task encoder is one-to-one up to the UTF-8 bytes of the
    strings: two such tasks with the same encoding have the same content
    bytes, the same expiration and lovelace amount, and the same assets
    in the same order.  On numbers that are not integers it is not: the
    amounts 1.5 and 1 have the same encoding. *)
Theorem encodeTaskAsPlutusData_injective :
  (forall task1 task2 : TaskHash.TaskData,
     task_in_range task1 -> task_in_range task2 ->
     TaskHashOnNumbers.encodeTaskAsPlutusData (TaskHashOnNumbers.of_task task1)
     = TaskHashOnNumbers.encodeTaskAsPlutusData (TaskHashOnNumbers.of_task task2) ->
     TextEncoder_encode (TaskHash.project_content task1)
     = TextEncoder_encode (TaskHash.project_content task2) /\
     TaskHash.expiration_time task1 = TaskHash.expiration_time task2 /\
     TaskHash.lovelace_amount task1 = TaskHash.lovelace_amount task2 /\
     map (fun asset : TaskHash.NativeAsset =>
            (TextEncoder_encode (fst asset), snd asset))
         (TaskHash.native_assets task1)
     = map (fun asset : TaskHash.NativeAsset =>
              (TextEncoder_encode (fst asset), snd asset))
           (TaskHash.native_assets task2)) /\
  (forall content expiration assets,
     TaskHashOnNumbers.encodeTaskAsPlutusData
       (TaskHashOnNumbers.mkTaskData content expiration (Fraction 3 1) assets)
     = TaskHashOnNumbers.encodeTaskAsPlutusData
         (TaskHashOnNumbers.mkTaskData content expiration (Integer 1) assets)).
Proof.
  split.
  - intros task1 task2 H1 H2 Heq.
    rewrite !encodeTaskAsPlutusData_integer, !encodeTaskAsPlutusData_ok in Heq.
    assert (Hcbor : task_cbor task1 = task_cbor task2) by congruence.
    pose proof (task_encoding_fields task1 task2 H1 H2 Hcbor) as Hf.
    unfold task_fields in Hf. injection Hf as A B C D. repeat split; congruence.
  - intros content expiration assets.
    unfold TaskHashOnNumbers.encodeTaskAsPlutusData.
    cbn [TaskHashOnNumbers.project_content TaskHashOnNumbers.expiration_time
         TaskHashOnNumbers.lovelace_amount TaskHashOnNumbers.native_assets].
    change (TaskHashOnNumbers.encodePlutusInteger (Fraction 3 1))
      with (TaskHashOnNumbers.encodePlutusInteger (Integer 1)).
    reflexivity.
Qed.

(** Two descriptions of the documented task. *)
Lemma encodeTaskAsPlutusData_injective_witness :
  TaskHash.lovelace_amount
    (TaskHash.mkTaskData (js "Open Task #1") 1769027280000 15000000 [(js "a.b", 1)])
  = TaskHash.lovelace_amount
      (TaskHash.mkTaskData (js "Open Task #1") 1769027280000 (15 * 1000000)
         [(js "a.b", 2 - 1)]).
Proof.
  apply (proj1 encodeTaskAsPlutusData_injective
           (TaskHash.mkTaskData (js "Open Task #1") 1769027280000 15000000
              [(js "a.b", 1)])
           (TaskHash.mkTaskData (js "Open Task #1") 1769027280000 (15 * 1000000)
              [(js "a.b", 2 - 1)])).
  - unfold task_in_range, exact_range. cbn.
    split; [lia | split; [lia | repeat constructor; cbn; lia]].
  - unfold task_in_range, exact_range. cbn.
    split; [lia | split; [lia | repeat constructor; cbn; lia]].
  - reflexivity.
Defined.

(* ===================================================================== *)
(** * Text: UTF-8, UTF-16 and hexadecimal digits *)
(* ===================================================================== *)

(** Induction on a list where the step may also use the tail of the tail. *)
Lemma list_pair_induction {A : Type} (P : list A -> Prop) :
  P [] ->
  (forall a l, P l -> (forall b l', l = b :: l' -> P l') -> P (a :: l)) ->
  forall l, P l.
Proof.
  intros Hnil Hstep l.
  assert (H : P l /\ (forall b l', l = b :: l' -> P l')).
  { induction l as [| a l [IH1 IH2]].
    - split; [exact Hnil | discriminate].
    - split; [apply Hstep; assumption |].
      intros b l' Heq. injection Heq as _ <-. exact IH1. }
  exact (proj1 H).
Qed.

Ltac decide_tests :=
  repeat match goal with
  | |- context [?a <=? ?b] =>
      first [ replace (a <=? b) with true by (symmetry; apply Z.leb_le; lia)
            | replace (a <=? b) with false by (symmetry; apply Z.leb_gt; lia) ]
  | |- context [?a <? ?b] =>
      first [ replace (a <? b) with true by (symmetry; apply Z.ltb_lt; lia)
            | replace (a <? b) with false by (symmetry; apply Z.ltb_ge; lia) ]
  | |- context [?a =? ?b] =>
      first [ replace (a =? b) with true by (symmetry; apply Z.eqb_eq; lia)
            | replace (a =? b) with false by (symmetry; apply Z.eqb_neq; lia) ]
  end; cbn [andb orb negb].

(** ** Bit operators of the decoder *)

Lemma land_low_bits b k : 0 <= k -> Z.land b (Z.ones k) = b mod 2 ^ k.
Proof. intros Hk. apply Z.land_ones. exact Hk. Qed.

Lemma lor_shiftl_6 x y : 0 <= y < 64 -> Z.lor (Z.shiftl x 6) y = x * 64 + y.
Proof.
  intros Hy. rewrite Z.shiftl_mul_pow2 by lia.
  assert (Hland : Z.land (x * 2 ^ 6) y = 0).
  { apply Z.bits_inj'. intros n Hn. rewrite Z.land_spec, Z.bits_0.
    destruct (Z_lt_ge_dec n 6) as [Hlow | Hhigh].
    - rewrite Z.mul_pow2_bits_low by lia. reflexivity.
    - assert (Hbit : Z.testbit y n = false).
      { apply Z.testbit_false; [exact Hn |].
        assert (2 ^ 6 <= 2 ^ n) by (apply Z.pow_le_mono_r; lia).
        rewrite Z.div_small by lia. reflexivity. }
      rewrite Hbit. apply andb_false_r. }
  rewrite <- Z.lxor_lor by exact Hland.
  rewrite <- Z.add_nocarry_lxor by exact Hland.
  reflexivity.
Qed.

(** ** Decoding what the encoder writes *)

Lemma utf8_decode_start b rest :
  utf8_decode (b :: rest) None
  = match utf8_lead b with
    | Emit c => c :: utf8_decode rest None
    | Pending p => utf8_decode rest (Some p)
    | Invalid => 0xfffd :: utf8_decode rest None
    end.
Proof. reflexivity. Qed.

Lemma utf8_decode_continue p y rest :
  0 <= y < 64 ->
  lower_boundary p <= 128 + y <= upper_boundary p ->
  utf8_decode ((128 + y) :: rest) (Some p)
  = match bytes_needed p with
    | S (S n) =>
        utf8_decode rest (Some (mkPending (code_point p * 64 + y) (S n) 0x80 0xbf))
    | _ => (code_point p * 64 + y) :: utf8_decode rest None
    end.
Proof.
  intros Hy Hb. cbn [utf8_decode].
  replace (lower_boundary p <=? 128 + y) with true by (symmetry; apply Z.leb_le; lia).
  replace (128 + y <=? upper_boundary p) with true by (symmetry; apply Z.leb_le; lia).
  cbn [andb].
  change 0x3f with (Z.ones 6). rewrite land_low_bits by lia.
  replace ((128 + y) mod 2 ^ 6) with y
    by (change (2 ^ 6) with 64; Z.div_mod_to_equations; lia).
  rewrite lor_shiftl_6 by exact Hy. reflexivity.
Qed.

Lemma utf8_lead_1 c : 0 <= c < 128 -> utf8_lead c = Emit c.
Proof. intros Hc. unfold utf8_lead. decide_tests. reflexivity. Qed.

Lemma utf8_lead_2 x :
  2 <= x < 32 -> utf8_lead (192 + x) = Pending (mkPending x 1 0x80 0xbf).
Proof.
  intros Hx. unfold utf8_lead.
  change 0x1f with (Z.ones 5). rewrite land_low_bits by lia.
  replace ((192 + x) mod 2 ^ 5) with x
    by (change (2 ^ 5) with 32; Z.div_mod_to_equations; lia).
  decide_tests. reflexivity.
Qed.

Lemma utf8_lead_3 x :
  0 <= x < 16 ->
  utf8_lead (224 + x)
  = Pending (mkPending x 2 (if x =? 0 then 0xa0 else 0x80)
                           (if x =? 13 then 0x9f else 0xbf)).
Proof.
  intros Hx. unfold utf8_lead.
  change 0xf with (Z.ones 4). rewrite land_low_bits by lia.
  replace ((224 + x) mod 2 ^ 4) with x
    by (change (2 ^ 4) with 16; Z.div_mod_to_equations; lia).
  replace (224 + x =? 0xe0) with (x =? 0)
    by (destruct (x =? 0) eqn:E; symmetry;
        [apply Z.eqb_eq in E; apply Z.eqb_eq | apply Z.eqb_neq in E; apply Z.eqb_neq]; lia).
  replace (224 + x =? 0xed) with (x =? 13)
    by (destruct (x =? 13) eqn:E; symmetry;
        [apply Z.eqb_eq in E; apply Z.eqb_eq | apply Z.eqb_neq in E; apply Z.eqb_neq]; lia).
  replace (0 <=? 224 + x) with true by (symmetry; apply Z.leb_le; lia).
  replace (224 + x <=? 0x7f) with false by (symmetry; apply Z.leb_gt; lia).
  replace (0xc2 <=? 224 + x) with true by (symmetry; apply Z.leb_le; lia).
  replace (224 + x <=? 0xdf) with false by (symmetry; apply Z.leb_gt; lia).
  replace (0xe0 <=? 224 + x) with true by (symmetry; apply Z.leb_le; lia).
  replace (224 + x <=? 0xef) with true by (symmetry; apply Z.leb_le; lia).
  reflexivity.
Qed.

Lemma utf8_lead_4 x :
  0 <= x <= 4 ->
  utf8_lead (240 + x)
  = Pending (mkPending x 3 (if x =? 0 then 0x90 else 0x80)
                           (if x =? 4 then 0x8f else 0xbf)).
Proof.
  intros Hx. unfold utf8_lead.
  change 0x7 with (Z.ones 3). rewrite land_low_bits by lia.
  replace ((240 + x) mod 2 ^ 3) with x
    by (change (2 ^ 3) with 8; Z.div_mod_to_equations; lia).
  replace (240 + x =? 0xf0) with (x =? 0)
    by (destruct (x =? 0) eqn:E; symmetry;
        [apply Z.eqb_eq in E; apply Z.eqb_eq | apply Z.eqb_neq in E; apply Z.eqb_neq]; lia).
  replace (240 + x =? 0xf4) with (x =? 4)
    by (destruct (x =? 4) eqn:E; symmetry;
        [apply Z.eqb_eq in E; apply Z.eqb_eq | apply Z.eqb_neq in E; apply Z.eqb_neq]; lia).
  replace (0 <=? 240 + x) with true by (symmetry; apply Z.leb_le; lia).
  replace (240 + x <=? 0x7f) with false by (symmetry; apply Z.leb_gt; lia).
  replace (0xc2 <=? 240 + x) with true by (symmetry; apply Z.leb_le; lia).
  replace (240 + x <=? 0xdf) with false by (symmetry; apply Z.leb_gt; lia).
  replace (0xe0 <=? 240 + x) with true by (symmetry; apply Z.leb_le; lia).
  replace (240 + x <=? 0xef) with false by (symmetry; apply Z.leb_gt; lia).
  replace (0xf0 <=? 240 + x) with true by (symmetry; apply Z.leb_le; lia).
  replace (240 + x <=? 0xf4) with true by (symmetry; apply Z.leb_le; lia).
  reflexivity.
Qed.

Lemma utf8_decode_encode c rest :
  is_scalar c ->
  utf8_decode (utf8_of_code_point c ++ rest) None = c :: utf8_decode rest None.
Proof.
  intros [Hrange Hsur]. unfold utf8_of_code_point.
  zcompare c 128; [| zcompare c 2048; [| zcompare c 65536]].
  - cbn [app]. rewrite utf8_decode_start, utf8_lead_1 by lia. reflexivity.
  - cbn [app]. rewrite utf8_decode_start.
    rewrite utf8_lead_2 by (Z.div_mod_to_equations; lia).
    rewrite utf8_decode_continue
      by (cbn [lower_boundary upper_boundary]; Z.div_mod_to_equations; lia).
    cbn [bytes_needed code_point]. f_equal. Z.div_mod_to_equations; lia.
  - cbn [app]. rewrite utf8_decode_start.
    rewrite utf8_lead_3 by (Z.div_mod_to_equations; lia).
    rewrite utf8_decode_continue.
    + cbn [bytes_needed code_point].
      rewrite utf8_decode_continue
        by (cbn [lower_boundary upper_boundary]; Z.div_mod_to_equations; lia).
      cbn [bytes_needed code_point]. f_equal. Z.div_mod_to_equations; lia.
    + Z.div_mod_to_equations; lia.
    + cbn [lower_boundary upper_boundary].
      destruct (c / 4096 =? 0) eqn:Hzero;
        [apply Z.eqb_eq in Hzero | apply Z.eqb_neq in Hzero];
        (destruct (c / 4096 =? 13) eqn:Hlast;
          [apply Z.eqb_eq in Hlast | apply Z.eqb_neq in Hlast]);
        Z.div_mod_to_equations; lia.
  - cbn [app]. rewrite utf8_decode_start.
    rewrite utf8_lead_4 by (Z.div_mod_to_equations; lia).
    rewrite utf8_decode_continue.
    + cbn [bytes_needed code_point].
      rewrite utf8_decode_continue
        by (cbn [lower_boundary upper_boundary]; Z.div_mod_to_equations; lia).
      cbn [bytes_needed code_point].
      rewrite utf8_decode_continue
        by (cbn [lower_boundary upper_boundary]; Z.div_mod_to_equations; lia).
      cbn [bytes_needed code_point]. f_equal. Z.div_mod_to_equations; lia.
    + Z.div_mod_to_equations; lia.
    + cbn [lower_boundary upper_boundary].
      destruct (c / 262144 =? 0) eqn:Hzero;
        [apply Z.eqb_eq in Hzero | apply Z.eqb_neq in Hzero];
        (destruct (c / 262144 =? 4) eqn:Hlast;
          [apply Z.eqb_eq in Hlast | apply Z.eqb_neq in Hlast]);
        Z.div_mod_to_equations; lia.
Qed.

Lemma utf8_decode_scalars cps :
  Forall is_scalar cps ->
  utf8_decode (flat_map utf8_of_code_point cps) None = cps.
Proof.
  induction 1 as [| c cps Hc _ IH]; [reflexivity |].
  cbn [flat_map]. rewrite utf8_decode_encode by exact Hc. rewrite IH. reflexivity.
Qed.

Lemma utf8_of_code_point_bytes c :
  is_scalar c -> byte_values (utf8_of_code_point c).
Proof.
  intros [Hrange _]. unfold utf8_of_code_point, byte_values.
  zcompare c 128; [| zcompare c 2048; [| zcompare c 65536]];
    repeat constructor; Z.div_mod_to_equations; lia.
Qed.

(** ** Surrogates *)

Lemma high_surrogate_range c :
  is_high_surrogate c = true <-> 55296 <= c <= 56319.
Proof.
  unfold is_high_surrogate. rewrite andb_true_iff, !Z.leb_le. tauto.
Qed.

Lemma low_surrogate_range c :
  is_low_surrogate c = true <-> 56320 <= c <= 57343.
Proof.
  unfold is_low_surrogate. rewrite andb_true_iff, !Z.leb_le. tauto.
Qed.

Lemma not_high_surrogate c :
  is_high_surrogate c = false <-> ~ (55296 <= c <= 56319).
Proof.
  rewrite <- high_surrogate_range. destruct (is_high_surrogate c); split; congruence.
Qed.

Lemma not_low_surrogate c :
  is_low_surrogate c = false <-> ~ (56320 <= c <= 57343).
Proof.
  rewrite <- low_surrogate_range. destruct (is_low_surrogate c); split; congruence.
Qed.

Lemma code_units_test s :
  forallb (fun c => (0 <=? c) && (c <? 65536)) s = true -> code_units s.
Proof.
  intros H. unfold code_units. apply Forall_forall. intros c Hc.
  rewrite forallb_forall in H. specialize (H c Hc).
  apply andb_true_iff in H. destruct H as [H1 H2].
  apply Z.leb_le in H1. apply Z.ltb_lt in H2. lia.
Qed.

Lemma well_formed_test s :
  forallb (fun c => (0 <=? c) && (c <? 65536)) s && isWellFormed s = true ->
  well_formed s.
Proof.
  intros H. apply andb_true_iff in H. destruct H as [H1 H2].
  split; [apply code_units_test; exact H1 | exact H2].
Qed.

Lemma replacement_scalar : is_scalar 0xfffd.
Proof. unfold is_scalar. lia. Qed.

Lemma TextEncoder_scalars s :
  TextEncoder_encode s = flat_map utf8_of_code_point (scalar_values s).
Proof.
  induction s as [| a l IH1 IH2] using list_pair_induction; [reflexivity |].
  cbn [TextEncoder_encode scalar_values].
  destruct (is_high_surrogate a).
  - destruct l as [| d l']; [cbn [flat_map]; rewrite app_nil_r; reflexivity |].
    destruct (is_low_surrogate d); cbn [flat_map].
    + rewrite (IH2 d l' eq_refl). reflexivity.
    + rewrite IH1. reflexivity.
  - destruct (is_low_surrogate a); cbn [flat_map]; rewrite IH1; reflexivity.
Qed.

Lemma scalar_values_scalar s :
  code_units s -> Forall is_scalar (scalar_values s).
Proof.
  unfold code_units.
  induction s as [| a l IH1 IH2] using list_pair_induction; [constructor |].
  intros Hu. apply Forall_cons_iff in Hu. destruct Hu as [Ha Hl].
  cbn [scalar_values].
  destruct (is_high_surrogate a) eqn:Hh.
  - apply high_surrogate_range in Hh.
    destruct l as [| d l']; [repeat constructor; apply replacement_scalar |].
    destruct (is_low_surrogate d) eqn:Hd.
    + apply low_surrogate_range in Hd.
      apply Forall_cons_iff in Hl. destruct Hl as [_ Hl'].
      constructor; [unfold is_scalar; lia | exact (IH2 d l' eq_refl Hl')].
    + constructor; [apply replacement_scalar | exact (IH1 Hl)].
  - apply not_high_surrogate in Hh.
    destruct (is_low_surrogate a) eqn:Hlow.
    + constructor; [apply replacement_scalar | exact (IH1 Hl)].
    + apply not_low_surrogate in Hlow.
      constructor; [unfold is_scalar; lia | exact (IH1 Hl)].
Qed.

Lemma utf16_scalars s :
  code_units s -> flat_map utf16_of_code_point (scalar_values s) = toWellFormed s.
Proof.
  unfold code_units.
  induction s as [| a l IH1 IH2] using list_pair_induction; [reflexivity |].
  intros Hu. apply Forall_cons_iff in Hu. destruct Hu as [Ha Hl].
  cbn [scalar_values toWellFormed].
  destruct (is_high_surrogate a) eqn:Hh.
  - apply high_surrogate_range in Hh.
    destruct l as [| d l']; [reflexivity |].
    destruct (is_low_surrogate d) eqn:Hd.
    + apply low_surrogate_range in Hd.
      apply Forall_cons_iff in Hl. destruct Hl as [_ Hl'].
      cbn [flat_map]. rewrite (IH2 d l' eq_refl Hl').
      unfold utf16_of_code_point.
      replace (65536 + (a - 55296) * 1024 + (d - 56320) <? 0x10000) with false
        by (symmetry; apply Z.ltb_ge; lia).
      cbn [app]. f_equal; [| f_equal]; Z.div_mod_to_equations; lia.
    + cbn [flat_map]. rewrite (IH1 Hl). reflexivity.
  - destruct (is_low_surrogate a) eqn:Hlow.
    + cbn [flat_map]. rewrite (IH1 Hl). reflexivity.
    + cbn [flat_map]. rewrite (IH1 Hl). unfold utf16_of_code_point.
      replace (a <? 0x10000) with true by (symmetry; apply Z.ltb_lt; lia).
      reflexivity.
Qed.

Lemma toWellFormed_id s : isWellFormed s = true -> toWellFormed s = s.
Proof.
  induction s as [| a l IH1 IH2] using list_pair_induction; [reflexivity |].
  cbn [isWellFormed toWellFormed].
  destruct (is_high_surrogate a).
  - destruct l as [| d l']; [discriminate |].
    destruct (is_low_surrogate d); cbn [andb]; [| discriminate].
    intros H. rewrite (IH2 d l' eq_refl H). reflexivity.
  - destruct (is_low_surrogate a); cbn [negb andb]; [discriminate |].
    intros H. rewrite (IH1 H). reflexivity.
Qed.

(** ** The byte order mark *)

Lemma drop_bom_other c rest : c <> 0xfeff -> drop_bom (c :: rest) = c :: rest.
Proof.
  intros Hc. destruct c as [| p | p]; try reflexivity.
  do 16 (destruct p as [p | p |]; try reflexivity).
  exfalso. apply Hc. reflexivity.
Qed.

Lemma drop_bom_utf16 cps :
  Forall is_scalar cps ->
  flat_map utf16_of_code_point (drop_bom cps)
  = drop_bom (flat_map utf16_of_code_point cps).
Proof.
  intros H. destruct H as [| c cps [Hrange Hsur] _]; [reflexivity |].
  destruct (Z.eq_dec c 0xfeff) as [-> | Hne]; [reflexivity |].
  rewrite drop_bom_other by exact Hne.
  cbn [flat_map].
  assert (Hhead : exists h t, utf16_of_code_point c = h :: t /\ h <> 0xfeff).
  { unfold utf16_of_code_point. destruct (c <? 0x10000) eqn:E.
    - exists c, []. split; [reflexivity | exact Hne].
    - apply Z.ltb_ge in E. eexists. eexists. split; [reflexivity |].
      Z.div_mod_to_equations; lia. }
  destruct Hhead as (h & t & -> & Hh). cbn [app].
  rewrite drop_bom_other by exact Hh. reflexivity.
Qed.

Lemma TextDecoder_TextEncoder s :
  code_units s ->
  TextDecoder_decode (TextEncoder_encode s) = drop_bom (toWellFormed s).
Proof.
  intros Hu.
  change (TextDecoder_decode (TextEncoder_encode s))
    with (flat_map utf16_of_code_point
            (drop_bom (utf8_decode (TextEncoder_encode s) None))).
  pose proof (scalar_values_scalar s Hu) as Hs.
  rewrite TextEncoder_scalars, utf8_decode_scalars by exact Hs.
  rewrite drop_bom_utf16 by exact Hs.
  rewrite utf16_scalars by exact Hu. reflexivity.
Qed.

Lemma TextEncoder_bytes s : code_units s -> byte_values (TextEncoder_encode s).
Proof.
  intros Hu. rewrite TextEncoder_scalars.
  pose proof (scalar_values_scalar s Hu) as Hs.
  unfold byte_values. induction Hs as [| c cps Hc _ IH]; [constructor |].
  cbn [flat_map]. apply Forall_app. split; [apply utf8_of_code_point_bytes; exact Hc | exact IH].
Qed.

(** ** Hexadecimal digits read back *)

Lemma in_byte_range b : 0 <= b < 256 -> In b (map Z.of_nat (seq 0 256)).
Proof.
  intros Hb. apply in_map_iff. exists (Z.to_nat b).
  split; [lia | apply in_seq; lia].
Qed.

Lemma parseInt16_hex_byte b : 0 <= b < 256 -> parseInt16 (hex_byte b) = Some b.
Proof.
  intros Hb.
  assert (Hall : forallb (fun x => match parseInt16 (hex_byte x) with
                                   | Some v => v =? x
                                   | None => false
                                   end) (map Z.of_nat (seq 0 256)) = true)
    by (vm_compute; reflexivity).
  rewrite forallb_forall in Hall. specialize (Hall b (in_byte_range b Hb)).
  destruct (parseInt16 (hex_byte b)) as [v |]; [| discriminate].
  apply Z.eqb_eq in Hall. subst v. reflexivity.
Qed.

Lemma match_pairs_hex_byte b rest :
  0 <= b < 256 -> match_pairs (hex_byte b ++ rest) = hex_byte b :: match_pairs rest.
Proof.
  intros Hb.
  assert (Hall : forallb (fun x => forallb (fun c => negb (is_line_terminator c))
                                     (hex_byte x))
                   (map Z.of_nat (seq 0 256)) = true)
    by (vm_compute; reflexivity).
  rewrite forallb_forall in Hall. specialize (Hall b (in_byte_range b Hb)).
  unfold hex_byte in *. cbn [forallb app] in *.
  apply andb_true_iff in Hall. destruct Hall as [H1 H2].
  apply andb_true_iff in H2. destruct H2 as [H2 _].
  apply negb_true_iff in H1, H2.
  cbn [match_pairs]. rewrite H1, H2. reflexivity.
Qed.

Lemma match_pairs_hex bs :
  byte_values bs -> match_pairs (flat_map hex_byte bs) = map hex_byte bs.
Proof.
  induction 1 as [| b bs Hb _ IH]; [reflexivity |].
  cbn [flat_map map]. rewrite match_pairs_hex_byte by exact Hb.
  rewrite IH. reflexivity.
Qed.

Lemma hex_read_back bs :
  byte_values bs ->
  Uint8Array_from
    (match String_match_pairs (flat_map hex_byte bs) with
     | Some pairs => map parseInt16 pairs
     | None => []
     end) = bs.
Proof.
  intros Hb. unfold String_match_pairs. rewrite match_pairs_hex by exact Hb.
  destruct Hb as [| b bs Hb Hbs]; [reflexivity |].
  cbn [map]. unfold Uint8Array_from. cbn [map].
  rewrite parseInt16_hex_byte by exact Hb.
  rewrite toUint8_byte by exact Hb. f_equal.
  induction Hbs as [| x xs Hx _ IH]; [reflexivity |].
  cbn [map]. rewrite parseInt16_hex_byte by exact Hx.
  rewrite toUint8_byte by exact Hx. rewrite IH. reflexivity.
Qed.

Lemma hex_of_bytes bs :
  byte_values bs ->
  length (flat_map hex_byte bs) = (2 * length bs)%nat /\
  forallb is_hex_unit (flat_map hex_byte bs) = true.
Proof.
  intros Hb. destruct (toHex_digest bs Hb) as [Hlen Hhex].
  unfold Blake.toHex in *. split; [exact Hlen |].
  apply forallb_forall. intros c Hc. apply lower_hex_is_hex.
  rewrite forallb_forall in Hhex. apply Hhex. exact Hc.
Qed.

(** ** Asset names *)

(** X9. An asset name made from a string is valid exactly when the
    string has at most 32 bytes of UTF-8; it has two lower-case
    hexadecimal digits for each byte. *)
Theorem stringToAssetName_valid (str : jsstring) :
  code_units str ->
  length (Policies.stringToAssetName str)
  = (2 * length (TextEncoder_encode str))%nat /\
  forallb is_lower_hex_unit (Policies.stringToAssetName str) = true /\
  Policies.isValidAssetName (Policies.stringToAssetName str)
  = (length (TextEncoder_encode str) <=? 32)%nat.
Proof.
  intros Hu. pose proof (TextEncoder_bytes str Hu) as Hb.
  unfold Policies.stringToAssetName.
  destruct (toHex_digest _ Hb) as [Hlen Hlower]. unfold Blake.toHex in *.
  destruct (hex_of_bytes _ Hb) as [_ Hhex].
  split; [exact Hlen | split; [exact Hlower |]].
  unfold Policies.isValidAssetName, Policies.regex_hex_any.
  rewrite Hlen, Hhex.
  replace ((2 * length (TextEncoder_encode str)) mod 2)%nat with 0%nat
    by (symmetry; rewrite Nat.mul_comm; apply Nat.Div0.mod_mul).
  cbn [Nat.eqb negb].
  destruct (length (TextEncoder_encode str) <=? 32)%nat eqn:E.
  - apply Nat.leb_le in E.
    replace (64 <? 2 * length (TextEncoder_encode str))%nat with false
      by (symmetry; apply Nat.ltb_ge; lia).
    reflexivity.
  - apply Nat.leb_gt in E.
    replace (64 <? 2 * length (TextEncoder_encode str))%nat with true
      by (symmetry; apply Nat.ltb_lt; lia).
    reflexivity.
Qed.

(** A name of 33 letters is not a valid asset name once converted. *)
Lemma stringToAssetName_valid_witness :
  Policies.isValidAssetName (Policies.stringToAssetName (repeat 97%Z 33))
  = (length (TextEncoder_encode (repeat 97%Z 33)) <=? 32)%nat.
Proof.
  apply (stringToAssetName_valid (repeat 97%Z 33)).
  apply code_units_test. reflexivity.
Defined.

(** X10. Converting a string to an asset name and back gives the string
    with every lone surrogate replaced by U+FFFD and without a leading
    U+FEFF; a well-formed string comes back unchanged but for a leading
    U+FEFF. *)
Theorem assetNameToString_stringToAssetName (str : jsstring) :
  code_units str ->
  Policies.assetNameToString (Policies.stringToAssetName str)
  = drop_bom (toWellFormed str) /\
  (isWellFormed str = true ->
   Policies.assetNameToString (Policies.stringToAssetName str) = drop_bom str).
Proof.
  intros Hu.
  assert (Hback : Policies.assetNameToString (Policies.stringToAssetName str)
                  = drop_bom (toWellFormed str)).
  { unfold Policies.assetNameToString, Policies.stringToAssetName.
    rewrite hex_read_back by (apply TextEncoder_bytes; exact Hu).
    apply TextDecoder_TextEncoder. exact Hu. }
  split; [exact Hback |].
  intros Hwf. rewrite Hback, toWellFormed_id by exact Hwf. reflexivity.
Qed.

(** A name with an accent and a character outside the basic plane, and
    one that starts with U+FEFF. *)
Lemma assetNameToString_stringToAssetName_witness :
  Policies.assetNameToString
    (Policies.stringToAssetName [67; 233; 8364; 55357; 56832])
  = drop_bom [67; 233; 8364; 55357; 56832] /\
  Policies.assetNameToString (Policies.stringToAssetName [0xfeff; 97])
  = drop_bom (toWellFormed [0xfeff; 97]).
Proof.
  split.
  - refine (proj2 (assetNameToString_stringToAssetName
                     [67; 233; 8364; 55357; 56832] _) eq_refl).
    apply code_units_test. reflexivity.
  - refine (proj1 (assetNameToString_stringToAssetName [0xfeff; 97] _)).
    apply code_units_test. reflexivity.
Defined.

(* ===================================================================== *)
(** * Hashes and their inputs *)
(* ===================================================================== *)

(** ** Lone surrogates *)

Lemma surrogate_head_cases a l :
  (exists d l', l = d :: l' /\
     is_high_surrogate a = true /\ is_low_surrogate d = true) \/
  (toWellFormed (a :: l) = 0xfffd :: toWellFormed l /\
   scalar_values (a :: l) = 0xfffd :: scalar_values l /\
   isWellFormed (a :: l) = false /\
   (is_high_surrogate a = true \/ is_low_surrogate a = true)) \/
  (is_high_surrogate a = false /\ is_low_surrogate a = false).
Proof.
  destruct (is_high_surrogate a) eqn:Hh.
  - destruct l as [| d l'].
    + right. left. cbn [toWellFormed scalar_values isWellFormed]. rewrite Hh.
      repeat split; auto.
    + destruct (is_low_surrogate d) eqn:Hd.
      * left. exists d, l'. repeat split; assumption.
      * right. left. cbn [toWellFormed scalar_values isWellFormed].
        rewrite Hh, Hd. repeat split; auto.
  - destruct (is_low_surrogate a) eqn:Hlow.
    + right. left. cbn [toWellFormed scalar_values isWellFormed].
      rewrite Hh, Hlow. repeat split; auto.
    + right. right. split; reflexivity.
Qed.

Lemma scalar_values_replacement t :
  scalar_values (0xfffd :: t) = 0xfffd :: scalar_values t.
Proof. reflexivity. Qed.

Lemma scalar_values_toWellFormed s :
  scalar_values (toWellFormed s) = scalar_values s.
Proof.
  induction s as [| a l IH1 IH2] using list_pair_induction; [reflexivity |].
  destruct (surrogate_head_cases a l)
    as [(d & l' & -> & Hh & Hd) | [(Htw & Hsv & _ & _) | (Hh & Hlow)]].
  - cbn [toWellFormed]. rewrite Hh, Hd.
    cbn [scalar_values]. rewrite Hh, Hd.
    rewrite (IH2 d l' eq_refl). reflexivity.
  - rewrite Htw, Hsv, scalar_values_replacement, IH1. reflexivity.
  - cbn [toWellFormed]. rewrite Hh, Hlow.
    cbn [scalar_values]. rewrite Hh, Hlow, IH1. reflexivity.
Qed.

Lemma TextEncoder_toWellFormed s :
  TextEncoder_encode (toWellFormed s) = TextEncoder_encode s.
Proof. rewrite !TextEncoder_scalars, scalar_values_toWellFormed. reflexivity. Qed.

Lemma toWellFormed_fixed s : toWellFormed s = s -> isWellFormed s = true.
Proof.
  induction s as [| a l IH1 IH2] using list_pair_induction; [reflexivity |].
  destruct (surrogate_head_cases a l)
    as [(d & l' & -> & Hh & Hd) | [(Htw & _ & _ & Hsur) | (Hh & Hlow)]].
  - cbn [toWellFormed isWellFormed]. rewrite Hh, Hd. cbn [andb].
    intros H. injection H as H. exact (IH2 d l' eq_refl H).
  - rewrite Htw. intros H. injection H as <- _.
    destruct Hsur as [Hsur | Hsur]; vm_compute in Hsur; discriminate Hsur.
  - cbn [toWellFormed isWellFormed]. rewrite Hh, Hlow. cbn [negb andb].
    intros H. injection H as H. exact (IH1 H).
Qed.

Lemma computeSltHash_ok slts :
  SltHash.computeSltHash slts
  = Ok (Blake.blake2bHex32
          ([0x9f] ++ concat (map chunked_byte_string (map TextEncoder_encode slts))
           ++ [0xff])).
Proof.
  unfold SltHash.computeSltHash. rewrite encodeAsPlutusArray_ok. reflexivity.
Qed.

Lemma computeTaskHash_ok task :
  TaskHash.computeTaskHash task = Ok (Blake.blake2bHex32 (task_cbor task)).
Proof.
  unfold TaskHash.computeTaskHash. rewrite encodeTaskAsPlutusData_ok. reflexivity.
Qed.

(** X11. The SLT hash and the task hash do not see lone surrogates: a
    string and the string with each lone surrogate replaced by U+FFFD
    give the same hash, and the two strings differ whenever the first one
    is not well formed. *)
Theorem hash_ignores_lone_surrogates :
  (forall slts : list jsstring,
     SltHash.computeSltHash (map toWellFormed slts) = SltHash.computeSltHash slts) /\
  (forall (content : jsstring) (expiration lovelace : Z)
          (assets : list TaskHash.NativeAsset),
     TaskHash.computeTaskHash
       (TaskHash.mkTaskData (toWellFormed content) expiration lovelace
          (map (fun asset : TaskHash.NativeAsset =>
                  (toWellFormed (fst asset), snd asset)) assets))
     = TaskHash.computeTaskHash
         (TaskHash.mkTaskData content expiration lovelace assets)) /\
  (forall s : jsstring, isWellFormed s = false -> toWellFormed s <> s).
Proof.
  split; [| split].
  - intros slts. rewrite !computeSltHash_ok.
    rewrite (map_map toWellFormed TextEncoder_encode).
    rewrite (map_ext (fun s => TextEncoder_encode (toWellFormed s)) TextEncoder_encode)
      by (intros s; apply TextEncoder_toWellFormed).
    reflexivity.
  - intros content expiration lovelace assets.
    rewrite !computeTaskHash_ok. unfold task_cbor.
    cbn [TaskHash.project_content TaskHash.expiration_time
         TaskHash.lovelace_amount TaskHash.native_assets].
    rewrite TextEncoder_toWellFormed.
    assert (Hassets : assets_field
                        (map (fun asset : TaskHash.NativeAsset =>
                                (toWellFormed (fst asset), snd asset)) assets)
                      = assets_field assets).
    { destruct assets as [| asset assets]; [reflexivity |].
      unfold assets_field. cbn [map]. f_equal. f_equal.
      change (?x :: map ?f assets) with (map f (asset :: assets)).
      generalize (asset :: assets) as l. intros l.
      induction l as [| x l IH]; [reflexivity |].
      cbn [map flat_map]. rewrite IH. unfold asset_item at 1 3.
      cbn [fst snd]. rewrite TextEncoder_toWellFormed. reflexivity. }
    rewrite Hassets. reflexivity.
  - intros s Hs Heq. apply toWellFormed_fixed in Heq. congruence.
Qed.

(** A lone high surrogate. *)
Lemma hash_ignores_lone_surrogates_witness :
  toWellFormed [0xd800; 97] <> [0xd800; 97].
Proof.
  apply (proj2 (proj2 hash_ignores_lone_surrogates)). reflexivity.
Defined.

(** ** Bytes *)

Lemma Forall_firstn_skipn {A : Type} (P : A -> Prop) n l :
  Forall P l -> Forall P (firstn n l) /\ Forall P (skipn n l).
Proof.
  intros H. rewrite <- (firstn_skipn n l) in H. apply Forall_app in H. exact H.
Qed.

Lemma definite_byte_string_bytes b :
  (length b <= 255)%nat -> byte_values b -> byte_values (definite_byte_string b).
Proof.
  intros Hlen Hb. unfold definite_byte_string, byte_string_header, byte_values.
  apply Forall_app. split; [| exact Hb].
  destruct (Z.of_nat (length b) <=? 23) eqn:E.
  - apply Z.leb_le in E. repeat constructor; lia.
  - destruct (Z.of_nat (length b) <=? 255) eqn:E2.
    + repeat constructor; lia.
    + apply Z.leb_gt in E2. lia.
Qed.

Lemma chunked_byte_string_bytes b :
  byte_values b -> byte_values (chunked_byte_string b).
Proof.
  intros Hb. unfold chunked_byte_string.
  destruct (length b <=? 64)%nat eqn:E.
  - apply Nat.leb_le in E. apply definite_byte_string_bytes; [lia | exact Hb].
  - unfold byte_values. apply Forall_app. split; [repeat constructor; lia |].
    apply Forall_app. split; [| repeat constructor; lia].
    apply Forall_concat. apply Forall_map. apply Forall_forall. intros k _.
    apply definite_byte_string_bytes.
    + pose proof (length_slice64 b k). lia.
    + unfold slice64.
      apply (Forall_firstn_skipn _ 64). apply (Forall_firstn_skipn _ (64 * k)).
      exact Hb.
Qed.

Lemma encodePlutusInteger_bytes n : byte_values (TaskHash.encodePlutusInteger n).
Proof.
  assert (Hu : forall xs, byte_values (Uint8Array_of xs)).
  { intros xs. unfold byte_values, Uint8Array_of. apply Forall_map.
    apply Forall_forall. intros x _. unfold toUint8. apply Z.mod_pos_bound. lia. }
  assert (H64 : forall header v, 0 <= header < 256 ->
                  byte_values (TaskHash.encode_uint64 header v)).
  { intros header v Hh. rewrite encode_uint64_eq by exact Hh.
    constructor; [exact Hh | apply be_bytes_range]. }
  unfold TaskHash.encodePlutusInteger.
  repeat match goal with
         | |- context [if ?c then _ else _] => destruct c
         end; try apply Hu; apply H64; lia.
Qed.

Lemma asset_item_bytes (asset : TaskHash.NativeAsset) :
  code_units (fst asset) -> byte_values (asset_item asset).
Proof.
  intros Hu. unfold asset_item, byte_values.
  apply Forall_app. split; [repeat constructor; lia |].
  apply Forall_app. split; [| apply encodePlutusInteger_bytes].
  apply chunked_byte_string_bytes, TextEncoder_bytes. exact Hu.
Qed.

Lemma assets_field_bytes (assets : list TaskHash.NativeAsset) :
  Forall (fun asset : TaskHash.NativeAsset => code_units (fst asset)) assets ->
  byte_values (assets_field assets).
Proof.
  intros Ha. unfold assets_field, byte_values.
  destruct assets as [| asset assets]; [repeat constructor; lia |].
  apply Forall_app. split; [repeat constructor; lia |].
  apply Forall_app. split; [| repeat constructor; lia].
  apply Forall_flat_map. apply Forall_impl with (2 := Ha).
  intros a Hu. apply asset_item_bytes. exact Hu.
Qed.

Lemma task_cbor_bytes task :
  task_strings code_units task -> byte_values (task_cbor task).
Proof.
  intros [Hc Ha]. unfold task_cbor, byte_values.
  apply Forall_app. split; [repeat constructor; lia |].
  apply Forall_app. split; [repeat constructor; lia |].
  apply Forall_app. split;
    [apply chunked_byte_string_bytes, TextEncoder_bytes; exact Hc |].
  apply Forall_app. split; [apply encodePlutusInteger_bytes |].
  apply Forall_app. split; [apply encodePlutusInteger_bytes |].
  apply Forall_app. split; [apply assets_field_bytes; exact Ha |].
  repeat constructor; lia.
Qed.

Lemma slt_cbor_bytes slts :
  Forall code_units slts ->
  byte_values ([0x9f] ++ concat (map chunked_byte_string (map TextEncoder_encode slts))
               ++ [0xff]).
Proof.
  intros Hs. unfold byte_values.
  apply Forall_app. split; [repeat constructor; lia |].
  apply Forall_app. split; [| repeat constructor; lia].
  apply Forall_concat. rewrite map_map. apply Forall_map.
  apply Forall_impl with (P := code_units); [| exact Hs].
  intros s Hu. apply chunked_byte_string_bytes, TextEncoder_bytes. exact Hu.
Qed.

(** ** Equal hashes *)

Lemma TextEncoder_read_back s :
  well_formed s ->
  flat_map utf16_of_code_point (utf8_decode (TextEncoder_encode s) None) = s.
Proof.
  intros [Hu Hwf].
  rewrite TextEncoder_scalars, utf8_decode_scalars
    by (apply scalar_values_scalar; exact Hu).
  rewrite utf16_scalars by exact Hu. apply toWellFormed_id. exact Hwf.
Qed.

Lemma TextEncoder_injective s1 s2 :
  well_formed s1 -> well_formed s2 ->
  TextEncoder_encode s1 = TextEncoder_encode s2 -> s1 = s2.
Proof.
  intros H1 H2 Heq.
  rewrite <- (TextEncoder_read_back s1 H1), <- (TextEncoder_read_back s2 H2), Heq.
  reflexivity.
Qed.

Lemma map_TextEncoder_injective l1 : forall l2,
  Forall well_formed l1 -> Forall well_formed l2 ->
  map TextEncoder_encode l1 = map TextEncoder_encode l2 -> l1 = l2.
Proof.
  induction l1 as [| s1 l1 IH]; intros [| s2 l2] H1 H2 Heq;
    try discriminate; [reflexivity |].
  cbn [map] in Heq. injection Heq as Hs Hl.
  apply Forall_cons_iff in H1, H2. destruct H1 as [Hs1 Hl1], H2 as [Hs2 Hl2].
  f_equal; [apply TextEncoder_injective; assumption | apply IH; assumption].
Qed.

Lemma assets_injective (l1 : list TaskHash.NativeAsset) : forall l2,
  Forall (fun asset : TaskHash.NativeAsset => well_formed (fst asset)) l1 ->
  Forall (fun asset : TaskHash.NativeAsset => well_formed (fst asset)) l2 ->
  map (fun asset : TaskHash.NativeAsset => (TextEncoder_encode (fst asset), snd asset)) l1
  = map (fun asset : TaskHash.NativeAsset => (TextEncoder_encode (fst asset), snd asset)) l2 ->
  l1 = l2.
Proof.
  induction l1 as [| [c1 q1] l1 IH]; intros [| [c2 q2] l2] H1 H2 Heq;
    try discriminate; [reflexivity |].
  cbn [map fst snd] in Heq. injection Heq as Hc Hq Hl.
  apply Forall_cons_iff in H1, H2. destruct H1 as [Hs1 Hl1], H2 as [Hs2 Hl2].
  cbn [fst] in Hs1, Hs2.
  f_equal; [| apply IH; assumption].
  f_equal; [apply TextEncoder_injective; assumption | exact Hq].
Qed.

(** X12. Two lists of well-formed strings with the same SLT encoding
    are the same list.  So two such lists with the same SLT hash are the
    same list, unless their two encodings differ and have the same
    BLAKE2b-256 digest. *)
Theorem computeSltHash_collision_free (slts1 slts2 : list jsstring) :
  Forall well_formed slts1 -> Forall well_formed slts2 ->
  (SltHash.encodeAsPlutusArray (map TextEncoder_encode slts1)
   = SltHash.encodeAsPlutusArray (map TextEncoder_encode slts2) ->
   slts1 = slts2) /\
  (SltHash.computeSltHash slts1 = SltHash.computeSltHash slts2 ->
   slts1 = slts2 \/
   exists cbor1 cbor2 : bytes,
     SltHash.encodeAsPlutusArray (map TextEncoder_encode slts1) = Ok cbor1 /\
     SltHash.encodeAsPlutusArray (map TextEncoder_encode slts2) = Ok cbor2 /\
     digest_collision cbor1 cbor2).
Proof.
  intros H1 H2.
  assert (Hinj : SltHash.encodeAsPlutusArray (map TextEncoder_encode slts1)
                 = SltHash.encodeAsPlutusArray (map TextEncoder_encode slts2) ->
                 slts1 = slts2).
  { rewrite !encodeAsPlutusArray_ok. intros Hsame.
    apply Ok_injective in Hsame.
    apply app_inv_head in Hsame. apply app_inv_tail in Hsame.
    apply array_encoding_injective in Hsame.
    apply map_TextEncoder_injective; assumption. }
  split; [exact Hinj |].
  intros Heq. rewrite !computeSltHash_ok in Heq. apply Ok_injective in Heq.
  set (cbor1 := [0x9f] ++ concat (map chunked_byte_string
                                    (map TextEncoder_encode slts1)) ++ [0xff]) in *.
  set (cbor2 := [0x9f] ++ concat (map chunked_byte_string
                                    (map TextEncoder_encode slts2)) ++ [0xff]) in *.
  destruct (list_eq_dec Z.eq_dec cbor1 cbor2) as [Hsame | Hdiff].
  - left. apply Hinj. rewrite !encodeAsPlutusArray_ok. fold cbor1 cbor2.
    rewrite Hsame. reflexivity.
  - right. exists cbor1, cbor2.
    split; [apply encodeAsPlutusArray_ok |].
    split; [apply encodeAsPlutusArray_ok |].
    split; [exact Hdiff | exact Heq].
Qed.

(** The list of the reference example against itself. *)
Lemma computeSltHash_collision_free_witness :
  [js "I can mint an access token."; js "I can complete an assignment"]
  = [js "I can mint an access token."; js "I can complete an assignment"].
Proof.
  apply (proj1 (computeSltHash_collision_free
           [js "I can mint an access token."; js "I can complete an assignment"]
           [js "I can mint an access token."; js "I can complete an assignment"]
           ltac:(repeat (apply Forall_cons; [apply well_formed_test; reflexivity |]);
                 apply Forall_nil)
           ltac:(repeat (apply Forall_cons; [apply well_formed_test; reflexivity |]);
                 apply Forall_nil))).
  reflexivity.
Defined.

(** X13. Two tasks with well-formed strings whose numeric fields are
    integers written exactly (-2^53 <= n < 2^64) and which have the same
    encoding are the same task.  So two such tasks with the same task
    hash are the same task, unless their two encodings differ and have
    the same BLAKE2b-256 digest. *)
Theorem computeTaskHash_collision_free (task1 task2 : TaskHash.TaskData) :
  task_in_range task1 -> task_in_range task2 ->
  task_strings well_formed task1 -> task_strings well_formed task2 ->
  (TaskHashOnNumbers.encodeTaskAsPlutusData (TaskHashOnNumbers.of_task task1)
   = TaskHashOnNumbers.encodeTaskAsPlutusData (TaskHashOnNumbers.of_task task2) ->
   task1 = task2) /\
  (TaskHashOnNumbers.computeTaskHash (TaskHashOnNumbers.of_task task1)
   = TaskHashOnNumbers.computeTaskHash (TaskHashOnNumbers.of_task task2) ->
   task1 = task2 \/
   exists cbor1 cbor2 : bytes,
     TaskHashOnNumbers.encodeTaskAsPlutusData (TaskHashOnNumbers.of_task task1)
     = Ok cbor1 /\
     TaskHashOnNumbers.encodeTaskAsPlutusData (TaskHashOnNumbers.of_task task2)
     = Ok cbor2 /\
     digest_collision cbor1 cbor2).
Proof.
  intros Hr1 Hr2 Hs1 Hs2.
  rewrite !encodeTaskAsPlutusData_integer, !computeTaskHash_integer.
  assert (Hinj : task_cbor task1 = task_cbor task2 -> task1 = task2).
  { intros Hsame.
    pose proof (task_encoding_fields task1 task2 Hr1 Hr2 Hsame) as Hf.
    unfold task_fields in Hf. injection Hf as Hc He Hl Ha.
    destruct Hs1 as [Hc1 Ha1], Hs2 as [Hc2 Ha2].
    apply TextEncoder_injective in Hc; [| assumption | assumption].
    apply assets_injective in Ha; [| assumption | assumption].
    clear Hsame Hr1 Hr2 Hc1 Hc2 Ha1 Ha2.
    destruct task1, task2.
    cbn [TaskHash.project_content TaskHash.expiration_time
         TaskHash.lovelace_amount TaskHash.native_assets] in *.
    congruence. }
  rewrite !encodeTaskAsPlutusData_ok, !computeTaskHash_ok.
  split.
  - intros Hsame. apply Ok_injective in Hsame. exact (Hinj Hsame).
  - intros Heq. apply Ok_injective in Heq.
    destruct (list_eq_dec Z.eq_dec (task_cbor task1) (task_cbor task2))
      as [Hsame | Hdiff].
    + left. exact (Hinj Hsame).
    + right. exists (task_cbor task1), (task_cbor task2).
      split; [reflexivity |]. split; [reflexivity |].
      split; [exact Hdiff | exact Heq].
Qed.

(** The documented task against itself. *)
Lemma computeTaskHash_collision_free_witness :
  TaskHash.mkTaskData (js "Open Task #1") 1769027280000 15000000 [(js "a.b", 1)]
  = TaskHash.mkTaskData (js "Open Task #1") 1769027280000 15000000 [(js "a.b", 1)].
Proof.
  refine (proj1 (computeTaskHash_collision_free
           (TaskHash.mkTaskData (js "Open Task #1") 1769027280000 15000000
              [(js "a.b", 1)])
           (TaskHash.mkTaskData (js "Open Task #1") 1769027280000 15000000
              [(js "a.b", 1)]) _ _ _ _) eq_refl).
  - unfold task_in_range, exact_range. cbn.
    split; [lia | split; [lia | repeat constructor; cbn; lia]].
  - unfold task_in_range, exact_range. cbn.
    split; [lia | split; [lia | repeat constructor; cbn; lia]].
  - split; [apply well_formed_test; reflexivity |].
    repeat (apply Forall_cons; [apply well_formed_test; reflexivity |]).
    apply Forall_nil.
  - split; [apply well_formed_test; reflexivity |].
    repeat (apply Forall_cons; [apply well_formed_test; reflexivity |]).
    apply Forall_nil.
Defined.

(** ** The debugging view *)

(** X14. For a task whose strings are sequences of code units,
    debugTaskCBOR shows, two lower-case hexadecimal digits per byte, the
    bytes that computeTaskHash hashes: reading the digits back in pairs
    gives those bytes. *)
Theorem debugTaskCBOR_shows_hashed_bytes (task : TaskHash.TaskData) :
  task_strings code_units task ->
  exists (cbor : bytes) (hex : jsstring),
    TaskHash.debugTaskCBOR task = Ok hex /\
    TaskHash.computeTaskHash task = Ok (Blake.blake2bHex32 cbor) /\
    length hex = (2 * length cbor)%nat /\
    forallb is_lower_hex_unit hex = true /\
    hex_bytes hex = cbor.
Proof.
  intros Hs. pose proof (task_cbor_bytes task Hs) as Hb.
  exists (task_cbor task), (TaskHash.uint8ArrayToHex (task_cbor task)).
  unfold TaskHash.debugTaskCBOR. rewrite computeTaskHash_ok, encodeTaskAsPlutusData_ok.
  cbn [bind]. unfold TaskHash.uint8ArrayToHex.
  destruct (toHex_digest _ Hb) as [Hlen Hlower]. unfold Blake.toHex in *.
  repeat split; try assumption.
  unfold hex_bytes. apply hex_read_back. exact Hb.
Qed.

(** The documented task. *)
Lemma debugTaskCBOR_shows_hashed_bytes_witness :
  exists (cbor : bytes) (hex : jsstring),
    TaskHash.debugTaskCBOR
      (TaskHash.mkTaskData (js "Open Task #1") 1769027280000 15000000 []) = Ok hex /\
    TaskHash.computeTaskHash
      (TaskHash.mkTaskData (js "Open Task #1") 1769027280000 15000000 [])
    = Ok (Blake.blake2bHex32 cbor) /\
    length hex = (2 * length cbor)%nat /\
    forallb is_lower_hex_unit hex = true /\
    hex_bytes hex = cbor.
Proof.
  apply (debugTaskCBOR_shows_hashed_bytes
           (TaskHash.mkTaskData (js "Open Task #1") 1769027280000 15000000 [])).
  split; [| constructor].
  apply code_units_test. reflexivity.
Defined.

(** X15. concatUint8Arrays returns its arguments one after the other,
    and as many bytes as they have together. *)
Theorem concatUint8Arrays_spec (arrays : list bytes) :
  SltHash.concatUint8Arrays arrays = concat arrays /\
  TaskHash.concatUint8Arrays arrays = concat arrays /\
  length (TaskHash.concatUint8Arrays arrays) = total_length arrays.
Proof.
  assert (Htask : TaskHash.concatUint8Arrays arrays = concat arrays)
    by exact (concatUint8Arrays_concat arrays).
  split; [apply concatUint8Arrays_concat | split; [exact Htask |]].
  rewrite Htask. clear Htask.
  induction arrays as [| a arrays IH]; [reflexivity |].
  cbn [concat total_length fold_right]. rewrite length_app, IH. reflexivity.
Qed.

(* ===================================================================== *)
(** * Normal forms and the commitment hash *)
(* ===================================================================== *)

Section CanonicalForm.

Context {number : Type}.

Implicit Types (members : list (jsstring * value number)) (x y : value number).

Local Abbreviation normalize := (@CommitmentHash.normalizeForHashing number).

Lemma enum_sorted_NoDup members : enum_sorted members -> NoDup (Object_keys members).
Proof.
  unfold enum_sorted. generalize (Object_keys members) as keys.
  induction keys as [| k keys IH]; intros Hs; [constructor |].
  apply StronglySorted_inv in Hs. destruct Hs as [Hs Hall].
  constructor; [| apply IH; exact Hs].
  intros Hin. rewrite Forall_forall in Hall.
  exact (enum_lt_irrefl k (Hall k Hin)).
Qed.

Lemma map_fixed {A : Type} (f : A -> A) l :
  Forall (fun a => f a = a) l -> map f l = l.
Proof.
  induction 1 as [| a l Ha _ IH]; [reflexivity |].
  cbn [map]. rewrite Ha, IH. reflexivity.
Qed.

Lemma canonical_defined x : canonical x -> is_undefined x = false.
Proof. intros H. destruct H; reflexivity. Qed.

Lemma normalize_canonical x : canonical (normalize x).
Proof.
  revert x. apply value_induction; try solve [intros; constructor].
  - intros s. cbn [CommitmentHash.normalizeForHashing]. constructor.
    apply trim_twice.
  - intros items IH. cbn [CommitmentHash.normalizeForHashing]. constructor.
    apply Forall_map. exact IH.
  - intros members IH.
    remember (normalize (VObject members)) as once eqn:Honce.
    assert (Hshape : once = VObject (members_of once))
      by (subst once; reflexivity).
    rewrite Hshape. subst once.
    assert (Hsorted := normalize_object_sorted members).
    constructor.
    + exact Hsorted.
    + apply normalize_object_proto.
    + apply Forall_forall. intros [k out] Hin. cbn [snd].
      apply (get_own_NoDup _ k out (enum_sorted_NoDup _ Hsorted)) in Hin.
      rewrite normalize_object_lookup in Hin. unfold normalized_lookup in Hin.
      destruct (get_own members k) as [val |] eqn:G; [| discriminate].
      destruct (is_undefined val || string_eqb k (js "__proto__"));
        [discriminate |].
      injection Hin as <-. apply get_own_In in G.
      rewrite Forall_forall in IH. exact (IH (k, val) G).
Qed.

Lemma canonical_fixed x : canonical x -> normalize x = x.
Proof.
  revert x.
  apply (value_induction (fun x => canonical x -> normalize x = x));
    try reflexivity.
  - intros H. inversion H.
  - intros str H. inversion H as [| | | str' Htrim | |]. subst.
    cbn [CommitmentHash.normalizeForHashing]. rewrite Htrim. reflexivity.
  - intros items IH H. inversion H as [| | | | items' Hall |]. subst.
    cbn [CommitmentHash.normalizeForHashing]. f_equal. apply map_fixed.
    rewrite Forall_forall in *. intros a Ha. apply IH; [exact Ha | apply Hall; exact Ha].
  - intros members IH H.
    inversion H as [| | | | | members' Hsorted Hproto Hall]. subst.
    remember (normalize (VObject members)) as once eqn:Honce.
    assert (Hshape : once = VObject (members_of once))
      by (subst once; reflexivity).
    rewrite Hshape. f_equal. subst once.
    apply enum_sorted_ext.
    + apply normalize_object_sorted.
    + exact Hsorted.
    + intros k. rewrite normalize_object_lookup. unfold normalized_lookup.
      destruct (get_own members k) as [val |] eqn:G; [| reflexivity].
      pose proof (get_own_In _ _ _ G) as Hin.
      rewrite Forall_forall in IH, Hall.
      pose proof (Hall (k, val) Hin) as Hval. cbn [snd] in Hval.
      rewrite (canonical_defined val Hval). cbn [orb].
      destruct (string_eqb k (js "__proto__")) eqn:E.
      * apply string_eqb_true in E. subst k. congruence.
      * f_equal. exact (IH (k, val) Hin Hval).
Qed.

(** X16. The documents in normal form (no undefined, strings trimmed,
    mappings with their keys in enumeration order and without
    __proto__) are the values normalizeForHashing returns, and the ones
    it leaves unchanged. *)
Theorem normalizeForHashing_canonical :
  (forall x, canonical (normalize x)) /\
  (forall x, canonical x -> normalize x = x).
Proof.
  split; [exact normalize_canonical | exact canonical_fixed].
Qed.

Variable Number_toJSON : number -> jsstring.

Lemma stringify_defined x :
  is_undefined x = false -> exists str, JSON_stringify Number_toJSON x = Some str.
Proof.
  destruct x as [| | b | n | s | items | members];
    cbn [is_undefined JSON_stringify SerializeJSONProperty]; intros H;
    try discriminate; try (eexists; reflexivity).
  destruct b; eexists; reflexivity.
Qed.

(** X17. The commitment hash depends on the normal form only: a
    document, its normal form, and every document that differs from it
    in the order of mapping keys or in white space around strings have
    the same hash, and are verified alike. *)
Theorem computeCommitmentHash_of_normal_form :
  (forall x,
     CommitmentHash.computeCommitmentHash Number_toJSON (normalize x)
     = CommitmentHash.computeCommitmentHash Number_toJSON x) /\
  (forall x y,
     same_document x y ->
     CommitmentHash.computeCommitmentHash Number_toJSON x
     = CommitmentHash.computeCommitmentHash Number_toJSON y /\
     (forall expected,
        CommitmentHash.verifyCommitmentHash Number_toJSON x expected
        = CommitmentHash.verifyCommitmentHash Number_toJSON y expected) /\
     (forall onChain,
        CommitmentHash.verifyEvidenceDetailed Number_toJSON x onChain
        = CommitmentHash.verifyEvidenceDetailed Number_toJSON y onChain)).
Proof.
  split.
  - intros x. unfold CommitmentHash.computeCommitmentHash.
    rewrite normalize_twice. reflexivity.
  - intros x y Hsame.
    assert (Hhash : CommitmentHash.computeCommitmentHash Number_toJSON x
                    = CommitmentHash.computeCommitmentHash Number_toJSON y).
    { unfold CommitmentHash.computeCommitmentHash.
      rewrite (normalize_same_document x y Hsame). reflexivity. }
    split; [exact Hhash | split].
    + intros expected. unfold CommitmentHash.verifyCommitmentHash.
      rewrite Hhash. reflexivity.
    + intros onChain. unfold CommitmentHash.verifyEvidenceDetailed.
      rewrite Hhash. reflexivity.
Qed.

(** X18. The text that is hashed is always defined: JSON.stringify
    returns a string on every normal form, and the commitment hash is
    the digest of its UTF-8 bytes.  Undefined is hashed as null, alone
    and as an array element. *)
Theorem computeCommitmentHash_text :
  (forall x, exists str,
     JSON_stringify Number_toJSON (normalize x) = Some str /\
     CommitmentHash.computeCommitmentHash Number_toJSON x
     = Blake.blake2bHex32 (TextEncoder_encode str)) /\
  CommitmentHash.computeCommitmentHash Number_toJSON VUndefined
  = CommitmentHash.computeCommitmentHash Number_toJSON VNull /\
  (forall before after,
     CommitmentHash.computeCommitmentHash Number_toJSON
       (VArray (before ++ VUndefined :: after))
     = CommitmentHash.computeCommitmentHash Number_toJSON
         (VArray (before ++ VNull :: after))).
Proof.
  split; [| split].
  - intros x.
    destruct (stringify_defined (normalize x) (normalize_defined x)) as [str Hstr].
    exists str. split; [exact Hstr |].
    unfold CommitmentHash.computeCommitmentHash. rewrite Hstr. reflexivity.
  - reflexivity.
  - intros before after. unfold CommitmentHash.computeCommitmentHash.
    cbn [CommitmentHash.normalizeForHashing]. rewrite !map_app. reflexivity.
Qed.

End CanonicalForm.

(** A mapping in normal form. *)
Lemma normalizeForHashing_canonical_witness :
  CommitmentHash.normalizeForHashing
    (VObject [(js "a", VArray [VNull; VString (js "x") : value Z])])
  = VObject [(js "a", VArray [VNull; VString (js "x")])].
Proof.
  apply (proj2 normalizeForHashing_canonical).
  constructor.
  - repeat constructor.
  - reflexivity.
  - repeat constructor.
Defined.

(** The documents {a: " x ", b: null} and {b: null, a: "x"}. *)
Lemma computeCommitmentHash_of_normal_form_witness :
  CommitmentHash.computeCommitmentHash (fun n : Z => [48])
    (VObject [(js "a", VString (js " x ")); (js "b", VNull)])
  = CommitmentHash.computeCommitmentHash (fun n : Z => [48])
      (VObject [(js "b", VNull); (js "a", VString (js "x"))]).
Proof.
  apply (proj2 (computeCommitmentHash_of_normal_form (fun n : Z => [48]))).
  apply same_object
    with (reordered := [(js "b", VNull); (js "a", VString (js " x "))]).
  - repeat constructor; cbn; intuition discriminate.
  - apply perm_swap.
  - repeat constructor.
Defined.

(* ===================================================================== *)
(** * Explorer addresses and policy identifiers *)
(* ===================================================================== *)

Lemma explorer_prefix (n1 n2 : Cardano.CardanoNetwork) (x y : jsstring) :
  Cardano.EXPLORER_URLS n1 ++ 47 :: x = Cardano.EXPLORER_URLS n2 ++ 47 :: y ->
  n1 = n2 /\ x = y.
Proof.
  intros H.
  destruct n1, n2;
    try (apply app_inv_head in H; injection H as H; split; [reflexivity | exact H]);
    vm_compute in H; discriminate H.
Qed.

Lemma app_same_length {A : Type} (p1 : list A) : forall p2 t1 t2,
  length p1 = length p2 -> p1 ++ t1 = p2 ++ t2 -> p1 = p2 /\ t1 = t2.
Proof.
  induction p1 as [| a p1 IH]; intros [| b p2] t1 t2 Hlen H;
    try discriminate Hlen.
  - split; [reflexivity | exact H].
  - cbn [app] in H. injection H as -> H. cbn [length] in Hlen.
    destruct (IH p2 t1 t2 ltac:(lia) H) as [-> ->]. split; reflexivity.
Qed.

Lemma asset_id_shape (policyId : jsstring) (assetName : option jsstring) :
  match assetName with
  | Some (c :: name) => policyId ++ js "." ++ c :: name
  | _ => policyId
  end
  = policyId ++ match or_empty assetName with
                | [] => []
                | c :: name => 46 :: c :: name
                end.
Proof.
  destruct assetName as [[| c name] |]; cbn [or_empty];
    rewrite ?app_nil_r; reflexivity.
Qed.

Lemma valid_policy_length p : Policies.isValidPolicyId p = true -> length p = 56%nat.
Proof.
  unfold Policies.isValidPolicyId.
  destruct (length p =? 56)%nat eqn:E; cbn [negb]; [| discriminate].
  intros _. apply Nat.eqb_eq. exact E.
Qed.

(** X19. An explorer address tells its network and its argument: two
    transaction addresses, two address addresses or two policy addresses
    that are equal were built from the same network and the same
    string, and addresses of different kinds are never equal. *)
Theorem explorer_urls_injective :
  (forall n1 n2 h1 h2,
     Cardano.getTxExplorerUrl n1 h1 = Cardano.getTxExplorerUrl n2 h2 ->
     n1 = n2 /\ h1 = h2) /\
  (forall n1 n2 a1 a2,
     Cardano.getAddressExplorerUrl n1 a1 = Cardano.getAddressExplorerUrl n2 a2 ->
     n1 = n2 /\ a1 = a2) /\
  (forall n1 n2 p1 p2,
     Cardano.getPolicyExplorerUrl n1 p1 = Cardano.getPolicyExplorerUrl n2 p2 ->
     n1 = n2 /\ p1 = p2) /\
  (forall n1 n2 a b c,
     Cardano.getTxExplorerUrl n1 a <> Cardano.getAddressExplorerUrl n2 b /\
     Cardano.getTxExplorerUrl n1 a <> Cardano.getPolicyExplorerUrl n2 b /\
     Cardano.getTxExplorerUrl n1 a <> Cardano.getAssetExplorerUrl n2 b c /\
     Cardano.getAddressExplorerUrl n1 a <> Cardano.getPolicyExplorerUrl n2 b /\
     Cardano.getAddressExplorerUrl n1 a <> Cardano.getAssetExplorerUrl n2 b c /\
     Cardano.getPolicyExplorerUrl n1 a <> Cardano.getAssetExplorerUrl n2 b c).
Proof.
  unfold Cardano.getTxExplorerUrl, Cardano.getAddressExplorerUrl,
    Cardano.getPolicyExplorerUrl, Cardano.getAssetExplorerUrl.
  repeat split.
  - apply explorer_prefix in H. tauto.
  - apply explorer_prefix in H. destruct H as [_ H].
    apply (app_inv_head (js "transaction/")) in H. exact H.
  - apply explorer_prefix in H. tauto.
  - apply explorer_prefix in H. destruct H as [_ H].
    apply (app_inv_head (js "address/")) in H. exact H.
  - apply explorer_prefix in H. tauto.
  - apply explorer_prefix in H. destruct H as [_ H].
    apply (app_inv_head (js "tokenPolicy/")) in H. exact H.
  - intros H. apply explorer_prefix in H. destruct H as [_ H].
    vm_compute in H. discriminate H.
  - intros H. apply explorer_prefix in H. destruct H as [_ H].
    vm_compute in H. discriminate H.
  - intros H. apply explorer_prefix in H. destruct H as [_ H].
    cbn [js app] in H. vm_compute in H. discriminate H.
  - intros H. apply explorer_prefix in H. destruct H as [_ H].
    vm_compute in H. discriminate H.
  - intros H. apply explorer_prefix in H. destruct H as [_ H].
    vm_compute in H. discriminate H.
  - intros H. apply explorer_prefix in H. destruct H as [_ H].
    rewrite asset_id_shape in H.
    apply (app_inv_head (js "token")) in H. discriminate H.
Qed.

(** Two transaction addresses on one network. *)
Lemma explorer_urls_injective_witness :
  Cardano.preprod = Cardano.preprod /\ js "ab12" = js "ab12".
Proof.
  apply (proj1 explorer_urls_injective). reflexivity.
Defined.

(** X20. With policy identifiers that pass isValidPolicyId, a token
    address tells its network, its policy and its asset name, an omitted
    name and the empty name being the same.  Without the check it does
    not: the policy p.a without a name and the policy p with the name a
    have the same address. *)
Theorem getAssetExplorerUrl_injective :
  (forall n1 n2 p1 p2 a1 a2,
     Policies.isValidPolicyId p1 = true -> Policies.isValidPolicyId p2 = true ->
     Cardano.getAssetExplorerUrl n1 p1 a1 = Cardano.getAssetExplorerUrl n2 p2 a2 ->
     n1 = n2 /\ p1 = p2 /\ or_empty a1 = or_empty a2) /\
  (forall n p c name,
     Cardano.getAssetExplorerUrl n (p ++ js "." ++ c :: name) None
     = Cardano.getAssetExplorerUrl n p (Some (c :: name))).
Proof.
  split.
  - intros n1 n2 p1 p2 a1 a2 Hv1 Hv2 H.
    unfold Cardano.getAssetExplorerUrl in H. rewrite !asset_id_shape in H.
    apply explorer_prefix in H. destruct H as [Hn H].
    apply (app_inv_head (js "token/")) in H.
    apply app_same_length in H;
      [| rewrite (valid_policy_length p1 Hv1), (valid_policy_length p2 Hv2);
         reflexivity].
    destruct H as [Hp Ht]. split; [exact Hn | split; [exact Hp |]].
    destruct (or_empty a1), (or_empty a2); try discriminate Ht;
      [reflexivity | injection Ht as -> ->; reflexivity].
  - intros n p c name. reflexivity.
Qed.

(** The access token policy of preprod, with a name and without one. *)
Lemma getAssetExplorerUrl_injective_witness :
  Cardano.preprod = Cardano.preprod /\
  Policies.getAccessTokenPolicyId Cardano.preprod
  = Policies.getAccessTokenPolicyId Cardano.preprod /\
  or_empty None = or_empty (Some []).
Proof.
  apply (proj1 getAssetExplorerUrl_injective); reflexivity.
Defined.

(** X21. A valid policy identifier is a valid asset name and not a
    valid hash, and a valid hash is a valid asset name and not a valid
    policy identifier.  Of the three networks only preprod has an access
    token policy that passes isValidPolicyId. *)
Theorem policy_id_validity :
  (forall p,
     Policies.isValidPolicyId p = true ->
     Policies.isValidAssetName p = true /\
     SltHash.isValidSltHash p = false /\ TaskHash.isValidTaskHash p = false /\
     CommitmentHash.isValidCommitmentHash p = false) /\
  (forall h,
     CommitmentHash.isValidCommitmentHash h = true ->
     Policies.isValidAssetName h = true /\ Policies.isValidPolicyId h = false) /\
  (forall network,
     Policies.isValidPolicyId (Policies.getAccessTokenPolicyId network) = true
     <-> network = Cardano.preprod).
Proof.
  split; [| split].
  - intros p Hv. pose proof (valid_policy_length p Hv) as Hlen.
    unfold Policies.isValidPolicyId, Policies.regex_hex56 in Hv.
    unfold Policies.isValidAssetName, Policies.regex_hex_any,
      SltHash.isValidSltHash, TaskHash.isValidTaskHash,
      CommitmentHash.isValidCommitmentHash.
    rewrite Hlen in *. cbn in Hv. cbn. repeat split; try reflexivity.
    exact Hv.
  - intros h Hv. unfold CommitmentHash.isValidCommitmentHash, regex_hex64 in Hv.
    unfold Policies.isValidAssetName, Policies.regex_hex_any,
      Policies.isValidPolicyId.
    destruct (length h =? 64)%nat eqn:E; cbn [negb] in Hv; [| discriminate].
    apply Nat.eqb_eq in E. rewrite E in *. cbn in Hv. cbn.
    split; [exact Hv | reflexivity].
  - intros network. split.
    + destruct network; [discriminate | reflexivity | discriminate].
    + intros ->. reflexivity.
Qed.

(** The access token policy of preprod. *)
Lemma policy_id_validity_witness :
  Policies.isValidAssetName (Policies.getAccessTokenPolicyId Cardano.preprod) = true /\
  SltHash.isValidSltHash (Policies.getAccessTokenPolicyId Cardano.preprod) = false /\
  TaskHash.isValidTaskHash (Policies.getAccessTokenPolicyId Cardano.preprod) = false /\
  CommitmentHash.isValidCommitmentHash
    (Policies.getAccessTokenPolicyId Cardano.preprod) = false.
Proof.
  apply (proj1 policy_id_validity). reflexivity.
Defined.

(** X22. The network tables: the magic number and each of the two
    explorer hosts tell the network, and the address prefix tells only
    whether the network is mainnet. *)
Theorem network_constants :
  (forall n1 n2, Cardano.NETWORK_MAGIC n1 = Cardano.NETWORK_MAGIC n2 -> n1 = n2) /\
  (forall n1 n2, Cardano.EXPLORER_URLS n1 = Cardano.EXPLORER_URLS n2 -> n1 = n2) /\
  (forall n1 n2, Cardano.CEXPLORER_URLS n1 = Cardano.CEXPLORER_URLS n2 -> n1 = n2) /\
  (forall n1 n2,
     Cardano.ADDRESS_PREFIX n1 = Cardano.ADDRESS_PREFIX n2 <->
     (n1 = Cardano.mainnet <-> n2 = Cardano.mainnet)).
Proof.
  split; [| split; [| split]].
  - intros n1 n2 H. destruct n1, n2; try reflexivity; discriminate H.
  - intros n1 n2 H.
    destruct n1, n2; try reflexivity; vm_compute in H; discriminate H.
  - intros n1 n2 H.
    destruct n1, n2; try reflexivity; vm_compute in H; discriminate H.
  - intros n1 n2. split.
    + intros H. destruct n1, n2; try tauto;
        try (vm_compute in H; discriminate H); split; discriminate.
    + intros [H1 H2]. destruct n1, n2; try reflexivity;
        try (specialize (H1 eq_refl); discriminate H1);
        try (specialize (H2 eq_refl); discriminate H2).
Qed.

(** Two networks with the same magic number. *)
Lemma network_constants_witness : Cardano.preview = Cardano.preview.
Proof.
  apply (proj1 network_constants). reflexivity.
Defined.

(** ** Hexadecimal names read in pairs *)

Lemma in_hex_units c :
  is_hex_unit c = true ->
  In c (map Z.of_nat (seq 48 10 ++ seq 97 6 ++ seq 65 6)).
Proof.
  unfold is_hex_unit. intros H.
  apply in_map_iff. exists (Z.to_nat c).
  apply orb_true_iff in H. destruct H as [H | H];
    [apply orb_true_iff in H; destruct H as [H | H] |];
    apply andb_true_iff in H; destruct H as [H1 H2];
    apply Z.leb_le in H1; apply Z.leb_le in H2;
    (split; [lia |]); rewrite !in_app_iff, !in_seq; lia.
Qed.

Lemma hex_pair_read c d :
  is_hex_unit c = true -> is_hex_unit d = true ->
  is_line_terminator c = false /\ is_line_terminator d = false /\
  is_line_terminator (lower_unit c) = false /\
  is_line_terminator (lower_unit d) = false /\
  exists v, 0 <= v < 256 /\
    parseInt16 [c; d] = Some v /\
    parseInt16 [lower_unit c; lower_unit d] = Some v /\
    hex_byte v = [lower_unit c; lower_unit d].
Proof.
  intros Hc Hd.
  assert (Hall :
    forallb (fun x =>
      forallb (fun y =>
        negb (is_line_terminator x) && negb (is_line_terminator y)
        && negb (is_line_terminator (lower_unit x))
        && negb (is_line_terminator (lower_unit y))
        && match parseInt16 [x; y], parseInt16 [lower_unit x; lower_unit y] with
           | Some v, Some w =>
               (0 <=? v) && (v <? 256) && (v =? w)
               && (hex_digit (v / 16) =? lower_unit x)
               && (hex_digit (v mod 16) =? lower_unit y)
           | _, _ => false
           end)
        (map Z.of_nat (seq 48 10 ++ seq 97 6 ++ seq 65 6)))
      (map Z.of_nat (seq 48 10 ++ seq 97 6 ++ seq 65 6)) = true)
    by (vm_compute; reflexivity).
  rewrite forallb_forall in Hall. specialize (Hall c (in_hex_units c Hc)).
  rewrite forallb_forall in Hall. specialize (Hall d (in_hex_units d Hd)).
  cbv beta in Hall.
  apply andb_true_iff in Hall. destruct Hall as [Hall HM].
  apply andb_true_iff in Hall. destruct Hall as [Hall HD].
  apply andb_true_iff in Hall. destruct Hall as [Hall HC].
  apply andb_true_iff in Hall. destruct Hall as [HA HB].
  apply negb_true_iff in HA, HB, HC, HD.
  destruct (parseInt16 [c; d]) as [v |]; [| discriminate].
  destruct (parseInt16 [lower_unit c; lower_unit d]) as [w |]; [| discriminate].
  apply andb_true_iff in HM. destruct HM as [HM H5].
  apply andb_true_iff in HM. destruct HM as [HM H4].
  apply andb_true_iff in HM. destruct HM as [HM H3].
  apply andb_true_iff in HM. destruct HM as [H1 H2].
  apply Z.leb_le in H1. apply Z.ltb_lt in H2.
  apply Z.eqb_eq in H3, H4, H5. subst w.
  split; [exact HA | split; [exact HB | split; [exact HC | split; [exact HD |]]]].
  exists v. split; [lia | split; [reflexivity | split; [reflexivity |]]].
  unfold hex_byte. rewrite H4, H5. reflexivity.
Qed.

Lemma hex_bytes_pairs hex :
  hex_bytes hex = Uint8Array_from (map parseInt16 (match_pairs hex)).
Proof.
  unfold hex_bytes, String_match_pairs. destruct (match_pairs hex); reflexivity.
Qed.

Lemma hex_pairs_read hex :
  forallb is_hex_unit hex = true -> (length hex mod 2 = 0)%nat ->
  flat_map hex_byte (hex_bytes hex) = toLowerCase hex /\
  hex_bytes (toLowerCase hex) = hex_bytes hex /\
  (2 * length (hex_bytes hex) = length hex)%nat.
Proof.
  rewrite !hex_bytes_pairs.
  induction hex as [| c l IH1 IH2] using list_pair_induction;
    [intros _ _; repeat split; reflexivity |].
  destruct l as [| d l']; [intros _ H; cbn in H; discriminate H |].
  clear IH1. specialize (IH2 d l' eq_refl).
  intros Hhex Heven. cbn [forallb] in Hhex.
  apply andb_true_iff in Hhex. destruct Hhex as [Hc Hhex].
  apply andb_true_iff in Hhex. destruct Hhex as [Hd Hhex].
  assert (Heven' : (length l' mod 2 = 0)%nat).
  { cbn [length] in Heven.
    replace (S (S (length l'))) with (length l' + 1 * 2)%nat in Heven by lia.
    rewrite Nat.Div0.mod_add in Heven. exact Heven. }
  destruct (IH2 Hhex Heven') as (IHa & IHb & IHc).
  destruct (hex_pair_read c d Hc Hd)
    as (Lc & Ld & Llc & Lld & v & Hv & Hp & Hpl & Hb).
  unfold toLowerCase in *. cbn [map match_pairs].
  rewrite Lc, Ld, Llc, Lld. unfold Uint8Array_from in *. cbn [map flat_map length].
  rewrite Hp, Hpl, toUint8_byte by exact Hv. rewrite IHa, IHb, Hb.
  repeat split; try reflexivity. lia.
Qed.

(** X23. A valid asset name is read in pairs of hexadecimal digits: it
    gives half as many bytes as it has characters, at most 32; writing
    the bytes as hexadecimal digits gives the name in lower case; and
    the name and its lower-case form are converted to the same string. *)
Theorem assetNameToString_reads_pairs (hex : jsstring) :
  Policies.isValidAssetName hex = true ->
  TaskHash.uint8ArrayToHex (hex_bytes hex) = toLowerCase hex /\
  (2 * length (hex_bytes hex) = length hex)%nat /\
  (length (hex_bytes hex) <= 32)%nat /\
  Policies.assetNameToString (toLowerCase hex) = Policies.assetNameToString hex.
Proof.
  unfold Policies.isValidAssetName, Policies.regex_hex_any. intros Hv.
  destruct (64 <? length hex)%nat eqn:Hlen; [discriminate |].
  apply Nat.ltb_ge in Hlen.
  destruct (length hex mod 2 =? 0)%nat eqn:Heven; cbn [negb] in Hv; [| discriminate].
  apply Nat.eqb_eq in Heven.
  destruct (hex_pairs_read hex Hv Heven) as (Ha & Hb & Hc).
  unfold TaskHash.uint8ArrayToHex.
  split; [exact Ha | split; [exact Hc | split; [lia |]]].
  change (Policies.assetNameToString (toLowerCase hex))
    with (TextDecoder_decode (hex_bytes (toLowerCase hex))).
  rewrite Hb. reflexivity.
Qed.

(** The name 4A6f ("Jo"). *)
Lemma assetNameToString_reads_pairs_witness :
  TaskHash.uint8ArrayToHex (hex_bytes (js "4A6f")) = toLowerCase (js "4A6f") /\
  (2 * length (hex_bytes (js "4A6f")) = length (js "4A6f"))%nat /\
  (length (hex_bytes (js "4A6f")) <= 32)%nat /\
  Policies.assetNameToString (toLowerCase (js "4A6f"))
  = Policies.assetNameToString (js "4A6f").
Proof.
  apply (assetNameToString_reads_pairs (js "4A6f")). reflexivity.
Defined.

(** ** The definite encoder is one-to-one *)

Lemma length_byte_string_header len :
  length (byte_string_header len)
  = if len <=? 23 then 1%nat else if len <=? 255 then 2%nat else 3%nat.
Proof.
  unfold byte_string_header.
  destruct (len <=? 23); [reflexivity |].
  destruct (len <=? 255); [reflexivity |].
  cbn [length]. rewrite length_be_bytes. reflexivity.
Qed.

Lemma definite_byte_string_injective b1 b2 :
  definite_byte_string b1 = definite_byte_string b2 -> b1 = b2.
Proof.
  intros H. unfold definite_byte_string in H.
  assert (Hlen : length b1 = length b2).
  { apply (f_equal (@length Z)) in H.
    rewrite !length_app, !length_byte_string_header in H.
    destruct (Z.of_nat (length b1) <=? 23) eqn:A1;
      destruct (Z.of_nat (length b1) <=? 255) eqn:A2;
      destruct (Z.of_nat (length b2) <=? 23) eqn:B1;
      destruct (Z.of_nat (length b2) <=? 255) eqn:B2;
      rewrite ?Z.leb_le, ?Z.leb_gt in *; lia. }
  rewrite Hlen in H. apply app_inv_head in H. exact H.
Qed.

(** X24. The definite byte-string encoder of both modules is
    one-to-one where it returns: two buffers with the same encoding are
    equal. *)
Theorem encodeCBORByteString_injective (b1 b2 out : bytes) :
  SltHash.encodeCBORByteString b1 = Ok out ->
  TaskHash.encodeCBORByteString b2 = Ok out ->
  b1 = b2.
Proof.
  intros H1 H2.
  change (SltHash.encodeCBORByteString b2 = Ok out) in H2.
  destruct (Z_le_gt_dec (Z.of_nat (length b1)) 65535) as [L1 | L1];
    [| rewrite encodeCBORByteString_throws in H1 by lia; discriminate H1].
  destruct (Z_le_gt_dec (Z.of_nat (length b2)) 65535) as [L2 | L2];
    [| rewrite encodeCBORByteString_throws in H2 by lia; discriminate H2].
  rewrite encodeCBORByteString_ok in H1, H2 by assumption.
  apply definite_byte_string_injective. congruence.
Qed.

(** A buffer of 300 bytes, written in two ways. *)
Lemma encodeCBORByteString_injective_witness :
  repeat 7 300 = repeat 7 100 ++ repeat 7 200.
Proof.
  apply (encodeCBORByteString_injective (repeat 7 300) (repeat 7 100 ++ repeat 7 200)
           (0x59 :: 1 :: 44 :: repeat 7 300));
    vm_compute; reflexivity.
Defined.

(** X25. The two CBOR pipelines never produce the same bytes: the
    encoding of a list of SLTs starts with the array byte 0x9f and the
    encoding of a task with the constructor tag 0xd8, so what
    computeSltHash hashes is never what computeTaskHash hashes. *)
Theorem slt_and_task_encodings_differ (items : list bytes) (task : TaskHash.TaskData) :
  SltHash.encodeAsPlutusArray items <> TaskHash.encodeTaskAsPlutusData task.
Proof.
  rewrite encodeAsPlutusArray_ok, encodeTaskAsPlutusData_ok.
  unfold task_cbor. cbn [app]. intros H. apply Ok_injective in H.
  discriminate H.
Qed.
